(** * s3-list-bucket-stream: a readable stream over a paginated bucket listing

    Shallow embedding of the stream class of [src/index.ts] and of its
    sibling revision with the [fullMetadata] option ([part_000]), together
    with the mock provider of the test file ([part_001]).

    The class extends a host stream ([Readable]) and talks to a listing
    provider ([listObjectsV2]); both are interfaces here.  Every observable
    action of the stream (provider call, [emit], [push]) is appended to an
    event log carried by the stream state. *)

From stdpp Require Import gmap strings list.

(** ** JavaScript data *)

(** Primitive values, as they occur in request parameters, options and the
    scalar fields of a response. *)
Inductive Value :=
| VUndefined
| VNull
| VBool (b : bool)
| VNum (n : Z)
| VStr (s : string).

(** [if (v)], [v ? a : b], [!v] on a primitive. *)
Definition truthy (v : Value) : bool :=
  match v with
  | VUndefined | VNull => false
  | VBool b => b
  | VNum n => negb (n =? 0)%Z
  | VStr s => negb (String.eqb s "")
  end.

(** A slot that holds an object of type [A], [undefined] or [null]. *)
Inductive Js (A : Type) :=
| JUndefined
| JNull
| JVal (a : A).
Arguments JUndefined {A}.
Arguments JNull {A}.
Arguments JVal {A} a.

(** [x != null] (loose comparison: false on both [null] and [undefined]). *)
Definition not_nullish {A} (x : Js A) : bool :=
  match x with JVal _ => true | _ => false end.

(** The primitive standing for a nullish slot. *)
Definition nullish_value {A} (x : Js A) : Value :=
  match x with JNull => VNull | _ => VUndefined end.

(** A plain object used as a bag of named options: own properties only. *)
Abbreviation Obj := (gmap string Value).

(** [o.k]: an absent property reads as [undefined]. *)
Definition get_prop (o : Obj) (k : string) : Value :=
  default VUndefined (o !! k).

(** [Object.assign({}, a, b)] and [{ ...a, ...b }]: the properties of [b]
    win (also those whose value is [undefined]). *)
Definition assign (a b : Obj) : Obj := b ∪ a.

(** ** The listing API (aws-sdk [ListObjectsV2Output]) *)

Record S3Object := {
  Key : Value;
  LastModified : Value;
  ETag : Value;
  Size : Value;
  StorageClass : Value
}.

Record CommonPrefix := { Prefix : Value }.

(** Only the fields the stream reads are kept. *)
Record ListObjectsV2Output := {
  Contents : Js (list (Js S3Object));
  IsTruncated : Value;
  NextContinuationToken : Value;
  CommonPrefixes : Js (list (Js CommonPrefix))
}.

(** The error object handed to the callback by the provider. *)
Record Error := { message : string }.

(** The provider: [listObjectsV2(params, cb)] ends by calling [cb(err, data)]. *)
Class S3Client (S : Type) := {
  listObjectsV2 : Obj → S → (Js Error * Js ListObjectsV2Output) * S
}.

(** ** The host stream *)

(** What [this.push] receives: a key (or any primitive, [null] included) or a
    full metadata record. *)
Inductive Chunk :=
| ChunkValue (v : Value)
| ChunkObject (o : S3Object).

(** [push(null)]: end of the stream. *)
Definition EOF : Chunk := ChunkValue VNull.

Definition chunk_of (x : Js S3Object) : Chunk :=
  match x with
  | JVal o => ChunkObject o
  | _ => ChunkValue (nullish_value x)
  end.

(** The base class: [super(options)] builds it, [push] returns [false] when
    the reader's buffer is full. *)
Class ReadableBase (R : Type) := {
  Readable_new : Obj → R;
  push : Chunk → R → bool * R
}.

(** ** Exceptions and events *)

(** The property read that failed: [x.name] or [x[i]]; an index that is not
    a number ([undefined], [NaN]) is [None]. *)
Inductive Property :=
| Named (name : string)
| Indexed (i : option nat).

(** What a [throw] (or a rejected [await]) carries. *)
Inductive Thrown :=
| ThrownError (err : Error)
| TypeError (base : Value) (prop : Property).

Inductive Event :=
| Call_listObjectsV2 (params : Obj)
| Call_push (chunk : Chunk)
| Emit_restarted
| Emit_stopped
| Emit_page (params : Obj) (data : Js ListObjectsV2Output)
| Emit_prefix (prefix : Value)
| Emit_error (cause : Thrown).

(** ** The stream object *)

(** The private fields of the class, the state of the two collaborators and
    the event log.  [_currentIndex] is [None] while it is not a number
    ([undefined] at construction).  [_fullMetadata] exists in the
    [fullMetadata] revision only; [src/index.ts] neither reads nor writes
    it. *)
Record Stream (S R : Type) := {
  _s3 : S;
  readable : R;
  _bucket : string;
  _bucketPrefix : string;
  _fullMetadata : Value;
  _listObjectsV2args : Obj;
  _lastResponse : Js ListObjectsV2Output;
  _currentIndex : option nat;
  _stopped : bool;
  events : list Event
}.
Arguments _s3 {S R} _.
Arguments readable {S R} _.
Arguments _bucket {S R} _.
Arguments _bucketPrefix {S R} _.
Arguments _fullMetadata {S R} _.
Arguments _listObjectsV2args {S R} _.
Arguments _lastResponse {S R} _.
Arguments _currentIndex {S R} _.
Arguments _stopped {S R} _.
Arguments events {S R} _.

Definition defaultListObjectsV2Options : Obj := {[ "MaxKeys" := VNum 1000 ]}.

(** ** A small state-and-exception monad for method bodies *)

Inductive Res (A : Type) :=
| Ok (a : A)
| Throw (e : Thrown).
Arguments Ok {A} a.
Arguments Throw {A} e.

Section Methods.
Context {S R : Type} `{!S3Client S, !ReadableBase R}.

Definition M (A : Type) : Type := Stream S R → Res A * Stream S R.

Definition ret {A} (a : A) : M A := λ st, (Ok a, st).

Definition bind {A B} (c : M A) (k : A → M B) : M B :=
  λ st, match c st with
        | (Ok a, st') => k a st'
        | (Throw e, st') => (Throw e, st')
        end.

Definition throw {A} (e : Thrown) : M A := λ st, (Throw e, st).

(** [try { c } catch (err) { h err }] *)
Definition try_catch {A} (c : M A) (h : Thrown → M A) : M A :=
  λ st, match c st with
        | (Ok a, st') => (Ok a, st')
        | (Throw e, st') => h e st'
        end.

Definition this : M (Stream S R) := λ st, (Ok st, st).

Definition log (ev : Event) : M unit :=
  λ st, (Ok tt,
         {| _s3 := _s3 st; readable := readable st; _bucket := _bucket st;
            _bucketPrefix := _bucketPrefix st;
            _fullMetadata := _fullMetadata st;
            _listObjectsV2args := _listObjectsV2args st;
            _lastResponse := _lastResponse st;
            _currentIndex := _currentIndex st; _stopped := _stopped st;
            events := events st ++ [ev] |}).

Definition set_stopped (b : bool) : M unit :=
  λ st, (Ok tt,
         {| _s3 := _s3 st; readable := readable st; _bucket := _bucket st;
            _bucketPrefix := _bucketPrefix st;
            _fullMetadata := _fullMetadata st;
            _listObjectsV2args := _listObjectsV2args st;
            _lastResponse := _lastResponse st;
            _currentIndex := _currentIndex st; _stopped := b;
            events := events st |}).

Definition set_currentIndex (i : option nat) : M unit :=
  λ st, (Ok tt,
         {| _s3 := _s3 st; readable := readable st; _bucket := _bucket st;
            _bucketPrefix := _bucketPrefix st;
            _fullMetadata := _fullMetadata st;
            _listObjectsV2args := _listObjectsV2args st;
            _lastResponse := _lastResponse st;
            _currentIndex := i; _stopped := _stopped st;
            events := events st |}).

Definition set_lastResponse (d : Js ListObjectsV2Output) : M unit :=
  λ st, (Ok tt,
         {| _s3 := _s3 st; readable := readable st; _bucket := _bucket st;
            _bucketPrefix := _bucketPrefix st;
            _fullMetadata := _fullMetadata st;
            _listObjectsV2args := _listObjectsV2args st;
            _lastResponse := d;
            _currentIndex := _currentIndex st; _stopped := _stopped st;
            events := events st |}).

(** [this.emit(name, arg)]: listeners are outside the model, the
    notification is recorded. *)
Definition emit (ev : Event) : M unit := log ev.

(** [this.push(chunk)] *)
Definition call_push (c : Chunk) : M bool :=
  λ st, let '(more, r') := push c (readable st) in
        (Ok more,
         {| _s3 := _s3 st; readable := r'; _bucket := _bucket st;
            _bucketPrefix := _bucketPrefix st;
            _fullMetadata := _fullMetadata st;
            _listObjectsV2args := _listObjectsV2args st;
            _lastResponse := _lastResponse st;
            _currentIndex := _currentIndex st; _stopped := _stopped st;
            events := events st ++ [Call_push c] |}).

(** [this._s3.listObjectsV2(params, cb)], up to the call of [cb]. *)
Definition call_listObjectsV2 (params : Obj)
  : M (Js Error * Js ListObjectsV2Output) :=
  λ st, let '(answer, s') := listObjectsV2 params (_s3 st) in
        (Ok answer,
         {| _s3 := s'; readable := readable st; _bucket := _bucket st;
            _bucketPrefix := _bucketPrefix st;
            _fullMetadata := _fullMetadata st;
            _listObjectsV2args := _listObjectsV2args st;
            _lastResponse := _lastResponse st;
            _currentIndex := _currentIndex st; _stopped := _stopped st;
            events := events st ++ [Call_listObjectsV2 params] |}).
End Methods.

Notation "'let!' x ':=' c 'in' k" := (bind c (λ x, k))
  (at level 10, x name, c at level 100, k at level 200,
   format "'[v' 'let!'  x  :=  c  'in'  '/' k ']'").
Notation "'exec!' c 'in' k" := (bind c (λ _, k))
  (at level 10, c at level 100, k at level 200,
   format "'[v' 'exec!'  c  'in'  '/' k ']'").

(** ** Code shared by the two revisions *)

Section Shared.
Context {S R : Type} `{!S3Client S, !ReadableBase R}.

(** [this._lastResponse ? this._lastResponse.NextContinuationToken
    : undefined] *)
Definition continuationToken (last : Js ListObjectsV2Output) : Value :=
  match last with
  | JVal r => NextContinuationToken r
  | _ => VUndefined
  end.

Definition currentParams (st : Stream S R) : Obj :=
  {[ "Bucket" := VStr (_bucket st);
     "Prefix" := VStr (_bucketPrefix st);
     "ContinuationToken" := continuationToken (_lastResponse st) ]}.

(** [_loadNextPage] ([src/index.ts] 52-76, [part_000] 71-95; the two
    bodies are the same text).  The promise is awaited by its only
    caller, so a rejection is a [Throw] here. *)
Definition _loadNextPage : M (S:=S) (R:=R) unit :=
  let! st := this in
  let params := assign (_listObjectsV2args st) (currentParams st) in
  let! answer := call_listObjectsV2 params in
  match answer with
  | (JVal err, _) => throw (ThrownError err)
  | (_, data) =>
      exec! set_lastResponse data in
      exec! set_currentIndex (Some 0) in
      emit (Emit_page params data)
  end.

(** [a >= b] where [a] may not be a number (the comparison is then
    false). *)
Definition js_ge (a : option nat) (b : nat) : bool :=
  match a with
  | Some i => bool_decide (b ≤ i)
  | None => false
  end.

(** [x.length] on the item sequence. *)
Definition length_of {A} (x : Js (list A)) : M (S:=S) (R:=R) nat :=
  match x with
  | JVal l => ret (length l)
  | _ => throw (TypeError (nullish_value x) (Named "length"))
  end.

(** [this._lastResponse.Contents[this._currentIndex++]]: the base
    [this._lastResponse.Contents] is evaluated first, then the index
    expression with its increment, and only then is the element read. *)
Definition read_entry : M (S:=S) (R:=R) (Js S3Object) :=
  let! st := this in
  match _lastResponse st with
  | JVal r =>
      let i := _currentIndex st in
      exec! set_currentIndex (Nat.succ <$> i) in
      match Contents r with
      | JVal l =>
          match i with
          | Some n => ret (default JUndefined (l !! n))
          | None => ret JUndefined
          end
      | c => throw (TypeError (nullish_value c) (Indexed i))
      end
  | last => throw (TypeError (nullish_value last) (Named "Contents"))
  end.

(** How one turn of the [while (true)] loop leaves. *)
Inductive Flow :=
| Next
| Return (result : bool)
| Break.

(** How a call of [_startRead] completes. *)
Inductive Completion :=
| Returned (result : bool)
| Broke
| Caught (cause : Thrown).

(** [while (true) { body }]: [None] when the fuel runs out before the loop
    is left. *)
Fixpoint while_true (body : M (S:=S) (R:=R) Flow) (fuel : nat)
  : M (S:=S) (R:=R) (option Completion) :=
  match fuel with
  | 0 => ret None
  | Datatypes.S fuel' =>
      let! flow := body in
      match flow with
      | Next => while_true body fuel'
      | Return result => ret (Some (Returned result))
      | Break => ret (Some Broke)
      end
  end.

(** [async _startRead () { try { ...; while (true) body } catch (err)
    { return this.emit('error', err) } }] *)
Definition startRead_with (body : M (S:=S) (R:=R) Flow) (fuel : nat)
  : M (S:=S) (R:=R) (option Completion) :=
  try_catch
    (exec! set_stopped false in
     exec! emit Emit_restarted in
     while_true body fuel)
    (λ err, exec! emit (Emit_error err) in ret (Some (Caught err))).

(** [_read (size) { if (this._stopped) { this._startRead() } }].  The
    result is the stream once the call of [_startRead] has completed;
    [None] when the fuel does not suffice for that. *)
Definition read_with (body : M (S:=S) (R:=R) Flow) (fuel : nat)
  (st : Stream S R) : option (Stream S R) :=
  if _stopped st then
    match startRead_with body fuel st with
    | (Ok (Some _), st') => Some st'
    | _ => None
    end
  else Some st.
End Shared.

(** ** [src/index.ts] *)

Module Index.
Section Index.
Context {S R : Type} `{!S3Client S, !ReadableBase R}.

(** [constructor (s3, bucket, bucketPrefix = '', listObjectsV2args = {})] *)
Definition constructor (s3 : S) (bucket : string)
  (bucketPrefix : option string) (listObjectsV2args : option Obj)
  : Stream S R :=
  {| _s3 := s3;
     readable := Readable_new {[ "objectMode" := VBool true ]};
     _bucket := bucket;
     _bucketPrefix := default "" bucketPrefix;
     _fullMetadata := VUndefined;
     _listObjectsV2args :=
       assign defaultListObjectsV2Options (default ∅ listObjectsV2args);
     _lastResponse := JUndefined;
     _currentIndex := None;
     _stopped := true;
     events := [] |}.

(** lines 84-87: [this._lastResponse == null ||
    this._currentIndex >= this._lastResponse.Contents.length] *)
Definition page_exhausted : M (S:=S) (R:=R) bool :=
  let! st := this in
  match _lastResponse st with
  | JVal r =>
      let! len := length_of (Contents r) in
      ret (js_ge (_currentIndex st) len)
  | _ => ret true
  end.

(** lines 88: [this._lastResponse != null &&
    !this._lastResponse.IsTruncated] *)
Definition is_last_page (st : Stream S R) : bool :=
  match _lastResponse st with
  | JVal r => negb (truthy (IsTruncated r))
  | _ => false
  end.

(** lines 94-98 *)
Fixpoint emit_prefixes (items : list (Js CommonPrefix))
  : M (S:=S) (R:=R) unit :=
  match items with
  | [] => ret tt
  | JVal item :: rest =>
      exec! emit (Emit_prefix (Prefix item)) in
      emit_prefixes rest
  | item :: _ => throw (TypeError (nullish_value item) (Named "Prefix"))
  end.

Definition announce_prefixes : M (S:=S) (R:=R) unit :=
  let! st := this in
  match _lastResponse st with
  | JVal r =>
      match CommonPrefixes r with
      | JVal items => emit_prefixes items
      | _ => ret tt
      end
  | last => throw (TypeError (nullish_value last) (Named "CommonPrefixes"))
  end.

(** lines 101-107: [chunkToPush != null && !this.push(chunkToPush)] *)
Definition push_entry : M (S:=S) (R:=R) Flow :=
  let! chunkToPush := read_entry in
  match chunkToPush with
  | JVal o =>
      let! more := call_push (ChunkObject o) in
      if more then ret Next
      else
        exec! set_stopped true in
        exec! emit Emit_stopped in
        ret Break
  | _ => ret Next
  end.

(** lines 84-107: one turn of the loop. *)
Definition loop_body : M (S:=S) (R:=R) Flow :=
  let! exhausted := page_exhausted in
  let! over :=
    (if exhausted then
       let! st := this in
       if is_last_page st then
         let! result := call_push EOF in
         ret (Some result)
       else
         exec! _loadNextPage in
         exec! announce_prefixes in
         ret None
     else ret None) in
  match over with
  | Some result => ret (Return result)
  | None => push_entry
  end.

Definition _startRead := startRead_with loop_body.
Definition _read := read_with loop_body.
End Index.
End Index.

(** ** The revision with the [fullMetadata] option ([part_000]) *)

Module Part000.
Section Part000.
Context {S R : Type} `{!S3Client S, !ReadableBase R}.

Definition defaultOptions : Obj := {[ "fullMetadata" := VBool false ]}.

(** lines 45-50: the object handed to [super]. *)
Definition mergedOptions (options : option Obj) : Obj :=
  let merged := assign defaultOptions (default ∅ options) in
  if truthy (get_prop merged "fullMetadata")
  then <["objectMode" := VBool true]> merged
  else merged.

(** [constructor (s3, bucket, bucketPrefix = '', options = {},
    listObjectsV2args = {})] *)
Definition constructor (s3 : S) (bucket : string)
  (bucketPrefix : option string) (options : option Obj)
  (listObjectsV2args : option Obj) : Stream S R :=
  {| _s3 := s3;
     readable := Readable_new (mergedOptions options);
     _bucket := bucket;
     _bucketPrefix := default "" bucketPrefix;
     _fullMetadata := get_prop (mergedOptions options) "fullMetadata";
     _listObjectsV2args :=
       assign defaultListObjectsV2Options (default ∅ listObjectsV2args);
     _lastResponse := JUndefined;
     _currentIndex := None;
     _stopped := true;
     events := [] |}.

(** lines 102-105: [typeof this._lastResponse === 'undefined' ||
    this._currentIndex >= this._lastResponse.Contents.length] *)
Definition page_exhausted : M (S:=S) (R:=R) bool :=
  let! st := this in
  match _lastResponse st with
  | JUndefined => ret true
  | JNull => throw (TypeError VNull (Named "Contents"))
  | JVal r =>
      let! len := length_of (Contents r) in
      ret (js_ge (_currentIndex st) len)
  end.

(** line 106: [this._lastResponse && !this._lastResponse.IsTruncated] *)
Definition is_last_page (st : Stream S R) : bool :=
  match _lastResponse st with
  | JVal r => negb (truthy (IsTruncated r))
  | _ => false
  end.

(** line 114: [this._fullMetadata ? metadata : metadata.Key] *)
Definition chunk_for (fullMetadata : Value) (metadata : Js S3Object)
  : M (S:=S) (R:=R) Chunk :=
  if truthy fullMetadata then ret (chunk_of metadata)
  else
    match metadata with
    | JVal o => ret (ChunkValue (Key o))
    | _ => throw (TypeError (nullish_value metadata) (Named "Key"))
    end.

(** lines 113-120 *)
Definition push_entry : M (S:=S) (R:=R) Flow :=
  let! metadata := read_entry in
  let! st := this in
  let! chunkToPush := chunk_for (_fullMetadata st) metadata in
  let! more := call_push chunkToPush in
  if more then ret Next
  else
    exec! set_stopped true in
    exec! emit Emit_stopped in
    ret Break.

(** lines 102-120: one turn of the loop. *)
Definition loop_body : M (S:=S) (R:=R) Flow :=
  let! exhausted := page_exhausted in
  let! over :=
    (if exhausted then
       let! st := this in
       if is_last_page st then
         let! result := call_push EOF in
         ret (Some result)
       else
         exec! _loadNextPage in
         ret None
     else ret None) in
  match over with
  | Some result => ret (Return result)
  | None => push_entry
  end.

Definition _startRead := startRead_with loop_body.
Definition _read := read_with loop_body.
End Part000.
End Part000.

(** ** The collaborators of the test file ([part_001]) *)

(** [class MockS3]: replays a list of pages, or always fails. *)
Record MockS3 := {
  _mockedPages : list ListObjectsV2Output;
  _currentPage : nat;
  _shouldFail : bool;
  receivedParams : list Obj
}.

(** [new MockS3(mockedPages, shouldFail = false)] *)
Definition MockS3_new (mockedPages : list ListObjectsV2Output)
  (shouldFail : bool) : MockS3 :=
  {| _mockedPages := mockedPages; _currentPage := 0;
     _shouldFail := shouldFail; receivedParams := [] |}.

#[export] Instance MockS3_client : S3Client MockS3 := {|
  listObjectsV2 params s :=
    if _shouldFail s then
      ((JVal {| message := "some error" |}, JNull),
       {| _mockedPages := _mockedPages s; _currentPage := _currentPage s;
          _shouldFail := _shouldFail s;
          receivedParams := receivedParams s ++ [params] |})
    else
      ((JNull,
        match _mockedPages s !! _currentPage s with
        | Some page => JVal page
        | None => JUndefined
        end),
       {| _mockedPages := _mockedPages s;
          _currentPage := Datatypes.S (_currentPage s);
          _shouldFail := _shouldFail s;
          receivedParams := receivedParams s ++ [params] |})
|}.

(** The decimal numeral of [n], for the keys of the mocked pages. *)
Definition digit (n : nat) : string :=
  String (Ascii.ascii_of_nat (48 + n `mod` 10)) "".

Fixpoint decimal_aux (fuel n : nat) (acc : string) : string :=
  match fuel with
  | 0 => acc
  | Datatypes.S fuel' =>
      let acc' := digit n +:+ acc in
      if n `div` 10 =? 0 then acc' else decimal_aux fuel' (n `div` 10) acc'
  end.

Definition decimal (n : nat) : string := decimal_aux (Datatypes.S n) n "".

(** JavaScript numbers are doubles.  The item numbers of the mocked pages
    are natural numbers here, which is what the code computes as long as
    every number it forms ([i + startCount], [(i + startCount) * 100] and
    [numItems + startCount]) is an integer that a double holds exactly and
    prints digit by digit, that is up to [2^53]: [exact_numbers count]
    says so of [count] and of every item number below it.  Beyond that
    range the code rounds, and [createItem] and [createPage] are not its
    embedding any more; what is proved of them for numbers that are not
    fixed carries this bound. *)
Definition exact_numbers (count : nat) : Prop :=
  (Z.of_nat count * 100 ≤ 2 ^ 53)%Z.

(** [createPage(numItems, startCount = 0, last = false)] and the items it
    pushes on the page (item number [n] is [i + startCount]), for numbers
    within [exact_numbers]. *)
Definition createItem (n : nat) : S3Object :=
  {| Key := VStr (decimal n +:+ ".jpg");
     LastModified := VStr "2019-02-19T19:35:20.892Z";
     ETag := VStr ("etag-" +:+ decimal n);
     Size := VNum (Z.of_nat n * 100);
     StorageClass := VStr "STANDARD" |}.

Definition createPage (numItems startCount : nat) (last : bool)
  : ListObjectsV2Output :=
  {| Contents := JVal ((λ n, JVal (createItem n)) <$> seq startCount numItems);
     IsTruncated := VBool (negb last);
     NextContinuationToken :=
       if last then VUndefined
       else VStr ("token-" +:+ decimal (numItems + startCount));
     CommonPrefixes := JUndefined |}.

(** The reader of the pause test: its patched [push] counts the calls and
    answers [pushes > 1], so that only the first chunk asks for a pause. *)
Record Reader := { received : list Chunk; pushes : nat }.

#[export] Instance Reader_base : ReadableBase Reader := {|
  Readable_new _ := {| received := []; pushes := 0 |};
  push chunk r :=
    (bool_decide (1 < Datatypes.S (pushes r)),
     {| received := received r ++ [chunk];
        pushes := Datatypes.S (pushes r) |})
|}.

(** A reader that never asks for a pause. *)
Record Greedy := { taken : list Chunk }.

#[export] Instance Greedy_base : ReadableBase Greedy := {|
  Readable_new _ := {| taken := [] |};
  push chunk r := (true, {| taken := taken r ++ [chunk] |})
|}.

(** * Properties *)

(** ** Reading the event log *)

Definition is_push (ev : Event) : option Chunk :=
  match ev with Call_push c => Some c | _ => None end.

Definition is_request (ev : Event) : option Obj :=
  match ev with Call_listObjectsV2 p => Some p | _ => None end.

Definition is_page (ev : Event) : option (Js ListObjectsV2Output) :=
  match ev with Emit_page _ d => Some d | _ => None end.

Definition is_prefix (ev : Event) : option Value :=
  match ev with Emit_prefix p => Some p | _ => None end.

Definition is_error (ev : Event) : option Thrown :=
  match ev with Emit_error e => Some e | _ => None end.

(** The chunks handed to the reader, the requests sent, the pages received,
    the prefixes announced and the errors reported, each in order. *)
Definition pushed (evs : list Event) : list Chunk := omap is_push evs.
Definition requests (evs : list Event) : list Obj := omap is_request evs.
Definition pages (evs : list Event) : list (Js ListObjectsV2Output) :=
  omap is_page evs.
Definition prefixes (evs : list Event) : list Value := omap is_prefix evs.
Definition errors (evs : list Event) : list Thrown := omap is_error evs.

(** Successive pulls: [_read] called once per element of [fuels]. *)
Fixpoint pulls {St : Type} (read : nat → St → option St) (fuels : list nat)
  (st : St) : option St :=
  match fuels with
  | [] => Some st
  | fuel :: rest =>
      match read fuel st with
      | Some st' => pulls read rest st'
      | None => None
      end
  end.

(** The page has no entry left for the cursor. *)
Definition exhausted {S R} (st : Stream S R) : bool :=
  match _lastResponse st with
  | JVal r =>
      match Contents r with
      | JVal l => js_ge (_currentIndex st) (length l)
      | _ => false
      end
  | _ => false
  end.

(** A response is held, the cursor has exhausted its items and it is not
    marked truncated. *)
Definition at_end {S R} (st : Stream S R) : bool :=
  match _lastResponse st with
  | JVal r => exhausted st && negb (truthy (IsTruncated r))
  | _ => false
  end.

(** The next turn of the loop starts with a fetch: nothing is held yet, or
    the held page is exhausted and marked truncated. *)
Definition must_fetch {S R} (st : Stream S R) : bool :=
  match _lastResponse st with
  | JVal r => exhausted st && truthy (IsTruncated r)
  | JUndefined => true
  | JNull => false
  end.

(** The request the next fetch would send. *)
Definition next_params {S R} (st : Stream S R) : Obj :=
  assign (_listObjectsV2args st) (currentParams st).

(** The stream after a successful fetch of [data], before anything else. *)
Definition loaded {S R} (st : Stream S R) (s' : S)
  (data : Js ListObjectsV2Output) : Stream S R :=
  {| _s3 := s'; readable := readable st; _bucket := _bucket st;
     _bucketPrefix := _bucketPrefix st; _fullMetadata := _fullMetadata st;
     _listObjectsV2args := _listObjectsV2args st;
     _lastResponse := data; _currentIndex := Some 0;
     _stopped := _stopped st;
     events := events st ++ [Call_listObjectsV2 (next_params st);
                             Emit_page (next_params st) data] |}.

(** The stream after the cursor has moved past an entry, after a chunk has
    been handed to the reader, and after the loop has been left on a full
    buffer; whether the reader takes a chunk without asking for a pause. *)
Definition advance {S R} (st : Stream S R) : Stream S R :=
  {| _s3 := _s3 st; readable := readable st; _bucket := _bucket st;
     _bucketPrefix := _bucketPrefix st; _fullMetadata := _fullMetadata st;
     _listObjectsV2args := _listObjectsV2args st;
     _lastResponse := _lastResponse st;
     _currentIndex := Nat.succ <$> _currentIndex st;
     _stopped := _stopped st; events := events st |}.

Definition accepts {S R} `{!ReadableBase R} (c : Chunk) (st : Stream S R)
  : bool := (push c (readable st)).1.

Definition deliver {S R} `{!ReadableBase R} (c : Chunk) (st : Stream S R)
  : Stream S R :=
  {| _s3 := _s3 st; readable := (push c (readable st)).2;
     _bucket := _bucket st; _bucketPrefix := _bucketPrefix st;
     _fullMetadata := _fullMetadata st;
     _listObjectsV2args := _listObjectsV2args st;
     _lastResponse := _lastResponse st; _currentIndex := _currentIndex st;
     _stopped := _stopped st; events := events st ++ [Call_push c] |}.

Definition pause {S R} (st : Stream S R) : Stream S R :=
  {| _s3 := _s3 st; readable := readable st; _bucket := _bucket st;
     _bucketPrefix := _bucketPrefix st; _fullMetadata := _fullMetadata st;
     _listObjectsV2args := _listObjectsV2args st;
     _lastResponse := _lastResponse st; _currentIndex := _currentIndex st;
     _stopped := true; events := events st ++ [Emit_stopped] |}.

(** The stream as a pull finds it once it has entered [_startRead]. *)
Definition restart {S R} (st : Stream S R) : Stream S R :=
  {| _s3 := _s3 st; readable := readable st; _bucket := _bucket st;
     _bucketPrefix := _bucketPrefix st; _fullMetadata := _fullMetadata st;
     _listObjectsV2args := _listObjectsV2args st;
     _lastResponse := _lastResponse st; _currentIndex := _currentIndex st;
     _stopped := false; events := events st ++ [Emit_restarted] |}.

(** The stream after the [catch] clause has reported [cause]. *)
Definition report {S R} (cause : Thrown) (st : Stream S R) : Stream S R :=
  {| _s3 := _s3 st; readable := readable st; _bucket := _bucket st;
     _bucketPrefix := _bucketPrefix st; _fullMetadata := _fullMetadata st;
     _listObjectsV2args := _listObjectsV2args st;
     _lastResponse := _lastResponse st; _currentIndex := _currentIndex st;
     _stopped := _stopped st; events := events st ++ [Emit_error cause] |}.

(** The entry under the cursor of the held page ([undefined] outside the
    sequence). *)
Definition entry_at (l : list (Js S3Object)) (i : option nat) : Js S3Object :=
  match i with
  | Some n => default JUndefined (l !! n)
  | None => JUndefined
  end.
Arguments entry_at : simpl never.

(** What a turn does with the entry it has read, the cursor being past it
    already: a chunk is handed to the reader, who takes it or asks for a
    pause. *)
Definition hand_over {S R} `{!ReadableBase R} (c : Chunk) (st : Stream S R)
  : Res Flow * Stream S R :=
  if accepts c st then (Ok Next, deliver c st)
  else (Ok Break, pause (deliver c st)).

(** [src/index.ts] 101-107 on the entry [e]. *)
Definition Index_entry_outcome {S R} `{!ReadableBase R} (e : Js S3Object)
  (st : Stream S R) : Res Flow * Stream S R :=
  match e with
  | JVal o => hand_over (ChunkObject o) st
  | _ => (Ok Next, st)
  end.

(** [part_000] 113-120 on the entry [e], in the mode [fullMetadata]. *)
Definition Part000_entry_outcome {S R} `{!ReadableBase R}
  (fullMetadata : Value) (e : Js S3Object) (st : Stream S R)
  : Res Flow * Stream S R :=
  if truthy fullMetadata then hand_over (chunk_of e) st
  else
    match e with
    | JVal o => hand_over (ChunkValue (Key o)) st
    | _ => (Throw (TypeError (nullish_value e) (Named "Key")), st)
    end.

(** The stream after a fetch that the provider answered with an error. *)
Definition refused {S R} (st : Stream S R) (s' : S) : Stream S R :=
  {| _s3 := s'; readable := readable st; _bucket := _bucket st;
     _bucketPrefix := _bucketPrefix st; _fullMetadata := _fullMetadata st;
     _listObjectsV2args := _listObjectsV2args st;
     _lastResponse := _lastResponse st; _currentIndex := _currentIndex st;
     _stopped := _stopped st;
     events := events st ++ [Call_listObjectsV2 (next_params st)] |}.

(** Events that are neither a request, nor a page, nor an error report. *)
Definition is_local (ev : Event) : bool :=
  match ev with
  | Call_listObjectsV2 _ | Emit_page _ _ | Emit_error _ => false
  | _ => true
  end.

(** [st'] comes from [st] without any exchange with the provider: the
    configuration, the provider and the held response are the same, and the
    log has grown by local events only. *)
Record quiet {S R} (st st' : Stream S R) : Prop := {
  quiet_s3 : _s3 st' = _s3 st;
  quiet_bucket : _bucket st' = _bucket st;
  quiet_bucketPrefix : _bucketPrefix st' = _bucketPrefix st;
  quiet_fullMetadata : _fullMetadata st' = _fullMetadata st;
  quiet_args : _listObjectsV2args st' = _listObjectsV2args st;
  quiet_lastResponse : _lastResponse st' = _lastResponse st;
  quiet_events :
    ∃ new, events st' = events st ++ new ∧ forallb is_local new = true
}.

(** The [_stopped] flag after a turn that started with the flag [before]:
    only leaving the loop on a full buffer sets it. *)
Definition stopped_after (res : Res Flow) (before : bool) : bool :=
  match res with
  | Ok Break => true
  | _ => before
  end.

(** The three shapes of a turn of the loop: no exchange with the provider;
    a fetch answered with an error, which ends the turn; a fetch answered
    with [data], after which the turn goes on without the provider (and
    cannot complete unless [data] is an object). *)
Inductive turn_shape {S R} `{!S3Client S} (st : Stream S R)
  (res : Res Flow) (st' : Stream S R) : Prop :=
| shape_quiet :
    quiet st st' → turn_shape st res st'
| shape_refused e data s' :
    listObjectsV2 (next_params st) (_s3 st) = ((JVal e, data), s') →
    res = Throw (ThrownError e) → st' = refused st s' →
    turn_shape st res st'
| shape_loaded err data s' :
    listObjectsV2 (next_params st) (_s3 st) = ((err, data), s') →
    not_nullish err = false →
    quiet (loaded st s' data) st' →
    (∀ flow, res = Ok flow → not_nullish data = true) →
    turn_shape st res st'.

(** The stream [fuel] turns of the loop into a call of [_read], whether or
    not [_startRead] has completed by then. *)
Definition progress {S R} `{!S3Client S, !ReadableBase R}
  (body : M (S:=S) (R:=R) Flow) (fuel : nat) (st : Stream S R) : Stream S R :=
  if _stopped st then (startRead_with body fuel st).2 else st.

(** Pagination chaining: the first request carries no continuation token
    and request [i+1] carries the next-token of response [i]. *)
Definition chained (rq : list Obj) (pg : list (Js ListObjectsV2Output))
  : Prop :=
  ∀ i p, rq !! i = Some p →
    match i with
    | 0 => p !! "ContinuationToken" = Some VUndefined
    | Datatypes.S j =>
        ∃ r, pg !! j = Some (JVal r)
             ∧ p !! "ContinuationToken" = Some (NextContinuationToken r)
    end.

(** Every request so far has been answered, and the stream holds the last
    answer, an object. *)
Definition settled {S R} (st : Stream S R) : Prop :=
  length (requests (events st)) = length (pages (events st))
  ∧ match last (pages (events st)) with
    | None => _lastResponse st = JUndefined
    | Some data => _lastResponse st = data ∧ not_nullish data = true
    end.

(** What every stream reached by pulls satisfies: the chain holds, and a
    stream waiting for a pull is settled. *)
Definition chain_invariant {S R} (st : Stream S R) : Prop :=
  chained (requests (events st)) (pages (events st))
  ∧ (_stopped st = true → settled st).

(** What remains of a call of [_startRead] when the loop is at the head of
    a turn. *)
Definition startRead_from {S R} `{!S3Client S, !ReadableBase R}
  (body : M (S:=S) (R:=R) Flow) (fuel : nat)
  : M (S:=S) (R:=R) (option Completion) :=
  try_catch (while_true body fuel)
    (λ err, exec! emit (Emit_error err) in ret (Some (Caught err))).

(** The stream with [new] appended to its log. *)
Definition logged {S R} (new : list Event) (st : Stream S R) : Stream S R :=
  {| _s3 := _s3 st; readable := readable st; _bucket := _bucket st;
     _bucketPrefix := _bucketPrefix st; _fullMetadata := _fullMetadata st;
     _listObjectsV2args := _listObjectsV2args st;
     _lastResponse := _lastResponse st; _currentIndex := _currentIndex st;
     _stopped := _stopped st; events := events st ++ new |}.

(** The notifications for the groupings [gs]. *)
Definition prefix_events (gs : list CommonPrefix) : list Event :=
  (λ g, Emit_prefix (Prefix g)) <$> gs.

(** The groupings of a response, when it has some and none is nullish. *)
Definition groupings (r : ListObjectsV2Output) : option (list CommonPrefix) :=
  match CommonPrefixes r with
  | JVal items =>
      mapM (λ item, match item with JVal g => Some g | _ => None end) items
  | _ => Some []
  end.

(** The fields set by the constructor and never assigned again. *)
Definition config {S R} (st : Stream S R) : string * string * Value * Obj :=
  (_bucket st, _bucketPrefix st, _fullMetadata st, _listObjectsV2args st).

(** The chunk [part_000] makes of an item, by mode. *)
Definition Part000_chunk (fullMetadata : Value) (o : S3Object) : Chunk :=
  if truthy fullMetadata then ChunkObject o else ChunkValue (Key o).

(** ** Providers that serve a given list of pages *)

(** The request sent by a stream of configuration [cfg] that holds a response
    whose next-token is [token]. *)
Definition request_with (cfg : string * string * Value * Obj) (token : Value)
  : Obj :=
  assign cfg.2
    {[ "Bucket" := VStr cfg.1.1.1;
       "Prefix" := VStr cfg.1.1.2;
       "ContinuationToken" := token ]}.

(** How the listing ends: with a page that is not marked truncated, or with
    an error of the provider. *)
Inductive Ending :=
| Final
| Fails (e : Error).

(** Asked with the requests of the stream, the provider in state [s]
    answers with the pages [pgs], one per request and without error; when
    the listing is to fail, it answers the request after them with the
    error.  Nothing is asked of its answers to other requests. *)
Fixpoint serves {S} `{!S3Client S} (request : Value → Obj) (ending : Ending)
  (s : S) (token : Value) (pgs : list ListObjectsV2Output) : Prop :=
  match pgs with
  | pg :: rest =>
      ∃ err s', listObjectsV2 (request token) s = ((err, JVal pg), s')
                ∧ not_nullish err = false
                ∧ serves request ending s' (NextContinuationToken pg) rest
  | [] =>
      match ending with
      | Final => True
      | Fails e =>
          ∃ data s', listObjectsV2 (request token) s = ((JVal e, data), s')
      end
  end.

(** The page [pg], followed by the pages [rest], carries the truncation
    flag the listing calls for: down on the last page of a listing that
    ends, up everywhere else. *)
Definition flagged (ending : Ending) (pg : ListObjectsV2Output)
  (rest : list ListObjectsV2Output) : Prop :=
  truthy (IsTruncated pg)
  = match rest, ending with
    | [], Final => false
    | _, _ => true
    end.

Fixpoint flags (ending : Ending) (pgs : list ListObjectsV2Output) : Prop :=
  match pgs with
  | [] => True
  | pg :: rest => flagged ending pg rest ∧ flags ending rest
  end.

(** The item sequence of a page, and the items among its entries. *)
Definition entries (pg : ListObjectsV2Output) : list (Js S3Object) :=
  match Contents pg with
  | JVal l => l
  | _ => []
  end.

Definition objects (l : list (Js S3Object)) : list S3Object :=
  omap (λ e, match e with JVal o => Some o | _ => None end) l.

(** A page as the API types it: an item sequence, and groupings (if any)
    that are objects. *)
Definition well_formed (pg : ListObjectsV2Output) : Prop :=
  not_nullish (Contents pg) = true ∧ is_Some (groupings pg).

(** A page of at least one entry, all of them objects. *)
Definition populated (pg : ListObjectsV2Output) : Prop :=
  ∃ items, Contents pg = JVal (JVal <$> items) ∧ items ≠ [].

(** A listing as the proofs follow it: the configuration of the stream, how
    the listing ends, the chunks the reader is to be handed in all and the
    number of pages; and, by revision, the chunk made of an item and what
    is asked of the pages and of their entries. *)
Record Listing := {
  the_config : string * string * Value * Obj;
  the_ending : Ending;
  the_total : list Chunk;
  the_pages : nat;
  as_chunk : S3Object → Chunk;
  page_ok : ListObjectsV2Output → Prop;
  entry_ok : Js S3Object → Prop
}.

(** [src/index.ts] pushes the records, of any page with an item sequence,
    whatever its entries. *)
Definition Index_listing_of (cfg : string * string * Value * Obj)
  (ending : Ending) (total : list Chunk) (n : nat) : Listing :=
  {| the_config := cfg; the_ending := ending; the_total := total;
     the_pages := n; as_chunk := ChunkObject; page_ok := well_formed;
     entry_ok := λ _, True |}.

(** [part_000] pushes keys or records, by the mode of its configuration;
    the proofs follow it through populated pages only. *)
Definition Part000_listing_of (cfg : string * string * Value * Obj)
  (ending : Ending) (total : list Chunk) (n : nat) : Listing :=
  {| the_config := cfg; the_ending := ending; the_total := total;
     the_pages := n; as_chunk := Part000_chunk cfg.1.2; page_ok := populated;
     entry_ok := λ e, not_nullish e = true |}.

(** The chunks still to be pushed when the entries [todo] of the held page
    and the pages [rest] are left. *)
Definition remaining (mk : S3Object → Chunk) (todo : list (Js S3Object))
  (rest : list ListObjectsV2Output) : list Chunk :=
  mk <$> objects (todo ++ concat (entries <$> rest)).

(** A bound on the turns of the loop still to come. *)
Definition turns_left (todo : list (Js S3Object))
  (rest : list ListObjectsV2Output) : nat :=
  length todo + sum_list ((λ pg, Datatypes.S (length (entries pg))) <$> rest)
  + 1.

(** Where a stream stands in the listing [L]: the entries [todo] are left on
    the held page, the pages [rest] are still to come. *)
Record position {S R} `{!S3Client S} (L : Listing)
    (st : Stream S R) (todo : list (Js S3Object))
    (rest : list ListObjectsV2Output) : Prop := {
  pos_config : config st = the_config L;
  pos_cursor :
    match _lastResponse st with
    | JUndefined => todo = [] ∧ (rest ≠ [] ∨ the_ending L ≠ Final)
    | JNull => False
    | JVal cur =>
        ∃ l i, Contents cur = JVal l ∧ _currentIndex st = Some i
               ∧ todo = drop i l ∧ flagged (the_ending L) cur rest
    end;
  pos_serves :
    serves (request_with (the_config L)) (the_ending L) (_s3 st)
      (continuationToken (_lastResponse st)) rest;
  pos_flags : flags (the_ending L) rest;
  pos_todo : Forall (entry_ok L) todo;
  pos_rest : Forall (page_ok L) rest;
  pos_pushed :
    pushed (events st) ++ remaining (as_chunk L) todo rest = the_total L;
  pos_requests : length (requests (events st)) + length rest = the_pages L;
  pos_errors : errors (events st) = []
}.

(** What a turn of the loop makes of a stream that stands somewhere in the
    listing; [M] and [K] bound the turns and the chunks that were left
    before the turn. *)
Inductive turn_outcome {S R} `{!S3Client S} (L : Listing) (M K : nat)
  : Res Flow → Stream S R → Prop :=
| outcome_next st' todo' rest' :
    position L st' todo' rest' →
    turns_left todo' rest' < M →
    length (remaining (as_chunk L) todo' rest') ≤ K →
    turn_outcome L M K (Ok Next) st'
| outcome_break st' todo' rest' :
    position L st' todo' rest' →
    turns_left todo' rest' < M →
    length (remaining (as_chunk L) todo' rest') < K →
    turn_outcome L M K (Ok Break) st'
| outcome_return result st' :
    the_ending L = Final →
    pushed (events st') = the_total L ++ [EOF] →
    length (requests (events st')) = the_pages L →
    errors (events st') = [] →
    turn_outcome L M K (Ok (Return result)) st'
| outcome_throw e st' :
    the_ending L = Fails e →
    pushed (events st') = the_total L →
    length (requests (events st')) = Datatypes.S (the_pages L) →
    errors (events st') = [] →
    turn_outcome L M K (Throw (ThrownError e)) st'.

(** What a call of [_startRead] makes of it: a pause further down the
    listing, the end of the stream after all the chunks, or the error of
    the provider after all the chunks. *)
Inductive run_outcome {S R} `{!S3Client S} (L : Listing) (M K : nat)
  : Res (option Completion) → Stream S R → Prop :=
| run_paused st' todo' rest' :
    position L st' todo' rest' →
    _stopped st' = true →
    turns_left todo' rest' < M →
    length (remaining (as_chunk L) todo' rest') < K →
    run_outcome L M K (Ok (Some Broke)) st'
| run_ended result st' :
    the_ending L = Final →
    pushed (events st') = the_total L ++ [EOF] →
    length (requests (events st')) = the_pages L →
    errors (events st') = [] →
    _stopped st' = false →
    run_outcome L M K (Ok (Some (Returned result))) st'
| run_failed e st' :
    the_ending L = Fails e →
    pushed (events st') = the_total L →
    length (requests (events st')) = Datatypes.S (the_pages L) →
    errors (events st') = [ThrownError e] →
    _stopped st' = false →
    run_outcome L M K (Ok (Some (Caught (ThrownError e)))) st'.

(** The listing is over: every chunk was pushed, [_stopped] is down, and
    the log ends as the listing does. *)
Definition listed {S R} (ending : Ending) (total : list Chunk) (n : nat)
  (st : Stream S R) : Prop :=
  _stopped st = false
  ∧ match ending with
    | Final =>
        pushed (events st) = total ++ [EOF]
        ∧ length (requests (events st)) = n
        ∧ errors (events st) = []
    | Fails e =>
        pushed (events st) = total
        ∧ length (requests (events st)) = Datatypes.S n
        ∧ errors (events st) = [ThrownError e]
    end.

(** A provider that answers from a script, one answer per call, and with
    nothing once the script is over. *)
Record Scripted := {
  script : list (Js Error * Js ListObjectsV2Output);
  calls : list Obj
}.

#[export] Instance Scripted_client : S3Client Scripted := {|
  listObjectsV2 params s :=
    (match script s with
     | answer :: _ => answer
     | [] => (JNull, JUndefined)
     end,
     {| script := tail (script s); calls := calls s ++ [params] |})
|}.

(** ** Concrete streams *)

(** The scenario of the tests: three pages of two items, the third one
    final, listed with a page size of two. *)
Definition three_pages : list ListObjectsV2Output :=
  [createPage 2 0 false; createPage 2 2 false; createPage 2 4 true].

Definition test_stream : Stream MockS3 Reader :=
  Index.constructor (MockS3_new three_pages false) "some-bucket"
    (Some "/some/prefix") (Some {[ "MaxKeys" := VNum 2 ]}).

Definition test_stream_keys : Stream MockS3 Reader :=
  Part000.constructor (MockS3_new three_pages false) "some-bucket"
    (Some "/some/prefix") None
    (Some {[ "MaxKeys" := VNum 2; "ContinuationToken" := VStr "stale" ]}).

(** The same stream after two pulls (the reader of the pause test asks for
    one pause). *)
Definition test_stream_keys_done : Stream MockS3 Reader :=
  default test_stream_keys (pulls Part000._read [9; 9] test_stream_keys).

(** The stream of the failure test: the provider refuses every call. *)
Definition failing_stream : Stream MockS3 Reader :=
  Index.constructor (MockS3_new [] true) "some-bucket"
    (Some "/some/prefix") None.

(** A response without an item sequence, and the two streams that receive
    it from their first fetch (taken at the head of the first turn). *)
Definition page_without_contents : ListObjectsV2Output :=
  {| Contents := JUndefined; IsTruncated := VBool false;
     NextContinuationToken := VUndefined; CommonPrefixes := JUndefined |}.

Definition stream_without_contents : Stream MockS3 Greedy :=
  restart (Index.constructor (MockS3_new [page_without_contents] false)
             "some-bucket" None None).

Definition stream_without_contents_keys : Stream MockS3 Greedy :=
  restart (Part000.constructor (MockS3_new [page_without_contents] false)
             "some-bucket" None None None).

(** An empty bucket: one final page with no item, listed by both
    revisions. *)
Definition empty_bucket : Stream MockS3 Greedy :=
  Index.constructor (MockS3_new [createPage 0 0 true] false)
    "some-bucket" None None.

Definition empty_bucket_keys : Stream MockS3 Greedy :=
  Part000.constructor (MockS3_new [createPage 0 0 true] false)
    "some-bucket" None None None.

Definition empty_bucket_records : Stream MockS3 Greedy :=
  Part000.constructor (MockS3_new [createPage 0 0 true] false)
    "some-bucket" None (Some {[ "fullMetadata" := VBool true ]}) None.

(** A first page without items (as when a delimiter groups every key of
    the page) followed by a final page of one item. *)
Definition empty_then_one : list ListObjectsV2Output :=
  [createPage 0 0 false; createPage 1 0 true].

(** The same two pages listed by the two revisions. *)
Definition after_empty_page : Stream MockS3 Greedy :=
  Index.constructor (MockS3_new empty_then_one false) "some-bucket" None None.

Definition after_empty_page_keys : Stream MockS3 Greedy :=
  Part000.constructor (MockS3_new empty_then_one false) "some-bucket"
    None None None.

(** A provider that serves one page without items, marked truncated, and
    then fails; the two revisions in front of it, [part_000] in full
    metadata mode. *)
Definition empty_then_error : Scripted :=
  {| script := [(JNull, JVal (createPage 0 0 false));
                (JVal {| message := "some error" |}, JNull)];
     calls := [] |}.

Definition failing_after_empty_page : Stream Scripted Greedy :=
  Index.constructor empty_then_error "some-bucket" None None.

Definition failing_after_empty_page_records : Stream Scripted Greedy :=
  Part000.constructor empty_then_error "some-bucket" None
    (Some {[ "fullMetadata" := VBool true ]}) None.

(** What a listing has shown once the pulls are over: the chunks pushed,
    the errors reported and the number of requests sent. *)
Definition observed {S R} (st : option (Stream S R))
  : option (list Chunk * list Thrown * nat) :=
  (λ st, (pushed (events st), errors (events st),
          length (requests (events st)))) <$> st.

(** The stream of the tests between the answer to its first request and
    the first push. *)
Definition first_page_held : Stream MockS3 Reader :=
  (_loadNextPage (restart test_stream)).2.

(** The empty bucket of [src/index.ts] after the turn that fetched its only
    page. *)
Definition empty_page_held : Stream MockS3 Greedy :=
  (Index.loop_body (restart empty_bucket)).2.

(** A page with two groupings and one item, as a listing with a delimiter
    returns them, and a stream about to fetch it. *)
Definition page_with_prefixes : ListObjectsV2Output :=
  {| Contents := JVal [JVal (createItem 0)];
     IsTruncated := VBool false;
     NextContinuationToken := VUndefined;
     CommonPrefixes :=
       JVal [JVal {| Prefix := VStr "a/" |}; JVal {| Prefix := VStr "b/" |}] |}.

Definition delimited_stream : Stream MockS3 Greedy :=
  restart (Index.constructor (MockS3_new [page_with_prefixes] false)
             "some-bucket" None (Some {[ "Delimiter" := VStr "/" ]})).

Ltac unfold_monad :=
  unfold bind, ret, throw, this, emit, log, set_stopped, set_currentIndex,
    set_lastResponse, call_push, call_listObjectsV2, try_catch, length_of
    in *.


(** ** The exchange with the provider, over a whole run *)

(** The requests of a stream of configuration [cfg]: the caller's
    arguments over the defaults, under the pagination fields, for some
    continuation token. *)
Definition requests_of (cfg : string * string * Value * Obj)
  (rq : list Obj) : Prop :=
  Forall (λ p, ∃ token, p = request_with cfg token) rq.

(** The stream has the configuration [cfg], and [P] relates the provider
    to the requests it has been sent. *)
Definition asked {S R} (cfg : string * string * Value * Obj)
  (P : S → list Obj → Prop) (st : Stream S R) : Prop :=
  config st = cfg ∧ P (_s3 st) (requests (events st)).

(** The books of the mock provider after the requests [rq]: it has kept
    them all, in order, after those it held before; its pages and its
    failure switch are as they were built; its page counter has moved once
    per request, unless it is a failing mock. *)
Definition MockS3_books (before : MockS3) (s : MockS3) (rq : list Obj)
  : Prop :=
  receivedParams s = receivedParams before ++ rq
  ∧ _mockedPages s = _mockedPages before
  ∧ _shouldFail s = _shouldFail before
  ∧ _currentPage s
    = if _shouldFail before then _currentPage before
      else _currentPage before + length rq.

(** ** The buckets of the tests *)

(** The pages of a mocked bucket as the tests build them with
    [createPage]: page after page of the given sizes, each one numbering
    its items from where the previous one stopped, and only the last one
    built with [last = true]. *)
Fixpoint consecutive_pages (sizes : list nat) (startCount : nat)
  : list ListObjectsV2Output :=
  match sizes with
  | [] => []
  | numItems :: rest =>
      createPage numItems startCount
        match rest with [] => true | _ => false end
      :: consecutive_pages rest (startCount + numItems)
  end.

(** What the default mode of [part_000] hands over where [src/index.ts]
    hands over the chunk [c]: the key of a record; the end-of-stream mark
    is the same. *)
Definition key_of (c : Chunk) : Chunk :=
  match c with
  | ChunkObject o => ChunkValue (Key o)
  | ChunkValue v => ChunkValue v
  end.

(** ** The log of a run, event by event *)

(** The chunks [src/index.ts] makes of entries: records only. *)
Definition is_record (c : Chunk) : Prop := ∃ o, c = ChunkObject o.

(** [part_000] may make any chunk of an entry. *)
Definition any_chunk (c : Chunk) : Prop := True.

(** What the lines that read the entry under the cursor ([src/index.ts]
    101-107, [part_000] 113-120) add to the log, by the way they leave
    the turn: nothing when the entry is skipped, the push of a chunk the
    reader takes, the push of a chunk the reader refuses followed by
    'stopped', nothing when a property read throws. *)
Inductive entry_log (allowed : Chunk → Prop) : Res Flow → list Event → Prop :=
| entry_skipped : entry_log allowed (Ok Next) []
| entry_taken c : allowed c → entry_log allowed (Ok Next) [Call_push c]
| entry_refused c :
    allowed c → entry_log allowed (Ok Break) [Call_push c; Emit_stopped]
| entry_threw base prop : entry_log allowed (Throw (TypeError base prop)) [].

(** What one turn of the loop adds to the log: the end-of-stream mark
    alone when the turn returns; the request alone when the provider
    refuses it; otherwise, after the request, the 'page' notification and
    the 'prefix' notifications when the turn starts with a fetch, what the
    entry under the cursor gives. *)
Inductive turn_log (allowed : Chunk → Prop) : Res Flow → list Event → Prop :=
| turn_ended result : turn_log allowed (Ok (Return result)) [Call_push EOF]
| turn_refused params e :
    turn_log allowed (Throw (ThrownError e)) [Call_listObjectsV2 params]
| turn_held res tail : entry_log allowed res tail → turn_log allowed res tail
| turn_fetched params data announced res tail :
    Forall (λ ev, ∃ prefix, ev = Emit_prefix prefix) announced →
    entry_log allowed res tail →
    turn_log allowed res
      (Call_listObjectsV2 params :: Emit_page params data
       :: announced ++ tail).

(** What the loop and the [catch] clause of [_startRead] add to the log,
    by the way the call completes ([None]: it has not completed yet). *)
Inductive run_log (allowed : Chunk → Prop)
  : option Completion → list Event → Prop :=
| run_unfinished : run_log allowed None []
| run_next new rest c :
    turn_log allowed (Ok Next) new → run_log allowed c rest →
    run_log allowed c (new ++ rest)
| run_returned result new :
    turn_log allowed (Ok (Return result)) new →
    run_log allowed (Some (Returned result)) new
| run_broke new :
    turn_log allowed (Ok Break) new → run_log allowed (Some Broke) new
| run_caught e new :
    turn_log allowed (Throw e) new →
    run_log allowed (Some (Caught e)) (new ++ [Emit_error e]).

(** The log of a stream since its construction, by the way its last call
    of [_startRead] went: a stream that was never pulled stands like one
    that was paused, and only a paused stream starts a new call, with
    'restarted'. *)
Inductive pulls_log (allowed : Chunk → Prop)
  : option Completion → list Event → Prop :=
| log_fresh : pulls_log allowed (Some Broke) []
| log_pull evs new c :
    pulls_log allowed (Some Broke) evs → run_log allowed c new →
    pulls_log allowed c (evs ++ Emit_restarted :: new).

(** The [_stopped] flag that goes with the way the last call went. *)
Definition flag_after (c : option Completion) : bool :=
  match c with
  | Some Broke => true
  | _ => false
  end.

(** The 'restarted' and 'stopped' notifications of a log, in order. *)
Definition is_signal (ev : Event) : option Event :=
  match ev with
  | Emit_restarted | Emit_stopped => Some ev
  | _ => None
  end.

Definition signals (evs : list Event) : list Event := omap is_signal evs.

(** The request parameters carried by the 'page' notifications of a log,
    in order. *)
Definition is_page_params (ev : Event) : option Obj :=
  match ev with Emit_page params _ => Some params | _ => None end.

Definition page_params (evs : list Event) : list Obj :=
  omap is_page_params evs.

(** ** What reaches the base stream *)

(** The base stream after the chunks [cs] have been pushed to it, in
    order. *)
Definition after_pushes {R} `{!ReadableBase R} (r : R) (cs : list Chunk) : R :=
  foldl (λ r c, (push c r).2) r cs.

(** How a turn of the loop deals with the base stream: it pushes nothing
    and leaves it alone (and then neither pauses nor returns); or it
    pushes one chunk made of an entry, and goes on or leaves the loop by
    the answer of [push]; or it pushes the end-of-stream mark and
    returns. *)
Inductive turn_delivery {S R} `{!ReadableBase R} (st : Stream S R)
  (res : Res Flow) (st' : Stream S R) : Prop :=
| delivery_none :
    pushed (events st') = pushed (events st) →
    readable st' = readable st →
    res ≠ Ok Break → (∀ result, res ≠ Ok (Return result)) →
    turn_delivery st res st'
| delivery_entry c :
    pushed (events st') = pushed (events st) ++ [c] →
    readable st' = (push c (readable st)).2 →
    res = (if (push c (readable st)).1 then Ok Next else Ok Break) →
    turn_delivery st res st'
| delivery_end result :
    pushed (events st') = pushed (events st) ++ [EOF] →
    readable st' = (push EOF (readable st)).2 →
    res = Ok (Return result) →
    turn_delivery st res st'.

(** ** More concrete streams *)

(** A reader that asks for a pause at every push. *)
Record Busy := { handed : list Chunk }.

#[export] Instance Busy_base : ReadableBase Busy := {|
  Readable_new _ := {| handed := [] |};
  push chunk r := (false, {| handed := handed r ++ [chunk] |})
|}.

(** The streams of the tests after their pulls. *)
Definition test_stream_done : Stream MockS3 Reader :=
  default test_stream (pulls Index._read [9; 9] test_stream).

Definition failing_stream_done : Stream MockS3 Reader :=
  default failing_stream (pulls Index._read [1] failing_stream).

(** A provider that serves one page of one item, marked truncated, and
    then fails, in front of [part_000]. *)
Definition one_then_error : Scripted :=
  {| script := [(JNull, JVal (createPage 1 0 false));
                (JVal {| message := "some error" |}, JNull)];
     calls := [] |}.

Definition failing_after_one_item : Stream Scripted Greedy :=
  Part000.constructor one_then_error "some-bucket" None None None.

(** A page marked truncated that carries no next-token, a bucket that
    starts with it, and the stream of [src/index.ts] after one pull on
    that bucket. *)
Definition page_without_token : ListObjectsV2Output :=
  {| Contents := JVal [JVal (createItem 0)];
     IsTruncated := VBool true;
     NextContinuationToken := VUndefined;
     CommonPrefixes := JUndefined |}.

Definition restarting_stream : Stream MockS3 Greedy :=
  Index.constructor (MockS3_new [page_without_token; createPage 1 1 true] false)
    "some-bucket" None None.

Definition restarting_stream_done : Stream MockS3 Greedy :=
  default restarting_stream (pulls Index._read [5] restarting_stream).

(** A mock without pages, which answers its first call with neither error
    nor data, and a stream about to call it. *)
Definition drained_stream : Stream MockS3 Greedy :=
  restart (Index.constructor (MockS3_new [] false) "some-bucket" None None).

(** The page with groupings in front of [part_000]. *)
Definition delimited_stream_keys : Stream MockS3 Greedy :=
  Part000.constructor (MockS3_new [page_with_prefixes] false) "some-bucket"
    None None (Some {[ "Delimiter" := VStr "/" ]}).

Definition delimited_stream_keys_done : Stream MockS3 Greedy :=
  default delimited_stream_keys
    (pulls Part000._read [5] delimited_stream_keys).

(** The bucket of the tests in front of the two revisions, with a reader
    that never asks for a pause and with one that always does. *)
Definition eager_stream : Stream MockS3 Greedy :=
  Index.constructor (MockS3_new three_pages false) "some-bucket"
    (Some "/some/prefix") None.

Definition eager_stream_keys : Stream MockS3 Greedy :=
  Part000.constructor (MockS3_new three_pages false) "some-bucket"
    (Some "/some/prefix") None None.

Definition busy_stream : Stream MockS3 Busy :=
  Index.constructor (MockS3_new three_pages false) "some-bucket"
    (Some "/some/prefix") None.

(** The groupings announced by lines 94-98 of [src/index.ts] for the list
    [items], and the exception that ends the announcements when one of the
    items is nullish. *)
Fixpoint announced_groupings (items : list (Js CommonPrefix))
  : list CommonPrefix * option Thrown :=
  match items with
  | [] => ([], None)
  | JVal g :: rest =>
      let '(gs, failure) := announced_groupings rest in (g :: gs, failure)
  | item :: _ => ([], Some (TypeError (nullish_value item) (Named "Prefix")))
  end.

Definition announcements (r : ListObjectsV2Output)
  : list CommonPrefix * option Thrown :=
  match CommonPrefixes r with
  | JVal items => announced_groupings items
  | _ => ([], None)
  end.

(** A response without an item sequence whose list of groupings holds a
    [null], and the stream of [src/index.ts] about to fetch it. *)
Definition page_with_null_grouping : ListObjectsV2Output :=
  {| Contents := JUndefined; IsTruncated := VBool false;
     NextContinuationToken := VUndefined; CommonPrefixes := JVal [JNull] |}.

Definition stream_with_null_grouping : Stream MockS3 Greedy :=
  restart (Index.constructor (MockS3_new [page_with_null_grouping] false)
             "some-bucket" None None).

(** A final page whose first entry is [null] and whose second entry is an
    item, in front of the two revisions, [part_000] in full metadata
    mode. *)
Definition page_with_null_entry : ListObjectsV2Output :=
  {| Contents := JVal [JNull; JVal (createItem 1)];
     IsTruncated := VBool false;
     NextContinuationToken := VUndefined;
     CommonPrefixes := JUndefined |}.

Definition null_entry_stream : Stream MockS3 Greedy :=
  Index.constructor (MockS3_new [page_with_null_entry] false) "some-bucket"
    None None.

Definition null_entry_stream_records : Stream MockS3 Greedy :=
  Part000.constructor (MockS3_new [page_with_null_entry] false) "some-bucket"
    None (Some {[ "fullMetadata" := VBool true ]}) None.

(** The same, in front of a reader that answers every push with a request
    to pause (as the base class does after the end-of-stream mark). *)
Definition null_entry_stream_refused : Stream MockS3 Busy :=
  Part000.constructor (MockS3_new [page_with_null_entry] false) "some-bucket"
    None (Some {[ "fullMetadata" := VBool true ]}) None.
Lemma stream_eta {S R} (st : Stream S R) :
  {| _s3 := _s3 st; readable := readable st; _bucket := _bucket st;
     _bucketPrefix := _bucketPrefix st; _fullMetadata := _fullMetadata st;
     _listObjectsV2args := _listObjectsV2args st;
     _lastResponse := _lastResponse st; _currentIndex := _currentIndex st;
     _stopped := _stopped st; events := events st |} = st.
Proof. by destruct st. Qed.

Section LogFacts.
Lemma pushed_app evs evs' : pushed (evs ++ evs') = pushed evs ++ pushed evs'.
Proof. apply omap_app. Qed.

Lemma requests_app evs evs' :
  requests (evs ++ evs') = requests evs ++ requests evs'.
Proof. apply omap_app. Qed.

Lemma pages_app evs evs' : pages (evs ++ evs') = pages evs ++ pages evs'.
Proof. apply omap_app. Qed.

Lemma prefixes_app evs evs' :
  prefixes (evs ++ evs') = prefixes evs ++ prefixes evs'.
Proof. apply omap_app. Qed.

Lemma errors_app evs evs' : errors (evs ++ evs') = errors evs ++ errors evs'.
Proof. apply omap_app. Qed.

End LogFacts.

(** ** The fetch *)

Section LoadFacts.
Context {S R : Type} `{!S3Client S, !ReadableBase R}.
Implicit Types st : Stream S R.

(** A fetch that the provider answers without error holds the answer,
    rewinds the cursor and reports the page. *)
Lemma loadNextPage_ok st err data s' :
  listObjectsV2 (next_params st) (_s3 st) = ((err, data), s') →
  not_nullish err = false →
  _loadNextPage st = (Ok tt, loaded st s' data).
Proof.
  intros Hcall Herr. unfold _loadNextPage, next_params in *. unfold_monad.
  rewrite Hcall. destruct err; [| |done]; simpl; unfold loaded, next_params;
    by rewrite <- !(assoc_L (++)).
Qed.

(** A fetch that the provider answers with an error rejects with that
    error; the held response and the cursor are not touched. *)
Lemma loadNextPage_error st e data s' :
  listObjectsV2 (next_params st) (_s3 st) = ((JVal e, data), s') →
  _loadNextPage st = (Throw (ThrownError e), refused st s').
Proof.
  intros Hcall. unfold _loadNextPage, next_params in *. unfold_monad.
  by rewrite Hcall.
Qed.

(** The two outcomes of a fetch, by the provider's answer. *)
Lemma loadNextPage_run st :
  _loadNextPage st =
    match listObjectsV2 (next_params st) (_s3 st) with
    | ((JVal e, _), s') => (Throw (ThrownError e), refused st s')
    | ((_, data), s') => (Ok tt, loaded st s' data)
    end.
Proof.
  destruct (listObjectsV2 (next_params st) (_s3 st)) as [[err data] s']
    eqn:Hcall.
  destruct err as [| |e].
  - by apply (loadNextPage_ok st JUndefined).
  - by apply (loadNextPage_ok st JNull).
  - by apply (loadNextPage_error st e data).
Qed.
End LoadFacts.

(** ** Construction ([part_000] 44-53) *)

Section Construction.
Context {S R : Type} `{!S3Client S, !ReadableBase R}.

(** The merged [fullMetadata] is the caller's when given, [false]
    otherwise. *)
Lemma merged_fullMetadata (options : Obj) :
  get_prop (assign Part000.defaultOptions options) "fullMetadata"
  = default (VBool false) (options !! "fullMetadata").
Proof.
  unfold get_prop, assign, Part000.defaultOptions.
  rewrite lookup_union.
  destruct (options !! "fullMetadata") as [v|] eqn:Hfm; simpl.
  - by rewrite lookup_singleton_eq.
  - by rewrite lookup_singleton_eq.
Qed.

(** Merging with the defaults leaves the caller's [objectMode] alone. *)
Lemma merged_objectMode (options : Obj) :
  assign Part000.defaultOptions options !! "objectMode"
  = options !! "objectMode".
Proof.
  unfold assign, Part000.defaultOptions. rewrite lookup_union.
  rewrite lookup_singleton_ne by done.
  by destruct (options !! "objectMode").
Qed.

(** The mode kept by the stream is the one the caller asked for. *)
Lemma merged_mode (options : option Obj) :
  get_prop (Part000.mergedOptions options) "fullMetadata"
  = default (VBool false) (default ∅ options !! "fullMetadata").
Proof.
  unfold Part000.mergedOptions.
  pose proof (merged_fullMetadata (default ∅ options)) as Hmode.
  destruct (truthy (get_prop (assign Part000.defaultOptions
                                (default ∅ options)) "fullMetadata"));
    [|exact Hmode].
  unfold get_prop. rewrite lookup_insert_ne by done. exact Hmode.
Qed.

(** C9. When the caller asks for full metadata, the options handed to the
    base class have [objectMode = true] whatever the caller put there;
    otherwise the caller's [objectMode] (present or absent) reaches the
    base class as it is.  The base class is built from exactly these
    options and the mode kept by the stream is the requested one. *)
Theorem objectMode_forced_by_fullMetadata
    (s3 : S) (bucket : string) (bucketPrefix : option string)
    (options : option Obj) (listObjectsV2args : option Obj) :
  let given := default ∅ options in
  let requested := default (VBool false) (given !! "fullMetadata") in
  let st : Stream S R :=
    Part000.constructor s3 bucket bucketPrefix options listObjectsV2args in
  Part000.mergedOptions options !! "objectMode"
    = (if truthy requested then Some (VBool true)
       else given !! "objectMode")
  ∧ readable st = Readable_new (Part000.mergedOptions options)
  ∧ _fullMetadata st = requested.
Proof.
  intros given requested st. subst st. simpl.
  split; [|split; [done|apply merged_mode]].
  unfold Part000.mergedOptions. fold given.
  rewrite merged_fullMetadata. fold requested.
  destruct (truthy requested) eqn:Hmode.
  - by rewrite lookup_insert_eq.
  - apply merged_objectMode.
Qed.

(** A caller's [objectMode: false] next to [fullMetadata: true]. *)
Example objectMode_false_is_overridden :
  Part000.mergedOptions
    (Some {[ "fullMetadata" := VBool true; "objectMode" := VBool false ]})
    !! "objectMode" = Some (VBool true).
Proof. by vm_compute. Qed.

(** Without [fullMetadata] a caller's [objectMode: false] stays. *)
Example objectMode_false_is_kept :
  Part000.mergedOptions (Some {[ "objectMode" := VBool false ]})
    !! "objectMode" = Some (VBool false)
  ∧ Part000.mergedOptions None !! "objectMode" = None.
Proof. by vm_compute. Qed.
End Construction.

(** ** Reading the entry under the cursor (shared) *)

Section EntryFacts.
Context {S R : Type} `{!S3Client S, !ReadableBase R}.
Implicit Types st : Stream S R.

Lemma read_entry_held st r l :
  _lastResponse st = JVal r → Contents r = JVal l →
  read_entry st = (Ok (entry_at l (_currentIndex st)), advance st).
Proof.
  intros Hlast Hcont. unfold read_entry. unfold_monad.
  rewrite Hlast, Hcont. unfold entry_at, advance.
  by destruct (_currentIndex st).
Qed.

(** Indexing an absent item sequence throws, after the increment. *)
Lemma read_entry_absent st r :
  _lastResponse st = JVal r → not_nullish (Contents r) = false →
  read_entry st =
    (Throw (TypeError (nullish_value (Contents r))
              (Indexed (_currentIndex st))),
     advance st).
Proof.
  intros Hlast Hcont. unfold read_entry. unfold_monad.
  rewrite Hlast. by destruct (Contents r).
Qed.

Lemma read_entry_nothing_held st :
  not_nullish (_lastResponse st) = false →
  read_entry st =
    (Throw (TypeError (nullish_value (_lastResponse st))
              (Named "Contents")), st).
Proof.
  intros Hlast. unfold read_entry. unfold_monad.
  by destruct (_lastResponse st).
Qed.

Lemma call_push_run (c : Chunk) st :
  call_push c st = (Ok (accepts c st), deliver c st).
Proof.
  unfold call_push, accepts, deliver. by destruct (push c (readable st)).
Qed.

Lemma entry_at_lookup (l : list (Js S3Object)) (i : nat) (e : Js S3Object) :
  l !! i = Some e → entry_at l (Some i) = e.
Proof. intros Hi. unfold entry_at. by rewrite Hi. Qed.

End EntryFacts.

(** ** One turn of the loop of [src/index.ts] *)

Section IndexTurn.
Context {S R : Type} `{!S3Client S, !ReadableBase R}.
Implicit Types st : Stream S R.

Lemma Index_push_entry_held st r l :
  _lastResponse st = JVal r → Contents r = JVal l →
  Index.push_entry st
  = Index_entry_outcome (entry_at l (_currentIndex st)) (advance st).
Proof.
  intros Hlast Hcont. unfold Index.push_entry, bind.
  rewrite (read_entry_held st r l Hlast Hcont).
  unfold Index_entry_outcome, hand_over.
  destruct (entry_at l (_currentIndex st)) as [| |o]; [done..|].
  rewrite call_push_run.
  destruct (accepts (ChunkObject o) (advance st)); [done|].
  unfold_monad. unfold pause. simpl. by rewrite <- (assoc_L (++)).
Qed.

Lemma Index_page_exhausted_held st r l :
  _lastResponse st = JVal r → Contents r = JVal l →
  Index.page_exhausted st = (Ok (exhausted st), st).
Proof.
  intros Hlast Hcont. unfold Index.page_exhausted, exhausted. unfold_monad.
  by rewrite Hlast, Hcont.
Qed.

(** An entry is left on the held page: it is read, no fetch happens. *)
Lemma Index_turn_entry st r l :
  _lastResponse st = JVal r → Contents r = JVal l → exhausted st = false →
  Index.loop_body st
  = Index_entry_outcome (entry_at l (_currentIndex st)) (advance st).
Proof.
  intros Hlast Hcont Hex. unfold Index.loop_body, bind at 1 2 3.
  rewrite (Index_page_exhausted_held st r l Hlast Hcont), Hex.
  unfold ret at 1. by apply (Index_push_entry_held st r l).
Qed.

(** The held page is exhausted and final: the stream is ended. *)
Lemma Index_turn_end st :
  at_end st = true →
  Index.loop_body st = (Ok (Return (accepts EOF st)), deliver EOF st).
Proof.
  unfold at_end. intros Hend.
  destruct (_lastResponse st) as [| |r] eqn:Hlast; [done..|].
  apply andb_true_iff in Hend as [Hex Hlastpage].
  assert (∃ l, Contents r = JVal l) as [l Hcont].
  { unfold exhausted in Hex. rewrite Hlast in Hex.
    destruct (Contents r); [done..|by eexists]. }
  unfold Index.loop_body, bind at 1 2 3.
  rewrite (Index_page_exhausted_held st r l Hlast Hcont), Hex.
  unfold this at 1. unfold bind at 1. unfold Index.is_last_page.
  rewrite Hlast, Hlastpage. unfold bind. rewrite call_push_run. done.
Qed.

Lemma Index_head_fetch st :
  must_fetch st = true →
  Index.page_exhausted st = (Ok true, st) ∧ Index.is_last_page st = false.
Proof.
  unfold must_fetch, exhausted, Index.page_exhausted, Index.is_last_page.
  unfold_monad. intros Hfetch.
  destruct (_lastResponse st) as [| |r]; [done..|].
  destruct (Contents r) as [| |l]; [done..|]. simpl.
  apply andb_true_iff in Hfetch as [-> ->]. done.
Qed.

(** A turn that starts with a fetch answered without error: the prefixes
    of the new page are announced, then its first entry is read. *)
Lemma Index_turn_fetch st err data s' :
  must_fetch st = true →
  listObjectsV2 (next_params st) (_s3 st) = ((err, data), s') →
  not_nullish err = false →
  Index.loop_body st
  = (exec! Index.announce_prefixes in Index.push_entry) (loaded st s' data).
Proof.
  intros Hfetch Hcall Herr.
  unfold Index.loop_body.
  destruct (Index_head_fetch st Hfetch) as [Hpe Hlp].
  unfold bind at 1 2 3. rewrite Hpe. unfold this at 1. unfold bind at 1.
  rewrite Hlp. unfold bind at 1 2.
  rewrite (loadNextPage_ok st err data s' Hcall Herr).
  unfold bind. destruct (Index.announce_prefixes (loaded st s' data)) as [[[]|e] st1];
    done.
Qed.

(** A turn that starts with a fetch answered with an error. *)
Lemma Index_turn_fetch_error st e data s' :
  must_fetch st = true →
  listObjectsV2 (next_params st) (_s3 st) = ((JVal e, data), s') →
  Index.loop_body st = (Throw (ThrownError e), refused st s').
Proof.
  intros Hfetch Hcall.
  unfold Index.loop_body.
  destruct (Index_head_fetch st Hfetch) as [Hpe Hlp].
  unfold bind at 1 2 3. rewrite Hpe. unfold this at 1. unfold bind at 1.
  rewrite Hlp. unfold bind at 1 2.
  by rewrite (loadNextPage_error st e data s' Hcall).
Qed.
End IndexTurn.

(** ** One turn of the loop of [part_000] *)

Section Part000Turn.
Context {S R : Type} `{!S3Client S, !ReadableBase R}.
Implicit Types st : Stream S R.

Lemma hand_over_run (c : Chunk) st :
  (let! more := call_push c in
   if more then ret Next
   else exec! set_stopped true in exec! emit Emit_stopped in ret Break) st
  = hand_over c st.
Proof.
  unfold bind at 1. rewrite call_push_run. unfold hand_over.
  destruct (accepts c st); [done|].
  unfold_monad. unfold pause. simpl. by rewrite <- (assoc_L (++)).
Qed.

Lemma Part000_push_entry_held st r l :
  _lastResponse st = JVal r → Contents r = JVal l →
  Part000.push_entry st
  = Part000_entry_outcome (_fullMetadata st)
      (entry_at l (_currentIndex st)) (advance st).
Proof.
  intros Hlast Hcont. unfold Part000.push_entry, bind at 1.
  rewrite (read_entry_held st r l Hlast Hcont).
  unfold this at 1. unfold bind at 1. unfold bind at 1.
  unfold Part000_entry_outcome, Part000.chunk_for. simpl.
  destruct (truthy (_fullMetadata st)).
  - unfold ret at 1. apply hand_over_run.
  - destruct (entry_at l (_currentIndex st)) as [| |o]; [done..|].
    unfold ret at 1. apply hand_over_run.
Qed.

Lemma Part000_page_exhausted_held st r l :
  _lastResponse st = JVal r → Contents r = JVal l →
  Part000.page_exhausted st = (Ok (exhausted st), st).
Proof.
  intros Hlast Hcont. unfold Part000.page_exhausted, exhausted.
  unfold_monad. by rewrite Hlast, Hcont.
Qed.

Lemma Part000_turn_entry st r l :
  _lastResponse st = JVal r → Contents r = JVal l → exhausted st = false →
  Part000.loop_body st
  = Part000_entry_outcome (_fullMetadata st)
      (entry_at l (_currentIndex st)) (advance st).
Proof.
  intros Hlast Hcont Hex. unfold Part000.loop_body, bind at 1 2 3.
  rewrite (Part000_page_exhausted_held st r l Hlast Hcont), Hex.
  unfold ret at 1. by apply (Part000_push_entry_held st r l).
Qed.

Lemma Part000_turn_end st :
  at_end st = true →
  Part000.loop_body st = (Ok (Return (accepts EOF st)), deliver EOF st).
Proof.
  unfold at_end. intros Hend.
  destruct (_lastResponse st) as [| |r] eqn:Hlast; [done..|].
  apply andb_true_iff in Hend as [Hex Hlastpage].
  assert (∃ l, Contents r = JVal l) as [l Hcont].
  { unfold exhausted in Hex. rewrite Hlast in Hex.
    destruct (Contents r); [done..|by eexists]. }
  unfold Part000.loop_body, bind at 1 2 3.
  rewrite (Part000_page_exhausted_held st r l Hlast Hcont), Hex.
  unfold this at 1. unfold bind at 1. unfold Part000.is_last_page.
  rewrite Hlast, Hlastpage. unfold bind. rewrite call_push_run. done.
Qed.

Lemma Part000_head_fetch st :
  must_fetch st = true →
  Part000.page_exhausted st = (Ok true, st)
  ∧ Part000.is_last_page st = false.
Proof.
  unfold must_fetch, exhausted, Part000.page_exhausted,
    Part000.is_last_page.
  unfold_monad. intros Hfetch.
  destruct (_lastResponse st) as [| |r]; [done..|].
  destruct (Contents r) as [| |l]; [done..|]. simpl.
  apply andb_true_iff in Hfetch as [-> ->]. done.
Qed.

Lemma Part000_turn_fetch st err data s' :
  must_fetch st = true →
  listObjectsV2 (next_params st) (_s3 st) = ((err, data), s') →
  not_nullish err = false →
  Part000.loop_body st = Part000.push_entry (loaded st s' data).
Proof.
  intros Hfetch Hcall Herr.
  destruct (Part000_head_fetch st Hfetch) as [Hpe Hlp].
  unfold Part000.loop_body.
  unfold bind at 1 2 3. rewrite Hpe. unfold this at 1. unfold bind at 1.
  rewrite Hlp. unfold bind at 1.
  by rewrite (loadNextPage_ok st err data s' Hcall Herr).
Qed.

Lemma Part000_turn_fetch_error st e data s' :
  must_fetch st = true →
  listObjectsV2 (next_params st) (_s3 st) = ((JVal e, data), s') →
  Part000.loop_body st = (Throw (ThrownError e), refused st s').
Proof.
  intros Hfetch Hcall.
  destruct (Part000_head_fetch st Hfetch) as [Hpe Hlp].
  unfold Part000.loop_body.
  unfold bind at 1 2 3. rewrite Hpe. unfold this at 1. unfold bind at 1.
  rewrite Hlp. unfold bind at 1.
  by rewrite (loadNextPage_error st e data s' Hcall).
Qed.
End Part000Turn.

(** ** Steps that do not involve the provider *)

Section Quiet.
Context {S R : Type} `{!S3Client S, !ReadableBase R}.
Implicit Types st : Stream S R.

Lemma quiet_refl st : quiet st st.
Proof.
  split; try done. exists []. by rewrite (right_id_L [] (++)).
Qed.

Lemma quiet_trans st1 st2 st3 : quiet st1 st2 → quiet st2 st3 → quiet st1 st3.
Proof.
  intros [? ? ? ? ? ? (new1 & Hev1 & Hloc1)] [? ? ? ? ? ? (new2 & Hev2 & Hloc2)].
  split; try congruence.
  exists (new1 ++ new2). split.
  - by rewrite Hev2, Hev1, (assoc_L (++)).
  - rewrite forallb_app. by rewrite Hloc1, Hloc2.
Qed.

(** Same fields but for the cursor, the flag, the reader and a local
    growth of the log. *)
Lemma quiet_intro st st' new :
  _s3 st' = _s3 st → _bucket st' = _bucket st →
  _bucketPrefix st' = _bucketPrefix st →
  _fullMetadata st' = _fullMetadata st →
  _listObjectsV2args st' = _listObjectsV2args st →
  _lastResponse st' = _lastResponse st →
  events st' = events st ++ new → forallb is_local new = true →
  quiet st st'.
Proof. intros. split; eauto. Qed.

Lemma quiet_advance st : quiet st (advance st).
Proof. apply (quiet_intro _ _ []); try done. simpl. by rewrite app_nil_r. Qed.

Lemma quiet_deliver c st : quiet st (deliver c st).
Proof. by apply (quiet_intro _ _ [Call_push c]). Qed.

Lemma quiet_pause st : quiet st (pause st).
Proof. by apply (quiet_intro _ _ [Emit_stopped]). Qed.

Lemma quiet_restart st : quiet st (restart st).
Proof. by apply (quiet_intro _ _ [Emit_restarted]). Qed.

Lemma quiet_hand_over c st : quiet st (hand_over c st).2.
Proof.
  unfold hand_over. destruct (accepts c st); simpl.
  - apply quiet_deliver.
  - eapply quiet_trans; [apply quiet_deliver | apply quiet_pause].
Qed.

Lemma hand_over_stopped c st :
  _stopped (hand_over c st).2
  = stopped_after (hand_over c st).1 (_stopped st).
Proof. unfold hand_over. by destruct (accepts c st). Qed.

Lemma hand_over_flow c st :
  (hand_over c st).1 = Ok Next ∨ (hand_over c st).1 = Ok Break.
Proof. unfold hand_over. destruct (accepts c st); simpl; auto. Qed.

(** The first [Some] of a local log. *)
Lemma local_requests new : forallb is_local new = true → requests new = [].
Proof.
  induction new as [|[] new IH]; simpl; try done; intros Hloc; by apply IH.
Qed.

Lemma local_pages new : forallb is_local new = true → pages new = [].
Proof.
  induction new as [|[] new IH]; simpl; try done; intros Hloc; by apply IH.
Qed.

Lemma local_errors new : forallb is_local new = true → errors new = [].
Proof.
  induction new as [|[] new IH]; simpl; try done; intros Hloc; by apply IH.
Qed.

Lemma quiet_requests st st' :
  quiet st st' → requests (events st') = requests (events st).
Proof.
  intros [_ _ _ _ _ _ (new & -> & Hloc)].
  by rewrite requests_app, (local_requests new Hloc), app_nil_r.
Qed.

Lemma quiet_pages st st' :
  quiet st st' → pages (events st') = pages (events st).
Proof.
  intros [_ _ _ _ _ _ (new & -> & Hloc)].
  by rewrite pages_app, (local_pages new Hloc), app_nil_r.
Qed.

Lemma quiet_errors st st' :
  quiet st st' → errors (events st') = errors (events st).
Proof.
  intros [_ _ _ _ _ _ (new & -> & Hloc)].
  by rewrite errors_app, (local_errors new Hloc), app_nil_r.
Qed.

End Quiet.

(** ** Every path through a turn of [src/index.ts] *)

Section IndexPaths.
Context {S R : Type} `{!S3Client S, !ReadableBase R}.
Implicit Types st : Stream S R.

Lemma Index_push_entry_run st :
  Index.push_entry st =
    match _lastResponse st with
    | JVal r =>
        match Contents r with
        | JVal l =>
            Index_entry_outcome (entry_at l (_currentIndex st)) (advance st)
        | c => (Throw (TypeError (nullish_value c)
                         (Indexed (_currentIndex st))), advance st)
        end
    | last => (Throw (TypeError (nullish_value last) (Named "Contents")), st)
    end.
Proof.
  destruct (_lastResponse st) as [| |r] eqn:Hlast.
  - unfold Index.push_entry, bind.
    rewrite read_entry_nothing_held by (by rewrite Hlast). by rewrite Hlast.
  - unfold Index.push_entry, bind.
    rewrite read_entry_nothing_held by (by rewrite Hlast). by rewrite Hlast.
  - destruct (Contents r) as [| |l] eqn:Hcont.
    + unfold Index.push_entry, bind.
      rewrite (read_entry_absent st r Hlast) by (by rewrite Hcont).
      by rewrite Hcont.
    + unfold Index.push_entry, bind.
      rewrite (read_entry_absent st r Hlast) by (by rewrite Hcont).
      by rewrite Hcont.
    + by apply (Index_push_entry_held st r l).
Qed.

Lemma Index_entry_outcome_quiet e st : quiet st (Index_entry_outcome e st).2.
Proof.
  destruct e; simpl; try apply quiet_refl. apply quiet_hand_over.
Qed.

Lemma Index_entry_outcome_stopped e st :
  _stopped (Index_entry_outcome e st).2
  = stopped_after (Index_entry_outcome e st).1 (_stopped st).
Proof. destruct e; simpl; try done. apply hand_over_stopped. Qed.

Lemma Index_entry_outcome_flow e st :
  (Index_entry_outcome e st).1 = Ok Next
  ∨ (Index_entry_outcome e st).1 = Ok Break.
Proof. destruct e; simpl; auto. apply hand_over_flow. Qed.

Lemma Index_push_entry_quiet st : quiet st (Index.push_entry st).2.
Proof.
  rewrite Index_push_entry_run.
  destruct (_lastResponse st) as [| |r]; simpl; try apply quiet_refl.
  destruct (Contents r) as [| |l]; simpl; try apply quiet_advance.
  eapply quiet_trans; [apply quiet_advance|apply Index_entry_outcome_quiet].
Qed.

Lemma Index_push_entry_stopped st :
  _stopped (Index.push_entry st).2
  = stopped_after (Index.push_entry st).1 (_stopped st).
Proof.
  rewrite Index_push_entry_run.
  destruct (_lastResponse st) as [| |r]; simpl; try done.
  destruct (Contents r) as [| |l]; simpl; try done.
  by rewrite Index_entry_outcome_stopped.
Qed.

(** Lines 101-107 never leave the loop through [return]. *)
Lemma Index_push_entry_flow st :
  (∃ e, (Index.push_entry st).1 = Throw e)
  ∨ (Index.push_entry st).1 = Ok Next
  ∨ (Index.push_entry st).1 = Ok Break.
Proof.
  rewrite Index_push_entry_run.
  destruct (_lastResponse st) as [| |r]; simpl; eauto.
  destruct (Contents r) as [| |l]; simpl; eauto.
  right. apply Index_entry_outcome_flow.
Qed.

(** The announcements of lines 94-98: one event per grouping up to the
    first nullish one, at which the loop throws. *)
Lemma emit_prefixes_quiet items st :
  quiet st (Index.emit_prefixes items st).2
  ∧ _stopped (Index.emit_prefixes items st).2 = _stopped st
  ∧ _currentIndex (Index.emit_prefixes items st).2 = _currentIndex st
  ∧ readable (Index.emit_prefixes items st).2 = readable st.
Proof.
  revert st. induction items as [|[| |item] items IH]; intros st; simpl;
    try (split; [apply quiet_refl|done]).
  unfold bind, emit, log; simpl.
  match goal with |- context [Index.emit_prefixes items ?s] =>
    destruct (IH s) as (Hq & Hs & Hi & Hr) end.
  split; [|by rewrite Hs, Hi, Hr].
  eapply quiet_trans; [|exact Hq].
  by apply (quiet_intro _ _ [Emit_prefix (Prefix item)]).
Qed.

Lemma announce_prefixes_quiet st :
  quiet st (Index.announce_prefixes st).2
  ∧ _stopped (Index.announce_prefixes st).2 = _stopped st
  ∧ _currentIndex (Index.announce_prefixes st).2 = _currentIndex st
  ∧ readable (Index.announce_prefixes st).2 = readable st.
Proof.
  unfold Index.announce_prefixes, bind, this.
  destruct (_lastResponse st) as [| |r]; simpl;
    try (split; [apply quiet_refl|done]).
  destruct (CommonPrefixes r) as [| |items]; simpl;
    try (split; [apply quiet_refl|done]).
  apply emit_prefixes_quiet.
Qed.

Lemma announce_prefixes_ok st :
  (Index.announce_prefixes st).1 = Ok tt → not_nullish (_lastResponse st) = true.
Proof.
  unfold Index.announce_prefixes, bind, this.
  by destruct (_lastResponse st).
Qed.

Lemma Index_page_exhausted_state st : (Index.page_exhausted st).2 = st.
Proof.
  unfold Index.page_exhausted. unfold_monad.
  destruct (_lastResponse st) as [| |r]; try done.
  by destruct (Contents r).
Qed.

(** The turn, path by path. *)
Lemma Index_loop_body_run st :
  Index.loop_body st =
    match (Index.page_exhausted st).1 with
    | Throw e => (Throw e, st)
    | Ok false => Index.push_entry st
    | Ok true =>
        if Index.is_last_page st
        then (Ok (Return (accepts EOF st)), deliver EOF st)
        else
          match listObjectsV2 (next_params st) (_s3 st) with
          | ((JVal e, _), s') => (Throw (ThrownError e), refused st s')
          | ((_, data), s') =>
              (exec! Index.announce_prefixes in Index.push_entry)
                (loaded st s' data)
          end
    end.
Proof.
  pose proof (Index_page_exhausted_state st) as Hst.
  unfold Index.loop_body. unfold bind at 1 2.
  destruct (Index.page_exhausted st) as [[[]|e] st1]; simpl in *; subst st1;
    [| |done].
  - unfold bind at 1. unfold this at 1.
    destruct (Index.is_last_page st).
    + unfold bind. by rewrite call_push_run.
    + unfold bind at 1 2. rewrite loadNextPage_run.
      destruct (listObjectsV2 (next_params st) (_s3 st)) as [[[| |e] data] s'];
        try done.
      * unfold bind.
        by destruct (Index.announce_prefixes (loaded st s' data)) as [[[]|?] ?].
      * unfold bind.
        by destruct (Index.announce_prefixes (loaded st s' data)) as [[[]|?] ?].
  - done.
Qed.
End IndexPaths.

Section IndexShape.
Context {S R : Type} `{!S3Client S, !ReadableBase R}.
Implicit Types st : Stream S R.

Lemma Index_after_load_quiet st :
  quiet st ((exec! Index.announce_prefixes in Index.push_entry) st).2.
Proof.
  unfold bind. destruct (announce_prefixes_quiet st) as (Hq & _).
  destruct (Index.announce_prefixes st) as [[[]|e] st1]; simpl in *; [|done].
  eapply quiet_trans; [exact Hq|apply Index_push_entry_quiet].
Qed.

Lemma Index_after_load_stopped st :
  _stopped ((exec! Index.announce_prefixes in Index.push_entry) st).2
  = stopped_after ((exec! Index.announce_prefixes in Index.push_entry) st).1
      (_stopped st).
Proof.
  unfold bind. destruct (announce_prefixes_quiet st) as (_ & Hs & _).
  destruct (Index.announce_prefixes st) as [[[]|e] st1]; simpl in *; [|done].
  by rewrite Index_push_entry_stopped, Hs.
Qed.

Lemma Index_after_load_flow st :
  (∃ e, ((exec! Index.announce_prefixes in Index.push_entry) st).1 = Throw e)
  ∨ ((exec! Index.announce_prefixes in Index.push_entry) st).1 = Ok Next
  ∨ ((exec! Index.announce_prefixes in Index.push_entry) st).1 = Ok Break.
Proof.
  unfold bind.
  destruct (Index.announce_prefixes st) as [[[]|e] st1]; simpl; [|eauto].
  apply Index_push_entry_flow.
Qed.

Lemma Index_after_load_ok st flow :
  ((exec! Index.announce_prefixes in Index.push_entry) st).1 = Ok flow →
  not_nullish (_lastResponse st) = true.
Proof.
  unfold bind. pose proof (announce_prefixes_ok st) as Hok.
  destruct (Index.announce_prefixes st) as [[[]|e] st1]; simpl in *; [|done].
  intros _. by apply Hok.
Qed.

(** Every turn has one of the three shapes. *)
Lemma Index_turn_shape st :
  turn_shape st (Index.loop_body st).1 (Index.loop_body st).2.
Proof.
  rewrite Index_loop_body_run.
  destruct ((Index.page_exhausted st).1) as [[]|e]; simpl.
  - destruct (Index.is_last_page st); simpl.
    { apply shape_quiet, quiet_deliver. }
    destruct (listObjectsV2 (next_params st) (_s3 st)) as [[err data] s']
      eqn:Hcall.
    destruct err as [| |e].
    + apply (shape_loaded _ _ _ JUndefined data s'); [done..| |].
      * apply Index_after_load_quiet.
      * intros flow Hok. by apply Index_after_load_ok in Hok.
    + apply (shape_loaded _ _ _ JNull data s'); [done..| |].
      * apply Index_after_load_quiet.
      * intros flow Hok. by apply Index_after_load_ok in Hok.
    + by apply (shape_refused _ _ _ e data s').
  - apply shape_quiet, Index_push_entry_quiet.
  - apply shape_quiet, quiet_refl.
Qed.

(** Only a pause sets [_stopped]. *)
Lemma Index_turn_stopped st :
  _stopped (Index.loop_body st).2
  = stopped_after (Index.loop_body st).1 (_stopped st).
Proof.
  rewrite Index_loop_body_run.
  destruct ((Index.page_exhausted st).1) as [[]|e]; simpl; [| |done].
  - destruct (Index.is_last_page st); simpl; [done|].
    destruct (listObjectsV2 (next_params st) (_s3 st)) as [[[| |e] data] s'];
      simpl; [| |done]; by rewrite Index_after_load_stopped.
  - apply Index_push_entry_stopped.
Qed.

Lemma Index_head_end st :
  (Index.page_exhausted st).1 = Ok true → Index.is_last_page st = true →
  at_end st = true.
Proof.
  unfold Index.page_exhausted, Index.is_last_page, at_end, exhausted.
  unfold_monad.
  destruct (_lastResponse st) as [| |r]; [done..|].
  destruct (Contents r) as [| |l]; simpl; [done..|].
  intros [= ->] ->. done.
Qed.

(** The turn returns only at the end of a final page. *)
Lemma Index_turn_return st result :
  (Index.loop_body st).1 = Ok (Return result) → at_end st = true.
Proof.
  rewrite Index_loop_body_run.
  destruct ((Index.page_exhausted st).1) as [[]|e] eqn:Hpe; simpl; [| |done].
  - destruct (Index.is_last_page st) eqn:Hlp; simpl.
    { intros _. by apply Index_head_end. }
    destruct (listObjectsV2 (next_params st) (_s3 st)) as [[[| |e] data] s'];
      simpl; [| |done]; intros Hret;
      destruct (Index_after_load_flow (loaded st s' data))
        as [[e He]|[He|He]]; congruence.
  - intros Hret.
    destruct (Index_push_entry_flow st) as [[e He]|[He|He]]; congruence.
Qed.
End IndexShape.

(** ** Every path through a turn of [part_000] *)

Section Part000Paths.
Context {S R : Type} `{!S3Client S, !ReadableBase R}.
Implicit Types st : Stream S R.

Lemma Part000_push_entry_run st :
  Part000.push_entry st =
    match _lastResponse st with
    | JVal r =>
        match Contents r with
        | JVal l =>
            Part000_entry_outcome (_fullMetadata st)
              (entry_at l (_currentIndex st)) (advance st)
        | c => (Throw (TypeError (nullish_value c)
                         (Indexed (_currentIndex st))), advance st)
        end
    | last => (Throw (TypeError (nullish_value last) (Named "Contents")), st)
    end.
Proof.
  destruct (_lastResponse st) as [| |r] eqn:Hlast.
  1, 2: unfold Part000.push_entry, bind;
    rewrite read_entry_nothing_held by (by rewrite Hlast); by rewrite Hlast.
  destruct (Contents r) as [| |l] eqn:Hcont.
  1, 2: unfold Part000.push_entry, bind;
    rewrite (read_entry_absent st r Hlast) by (by rewrite Hcont);
    by rewrite Hcont.
  by apply (Part000_push_entry_held st r l).
Qed.

Lemma Part000_entry_outcome_quiet fm e st :
  quiet st (Part000_entry_outcome fm e st).2.
Proof.
  unfold Part000_entry_outcome. destruct (truthy fm).
  - apply quiet_hand_over.
  - destruct e; simpl; try apply quiet_refl. apply quiet_hand_over.
Qed.

Lemma Part000_entry_outcome_stopped fm e st :
  _stopped (Part000_entry_outcome fm e st).2
  = stopped_after (Part000_entry_outcome fm e st).1 (_stopped st).
Proof.
  unfold Part000_entry_outcome. destruct (truthy fm).
  - apply hand_over_stopped.
  - destruct e; simpl; try done. apply hand_over_stopped.
Qed.

Lemma Part000_entry_outcome_flow fm e st :
  (∃ err, (Part000_entry_outcome fm e st).1 = Throw err)
  ∨ (Part000_entry_outcome fm e st).1 = Ok Next
  ∨ (Part000_entry_outcome fm e st).1 = Ok Break.
Proof.
  unfold Part000_entry_outcome. destruct (truthy fm).
  - right. apply hand_over_flow.
  - destruct e; simpl; eauto. right. apply hand_over_flow.
Qed.

Lemma Part000_push_entry_quiet st : quiet st (Part000.push_entry st).2.
Proof.
  rewrite Part000_push_entry_run.
  destruct (_lastResponse st) as [| |r]; simpl; try apply quiet_refl.
  destruct (Contents r) as [| |l]; simpl; try apply quiet_advance.
  eapply quiet_trans; [apply quiet_advance|].
  apply Part000_entry_outcome_quiet.
Qed.

Lemma Part000_push_entry_stopped st :
  _stopped (Part000.push_entry st).2
  = stopped_after (Part000.push_entry st).1 (_stopped st).
Proof.
  rewrite Part000_push_entry_run.
  destruct (_lastResponse st) as [| |r]; simpl; try done.
  destruct (Contents r) as [| |l]; simpl; try done.
  by rewrite Part000_entry_outcome_stopped.
Qed.

Lemma Part000_push_entry_flow st :
  (∃ e, (Part000.push_entry st).1 = Throw e)
  ∨ (Part000.push_entry st).1 = Ok Next
  ∨ (Part000.push_entry st).1 = Ok Break.
Proof.
  rewrite Part000_push_entry_run.
  destruct (_lastResponse st) as [| |r]; simpl; eauto.
  destruct (Contents r) as [| |l]; simpl; eauto.
  apply Part000_entry_outcome_flow.
Qed.

Lemma Part000_push_entry_ok st flow :
  (Part000.push_entry st).1 = Ok flow →
  not_nullish (_lastResponse st) = true.
Proof.
  rewrite Part000_push_entry_run.
  by destruct (_lastResponse st) as [| |r].
Qed.

Lemma Part000_page_exhausted_state st : (Part000.page_exhausted st).2 = st.
Proof.
  unfold Part000.page_exhausted. unfold_monad.
  destruct (_lastResponse st) as [| |r]; try done.
  by destruct (Contents r).
Qed.

Lemma Part000_loop_body_run st :
  Part000.loop_body st =
    match (Part000.page_exhausted st).1 with
    | Throw e => (Throw e, st)
    | Ok false => Part000.push_entry st
    | Ok true =>
        if Part000.is_last_page st
        then (Ok (Return (accepts EOF st)), deliver EOF st)
        else
          match listObjectsV2 (next_params st) (_s3 st) with
          | ((JVal e, _), s') => (Throw (ThrownError e), refused st s')
          | ((_, data), s') => Part000.push_entry (loaded st s' data)
          end
    end.
Proof.
  pose proof (Part000_page_exhausted_state st) as Hst.
  unfold Part000.loop_body. unfold bind at 1 2.
  destruct (Part000.page_exhausted st) as [[[]|e] st1]; simpl in *;
    subst st1; [| |done].
  - unfold bind at 1. unfold this at 1.
    destruct (Part000.is_last_page st).
    + unfold bind. by rewrite call_push_run.
    + unfold bind at 1. rewrite loadNextPage_run.
      by destruct (listObjectsV2 (next_params st) (_s3 st))
        as [[[| |e] data] s'].
  - done.
Qed.

Lemma Part000_turn_shape st :
  turn_shape st (Part000.loop_body st).1 (Part000.loop_body st).2.
Proof.
  rewrite Part000_loop_body_run.
  destruct ((Part000.page_exhausted st).1) as [[]|e]; simpl.
  - destruct (Part000.is_last_page st); simpl.
    { apply shape_quiet, quiet_deliver. }
    destruct (listObjectsV2 (next_params st) (_s3 st)) as [[err data] s']
      eqn:Hcall.
    destruct err as [| |e].
    + apply (shape_loaded _ _ _ JUndefined data s'); [done..| |].
      * apply Part000_push_entry_quiet.
      * intros flow Hok. by apply Part000_push_entry_ok in Hok.
    + apply (shape_loaded _ _ _ JNull data s'); [done..| |].
      * apply Part000_push_entry_quiet.
      * intros flow Hok. by apply Part000_push_entry_ok in Hok.
    + by apply (shape_refused _ _ _ e data s').
  - apply shape_quiet, Part000_push_entry_quiet.
  - apply shape_quiet, quiet_refl.
Qed.

Lemma Part000_turn_stopped st :
  _stopped (Part000.loop_body st).2
  = stopped_after (Part000.loop_body st).1 (_stopped st).
Proof.
  rewrite Part000_loop_body_run.
  destruct ((Part000.page_exhausted st).1) as [[]|e]; simpl; [| |done].
  - destruct (Part000.is_last_page st); simpl; [done|].
    destruct (listObjectsV2 (next_params st) (_s3 st)) as [[[| |e] data] s'];
      simpl; [| |done]; by rewrite Part000_push_entry_stopped.
  - apply Part000_push_entry_stopped.
Qed.

Lemma Part000_head_end st :
  (Part000.page_exhausted st).1 = Ok true →
  Part000.is_last_page st = true → at_end st = true.
Proof.
  unfold Part000.page_exhausted, Part000.is_last_page, at_end, exhausted.
  unfold_monad.
  destruct (_lastResponse st) as [| |r]; [done..|].
  destruct (Contents r) as [| |l]; simpl; [done..|].
  intros [= ->] ->. done.
Qed.

Lemma Part000_turn_return st result :
  (Part000.loop_body st).1 = Ok (Return result) → at_end st = true.
Proof.
  rewrite Part000_loop_body_run.
  destruct ((Part000.page_exhausted st).1) as [[]|e] eqn:Hpe; simpl;
    [| |done].
  - destruct (Part000.is_last_page st) eqn:Hlp; simpl.
    { intros _. by apply Part000_head_end. }
    destruct (listObjectsV2 (next_params st) (_s3 st)) as [[[| |e] data] s'];
      simpl; [| |done]; intros Hret;
      destruct (Part000_push_entry_flow (loaded st s' data))
        as [[e He]|[He|He]]; congruence.
  - intros Hret.
    destruct (Part000_push_entry_flow st) as [[e He]|[He|He]]; congruence.
Qed.
End Part000Paths.

(** ** Calls of [_startRead] and [_read], for any loop body *)

Section Runs.
Context {S R : Type} `{!S3Client S, !ReadableBase R}.
Implicit Types st : Stream S R.
Variable body : M (S:=S) (R:=R) Flow.

Lemma while_true_step fuel st :
  while_true body (Datatypes.S fuel) st =
    match body st with
    | (Ok Next, st') => while_true body fuel st'
    | (Ok (Return result), st') => (Ok (Some (Returned result)), st')
    | (Ok Break, st') => (Ok (Some Broke), st')
    | (Throw e, st') => (Throw e, st')
    end.
Proof.
  simpl. unfold bind. by destruct (body st) as [[[]|e] st'].
Qed.

Lemma startRead_with_run fuel st :
  startRead_with body fuel st =
    match while_true body fuel (restart st) with
    | (Ok c, st') => (Ok c, st')
    | (Throw e, st') => (Ok (Some (Caught e)), report e st')
    end.
Proof.
  unfold startRead_with, try_catch. unfold bind at 1 2.
  unfold set_stopped, emit, log, restart. simpl.
  by destruct (while_true body fuel _) as [[c|e] st'].
Qed.

Lemma read_with_running fuel st :
  _stopped st = false → read_with body fuel st = Some st.
Proof. unfold read_with. by intros ->. Qed.

Lemma read_with_stopped fuel st :
  _stopped st = true →
  read_with body fuel st =
    match startRead_with body fuel st with
    | (Ok (Some _), st') => Some st'
    | _ => None
    end.
Proof. unfold read_with. by intros ->. Qed.

(** Once the flag is down, pulls change nothing. *)
Lemma pulls_running fuels st :
  _stopped st = false → pulls (read_with body) fuels st = Some st.
Proof.
  intros Hrun. induction fuels as [|fuel fuels IH]; [done|].
  simpl. by rewrite read_with_running.
Qed.

Hypothesis body_stopped :
  ∀ st, _stopped (body st).2 = stopped_after (body st).1 (_stopped st).

(** The flag after the loop: up exactly when the loop was left on a full
    buffer. *)
Lemma while_true_stopped fuel st :
  _stopped st = false →
  _stopped (while_true body fuel st).2
  = match (while_true body fuel st).1 with
    | Ok (Some Broke) => true
    | _ => false
    end.
Proof.
  revert st. induction fuel as [|fuel IH]; intros st Hrun; [done|].
  rewrite while_true_step. pose proof (body_stopped st) as Hb.
  destruct (body st) as [[[]|e] st']; simpl in *; try congruence.
  apply IH. congruence.
Qed.

Lemma startRead_with_stopped fuel st :
  _stopped (startRead_with body fuel st).2
  = match (startRead_with body fuel st).1 with
    | Ok (Some Broke) => true
    | _ => false
    end.
Proof.
  rewrite startRead_with_run.
  pose proof (while_true_stopped fuel (restart st) eq_refl) as Hw.
  by destruct (while_true body fuel (restart st)) as [[[[]|]|e] st'].
Qed.

(** A loop that is at the head of a turn after [n] turns goes on from
    there. *)
Lemma while_true_reaches n fuel st st1 :
  while_true body n st = (Ok None, st1) →
  while_true body (n + fuel) st = while_true body fuel st1.
Proof.
  revert st. induction n as [|n IH]; intros st.
  - simpl. unfold ret. by intros [= ->].
  - change (Datatypes.S n + fuel) with (Datatypes.S (n + fuel)).
    rewrite !while_true_step.
    destruct (body st) as [[[]|e] st2]; try done. apply IH.
Qed.

(** A loop that was left, or threw, did so in a last turn, taken from the
    head the turns before it had reached. *)
Lemma while_true_last fuel st res st' :
  while_true body fuel st = (res, st') → res ≠ Ok None →
  ∃ n st1, n < fuel ∧ while_true body n st = (Ok None, st1)
           ∧ while_true body 1 st1 = (res, st').
Proof.
  revert st. induction fuel as [|fuel IH]; intros st.
  { simpl. unfold ret. by intros [= <- <-]. }
  intros Hloop Hres. destruct (body st) as [[flow|e] st2] eqn:Hbody.
  - destruct flow as [|result|].
    + rewrite while_true_step, Hbody in Hloop.
      destruct (IH st2 Hloop Hres) as (n & st1 & Hn & Hreach & Hlast).
      exists (Datatypes.S n), st1. split; [lia|]. split; [|done].
      by rewrite while_true_step, Hbody.
    + exists 0, st. split; [lia|]. split; [done|].
      rewrite while_true_step, Hbody in *. done.
    + exists 0, st. split; [lia|]. split; [done|].
      rewrite while_true_step, Hbody in *. done.
  - exists 0, st. split; [lia|]. split; [done|].
    rewrite while_true_step, Hbody in *. done.
Qed.

(** [_startRead] never lets an exception escape. *)
Lemma startRead_with_catches fuel st :
  ∃ c, (startRead_with body fuel st).1 = Ok c.
Proof.
  rewrite startRead_with_run.
  destruct (while_true body fuel (restart st)) as [[c|e] st']; eauto.
Qed.
End Runs.

(** ** Normal termination *)

Section Termination.
Context {S R : Type} `{!S3Client S, !ReadableBase R}.
Implicit Types st : Stream S R.

Section AnyBody.
Variable body : M (S:=S) (R:=R) Flow.
Hypothesis body_return :
  ∀ st result, (body st).1 = Ok (Return result) → at_end st = true.
Hypothesis body_end :
  ∀ st, at_end st = true →
        body st = (Ok (Return (accepts EOF st)), deliver EOF st).

(** A loop that returns did so from the end of a final page, by
    handing the end-of-stream mark to the reader. *)
Lemma while_true_returned fuel st result st' :
  while_true body fuel st = (Ok (Some (Returned result)), st') →
  ∃ st1, at_end st1 = true ∧ st' = deliver EOF st1.
Proof.
  revert st. induction fuel as [|fuel IH]; intros st; [done|].
  rewrite while_true_step.
  destruct (body st) as [[[|res|]|e] st2] eqn:Hbody; try done.
  - apply IH.
  - intros [= -> ->]. exists st.
    assert (at_end st = true) as Hend.
    { apply (body_return st result). by rewrite Hbody. }
    split; [done|]. rewrite (body_end st Hend) in Hbody. congruence.
Qed.

Lemma startRead_with_returned fuel st result st' :
  startRead_with body fuel st = (Ok (Some (Returned result)), st') →
  at_end st' = true ∧ last (events st') = Some (Call_push EOF).
Proof.
  rewrite startRead_with_run.
  destruct (while_true body fuel (restart st)) as [[c|e] st2] eqn:Hloop;
    [|done].
  intros [= -> ->].
  apply while_true_returned in Hloop as (st1 & Hend & ->).
  split; [exact Hend|]. simpl. apply last_snoc.
Qed.
End AnyBody.

Section AnyBody.
Variable body : M (S:=S) (R:=R) Flow.
Hypothesis body_return :
  ∀ st result, (body st).1 = Ok (Return result) → at_end st = true.
Hypothesis body_end :
  ∀ st, at_end st = true →
        body st = (Ok (Return (accepts EOF st)), deliver EOF st).

(** The call whose loop comes to the head of a turn at the end of a
    final page returns there. *)
Lemma startRead_with_ends n fuel st st1 :
  n < fuel →
  while_true body n (restart st) = (Ok None, st1) → at_end st1 = true →
  startRead_with body fuel st
  = (Ok (Some (Returned (accepts EOF st1))), deliver EOF st1).
Proof.
  intros Hn Hreach Hend. rewrite startRead_with_run.
  replace fuel with (n + Datatypes.S (fuel - Datatypes.S n)) by lia.
  by rewrite (while_true_reaches body n _ _ _ Hreach), while_true_step,
    (body_end st1 Hend).
Qed.

(** And a call returns in no other way. *)
Lemma startRead_with_returns_iff fuel st :
  (∃ result st',
     startRead_with body fuel st = (Ok (Some (Returned result)), st'))
  ↔ (∃ n st1, n < fuel
              ∧ while_true body n (restart st) = (Ok None, st1)
              ∧ at_end st1 = true).
Proof.
  split.
  - intros (result & st' & Hrun). rewrite startRead_with_run in Hrun.
    destruct (while_true body fuel (restart st)) as [[c|e] st2] eqn:Hloop;
      [|done].
    injection Hrun as -> ->.
    destruct (while_true_last body fuel _ _ _ Hloop)
      as (n & st1 & Hn & Hreach & Hlast); [done|].
    exists n, st1. split; [done|]. split; [done|].
    rewrite while_true_step in Hlast.
    destruct (body st1) as [[[|res|]|e] st3] eqn:Hbody; try done.
    apply (body_return st1 res). by rewrite Hbody.
  - intros (n & st1 & Hn & Hreach & Hend).
    rewrite (startRead_with_ends n fuel st st1 Hn Hreach Hend). eauto.
Qed.
End AnyBody.

(** X24. Normal termination, call by call, in both revisions.  A call of
    [_startRead] given [fuel] turns returns (line 90, 108) exactly when
    its loop comes, within these turns, to the head of a turn with a
    response held, its items exhausted by the cursor and its truncation
    flag down; the call then hands the end-of-stream mark to the reader
    and returns what [push] answered, and so does the pull that made the
    call.  A call that returned has left the stream at the end of a
    final page, the push of the end-of-stream mark last in its log and
    [_stopped] down, so that every later pull leaves the stream as it
    is: no fetch, no emission. *)
Theorem normal_termination_iff st fuel :
  ((∃ result st',
      Index._startRead fuel st = (Ok (Some (Returned result)), st'))
   ↔ (∃ n st1, n < fuel
               ∧ while_true Index.loop_body n (restart st) = (Ok None, st1)
               ∧ at_end st1 = true))
  ∧ ((∃ result st',
        Part000._startRead fuel st = (Ok (Some (Returned result)), st'))
     ↔ (∃ n st1, n < fuel
                 ∧ while_true Part000.loop_body n (restart st)
                   = (Ok None, st1)
                 ∧ at_end st1 = true))
  ∧ (∀ n st1,
       n < fuel → at_end st1 = true →
       (while_true Index.loop_body n (restart st) = (Ok None, st1) →
        Index._startRead fuel st
        = (Ok (Some (Returned (accepts EOF st1))), deliver EOF st1)
        ∧ (_stopped st = true →
           Index._read fuel st = Some (deliver EOF st1)))
       ∧ (while_true Part000.loop_body n (restart st) = (Ok None, st1) →
          Part000._startRead fuel st
          = (Ok (Some (Returned (accepts EOF st1))), deliver EOF st1)
          ∧ (_stopped st = true →
             Part000._read fuel st = Some (deliver EOF st1))))
  ∧ (∀ result st',
       Index._startRead fuel st = (Ok (Some (Returned result)), st')
       ∨ Part000._startRead fuel st = (Ok (Some (Returned result)), st') →
       at_end st' = true
       ∧ last (events st') = Some (Call_push EOF)
       ∧ _stopped st' = false
       ∧ ∀ fuels, pulls Index._read fuels st' = Some st'
                  ∧ pulls Part000._read fuels st' = Some st').
Proof.
  split; [|split; [|split]].
  - apply (startRead_with_returns_iff Index.loop_body Index_turn_return
             Index_turn_end).
  - apply (startRead_with_returns_iff Part000.loop_body Part000_turn_return
             Part000_turn_end).
  - intros n st1 Hn Hend. split; intros Hreach.
    + pose proof (startRead_with_ends Index.loop_body Index_turn_end n fuel
                    st st1 Hn Hreach Hend) as Hrun.
      split; [exact Hrun|]. intros Hstop.
      unfold Index._read, read_with. rewrite Hstop.
      unfold Index._startRead in Hrun. by rewrite Hrun.
    + pose proof (startRead_with_ends Part000.loop_body Part000_turn_end n
                    fuel st st1 Hn Hreach Hend) as Hrun.
      split; [exact Hrun|]. intros Hstop.
      unfold Part000._read, read_with. rewrite Hstop.
      unfold Part000._startRead in Hrun. by rewrite Hrun.
  - intros result st' Hrun.
    assert (at_end st' = true ∧ last (events st') = Some (Call_push EOF)
            ∧ _stopped st' = false) as (Hend & Hlast & Hflag).
    { destruct Hrun as [Hrun|Hrun].
      - pose proof (startRead_with_stopped Index.loop_body
                      Index_turn_stopped fuel st) as Hflag.
        unfold Index._startRead in Hrun. rewrite Hrun in Hflag.
        apply startRead_with_returned in Hrun as [Hend Hlast];
          [done|apply Index_turn_return|apply Index_turn_end].
      - pose proof (startRead_with_stopped Part000.loop_body
                      Part000_turn_stopped fuel st) as Hflag.
        unfold Part000._startRead in Hrun. rewrite Hrun in Hflag.
        apply startRead_with_returned in Hrun as [Hend Hlast];
          [done|apply Part000_turn_return|apply Part000_turn_end]. }
    split; [done|]. split; [done|]. split; [done|].
    intros fuels. split; by apply pulls_running.
Qed.
End Termination.

(** ** Pagination chaining *)

Section Chaining.
Context {S R : Type} `{!S3Client S, !ReadableBase R}.
Implicit Types st : Stream S R.

(** The pagination fields win over whatever the caller put in the extra
    arguments. *)
Lemma next_params_token st :
  next_params st !! "ContinuationToken"
  = Some (continuationToken (_lastResponse st)).
Proof.
  unfold next_params, assign, currentParams.
  apply lookup_union_Some_l.
  rewrite lookup_insert_ne by done. rewrite lookup_insert_ne by done.
  apply lookup_singleton_eq.
Qed.

Lemma chained_more_pages rq pg extra :
  chained rq pg → chained rq (pg ++ extra).
Proof.
  intros Hch i p Hi. specialize (Hch i p Hi). destruct i as [|j]; [done|].
  destruct Hch as (r & Hr & Htok). exists r. split; [|done].
  by apply lookup_app_l_Some.
Qed.

(** A request sent from a settled stream extends the chain. *)
Lemma chained_request st extra :
  chained (requests (events st)) (pages (events st)) → settled st →
  chained (requests (events st) ++ [next_params st])
    (pages (events st) ++ extra).
Proof.
  intros Hch [Hlen Hlast] i p Hi.
  apply lookup_app_Some in Hi as [Hi|[Hge Hi]].
  { by apply (chained_more_pages _ _ extra Hch). }
  apply list_lookup_singleton_Some in Hi as [Hi <-].
  assert (i = length (pages (events st))) as -> by lia.
  rewrite next_params_token.
  destruct (pages (events st)) as [|d pg] eqn:Hpg using rev_ind.
  - simpl in *. by rewrite Hlast.
  - clear IHpg. rewrite last_snoc in Hlast. destruct Hlast as [Hheld Hobj].
    rewrite length_app. simpl.
    replace (length pg + 1) with (Datatypes.S (length pg)) by lia.
    destruct d as [| |r]; [done..|]. exists r. split.
    + rewrite lookup_app_l by (rewrite length_app; simpl; lia).
      by rewrite lookup_app_r, Nat.sub_diag.
    + by rewrite Hheld.
Qed.

Section AnyBody.
Variable body : M (S:=S) (R:=R) Flow.
Hypothesis body_shape : ∀ st, turn_shape st (body st).1 (body st).2.
Hypothesis body_stopped :
  ∀ st, _stopped (body st).2 = stopped_after (body st).1 (_stopped st).

Lemma settled_quiet st st' : quiet st st' → settled st → settled st'.
Proof.
  intros Hq [Hlen Hlast]. unfold settled.
  rewrite (quiet_requests _ _ Hq), (quiet_pages _ _ Hq).
  by rewrite (quiet_lastResponse _ _ Hq).
Qed.

Lemma chained_quiet st st' :
  quiet st st' →
  chained (requests (events st)) (pages (events st)) →
  chained (requests (events st')) (pages (events st')).
Proof.
  intros Hq. by rewrite (quiet_requests _ _ Hq), (quiet_pages _ _ Hq).
Qed.

(** One turn keeps the chain, and a turn that completes leaves the
    stream settled. *)
Lemma turn_chained st :
  chained (requests (events st)) (pages (events st)) → settled st →
  chained (requests (events (body st).2)) (pages (events (body st).2))
  ∧ (∀ flow, (body st).1 = Ok flow → settled (body st).2).
Proof.
  intros Hch Hset.
  destruct (body_shape st) as [Hq|e data s' Hcall Hres Hst
                              |err data s' Hcall Herr Hq Hobj].
  - split; [by apply (chained_quiet st)|].
    intros _ _. by apply (settled_quiet st).
  - rewrite Hst, Hres. split; [|done]. simpl.
    rewrite requests_app, pages_app. simpl.
    by apply chained_request.
  - assert (requests (events (body st).2)
            = requests (events st) ++ [next_params st]) as Hrq.
    { rewrite (quiet_requests _ _ Hq). simpl. by rewrite requests_app. }
    assert (pages (events (body st).2) = pages (events st) ++ [data])
      as Hpg.
    { rewrite (quiet_pages _ _ Hq). simpl. by rewrite pages_app. }
    split.
    + rewrite Hrq, Hpg. by apply chained_request.
    + intros flow Hflow. unfold settled. rewrite Hrq, Hpg.
      rewrite !length_app, last_snoc, (quiet_lastResponse _ _ Hq).
      destruct Hset as [-> _]. simpl. eauto.
Qed.

Lemma while_true_chained fuel st :
  chained (requests (events st)) (pages (events st)) → settled st →
  chained (requests (events (while_true body fuel st).2))
    (pages (events (while_true body fuel st).2))
  ∧ (∀ c, (while_true body fuel st).1 = Ok c →
          settled (while_true body fuel st).2).
Proof.
  revert st. induction fuel as [|fuel IH]; intros st Hch Hset; [done|].
  rewrite while_true_step.
  destruct (turn_chained st Hch Hset) as [Hch' Hset'].
  destruct (body st) as [[[|result|]|e] st'] eqn:Hbody; simpl in *.
  - apply IH; [done|]. by apply (Hset' Next).
  - split; [done|]. intros _ _. by apply (Hset' (Return result)).
  - split; [done|]. intros _ _. by apply (Hset' Break).
  - done.
Qed.

Lemma startRead_with_chained fuel st :
  chain_invariant st → _stopped st = true →
  chain_invariant (startRead_with body fuel st).2.
Proof.
  intros [Hch Hset] Hstop. specialize (Hset Hstop).
  pose proof (startRead_with_stopped body body_stopped fuel st) as Hflag.
  rewrite startRead_with_run in *.
  destruct (while_true_chained fuel (restart st)) as [Hch' Hset'].
  { exact (chained_quiet st _ (quiet_restart st) Hch). }
  { exact (settled_quiet st _ (quiet_restart st) Hset). }
  destruct (while_true body fuel (restart st)) as [[c|e] st'] eqn:Hloop;
    simpl in *.
  - split; [done|]. intros _. by apply (Hset' c).
  - split; [|intros Hup; simpl in Hup; congruence].
    simpl. rewrite requests_app, pages_app. simpl.
    by rewrite !app_nil_r.
Qed.

Lemma read_with_chained fuel st st' :
  chain_invariant st → read_with body fuel st = Some st' →
  chain_invariant st'.
Proof.
  intros Hinv. destruct (_stopped st) eqn:Hstop.
  - rewrite read_with_stopped by done.
    pose proof (startRead_with_chained fuel st Hinv Hstop) as Hinv'.
    destruct (startRead_with body fuel st) as [[[c|]|e] st2]; try done.
    by intros [= <-].
  - rewrite read_with_running by done. by intros [= <-].
Qed.

Lemma pulls_chained fuels st st' :
  chain_invariant st → pulls (read_with body) fuels st = Some st' →
  chain_invariant st'.
Proof.
  revert st. induction fuels as [|fuel fuels IH]; intros st Hinv; simpl.
  - by intros [= <-].
  - destruct (read_with body fuel st) as [st1|] eqn:Hread; [|done].
    apply IH. by apply (read_with_chained fuel st).
Qed.

Lemma progress_chained fuel st :
  chain_invariant st →
  chained (requests (events (progress body fuel st)))
    (pages (events (progress body fuel st))).
Proof.
  intros Hinv. unfold progress. destruct (_stopped st) eqn:Hstop.
  - by apply startRead_with_chained.
  - apply Hinv.
Qed.
End AnyBody.
End Chaining.

Section ChainingTheorem.
Context {S R : Type} `{!S3Client S, !ReadableBase R}.
Implicit Types st : Stream S R.

Lemma Index_constructed_invariant (s3 : S) bucket bucketPrefix args :
  chain_invariant
    (Index.constructor s3 bucket bucketPrefix args : Stream S R).
Proof. split; [by intros i p|]. intros _. by split. Qed.

Lemma Part000_constructed_invariant (s3 : S) bucket bucketPrefix options args :
  chain_invariant
    (Part000.constructor s3 bucket bucketPrefix options args : Stream S R).
Proof. split; [by intros i p|]. intros _. by split. Qed.

(** C3. Take a stream of either revision, built with any extra request
    arguments, after any number of completed pulls and any number of
    turns into one more pull.  The first request it has sent carries an
    undefined [ContinuationToken], and the request number [j+1] carries
    the [NextContinuationToken] of the response number [j], which is an
    object. *)
Theorem continuation_token_chain
    (s3 : S) (bucket : string) (bucketPrefix : option string)
    (options listObjectsV2args : option Obj)
    (fuels : list nat) (fuel : nat) st :
  (pulls Index._read fuels
     (Index.constructor s3 bucket bucketPrefix listObjectsV2args) = Some st
   ∨ pulls Part000._read fuels
       (Part000.constructor s3 bucket bucketPrefix options
          listObjectsV2args) = Some st) →
  ∀ st', st' = progress Index.loop_body fuel st
         ∨ st' = progress Part000.loop_body fuel st →
  ∀ i p, requests (events st') !! i = Some p →
    match i with
    | 0 => p !! "ContinuationToken" = Some VUndefined
    | Datatypes.S j =>
        ∃ r, pages (events st') !! j = Some (JVal r)
             ∧ p !! "ContinuationToken" = Some (NextContinuationToken r)
    end.
Proof.
  intros Hpulls st' Hst'.
  assert (chain_invariant st) as Hinv.
  { destruct Hpulls as [Hpulls|Hpulls].
    - eapply (pulls_chained Index.loop_body); [apply Index_turn_shape
        |apply Index_turn_stopped| |exact Hpulls].
      apply Index_constructed_invariant.
    - eapply (pulls_chained Part000.loop_body); [apply Part000_turn_shape
        |apply Part000_turn_stopped| |exact Hpulls].
      apply Part000_constructed_invariant. }
  destruct Hst' as [->| ->].
  - apply (progress_chained Index.loop_body Index_turn_shape
             Index_turn_stopped fuel st Hinv).
  - apply (progress_chained Part000.loop_body Part000_turn_shape
             Part000_turn_stopped fuel st Hinv).
Qed.
End ChainingTheorem.

(** The test scenario, with a stale token among the caller's arguments: the
    second request carries the token of the first page. *)
Lemma continuation_token_chain_witness :
  ∃ r, pages (events test_stream_keys_done) !! 0 = Some (JVal r)
       ∧ default ∅ (requests (events test_stream_keys_done) !! 1)
           !! "ContinuationToken"
         = Some (NextContinuationToken r).
Proof.
  apply (continuation_token_chain (MockS3_new three_pages false)
           "some-bucket" (Some "/some/prefix") None
           (Some {[ "MaxKeys" := VNum 2;
                    "ContinuationToken" := VStr "stale" ]})
           [9; 9] 0 test_stream_keys_done)
    with (st' := test_stream_keys_done) (i := 1).
  - right. vm_compute. reflexivity.
  - right. vm_compute. reflexivity.
  - vm_compute. reflexivity.
Defined.

(** ** The rest of a call of [_startRead], from the head of a turn *)

Section FromTurn.
Context {S R : Type} `{!S3Client S, !ReadableBase R}.
Implicit Types st : Stream S R.
Variable body : M (S:=S) (R:=R) Flow.

Lemma startRead_with_from fuel st :
  startRead_with body fuel st = startRead_from body fuel (restart st).
Proof.
  rewrite startRead_with_run. unfold startRead_from, try_catch.
  destruct (while_true body fuel (restart st)) as [[c|e] st']; [done|].
  unfold bind, emit, log, ret, report. done.
Qed.

Lemma startRead_from_step fuel st :
  startRead_from body (Datatypes.S fuel) st =
    match body st with
    | (Ok Next, st') => startRead_from body fuel st'
    | (Ok (Return result), st') => (Ok (Some (Returned result)), st')
    | (Ok Break, st') => (Ok (Some Broke), st')
    | (Throw e, st') => (Ok (Some (Caught e)), report e st')
    end.
Proof.
  unfold startRead_from, try_catch. rewrite while_true_step.
  by destruct (body st) as [[[]|e] st'].
Qed.


(** Once the loop of a call has come to the head of a turn, the call ends
    as what remains of it does, and so does the pull that made the call. *)
Lemma startRead_from_reaches n fuel st st1 :
  while_true body n st = (Ok None, st1) →
  startRead_from body (n + fuel) st = startRead_from body fuel st1.
Proof.
  intros Hreach. unfold startRead_from, try_catch.
  by rewrite (while_true_reaches body n fuel st st1 Hreach).
Qed.

Lemma read_with_reaches n fuel st0 st c st' :
  _stopped st0 = true →
  while_true body n (restart st0) = (Ok None, st) →
  startRead_from body fuel st = (Ok (Some c), st') →
  read_with body (n + fuel) st0 = Some st'.
Proof.
  intros Hstop Hreach Hrest. unfold read_with. rewrite Hstop.
  rewrite startRead_with_from.
  by rewrite (startRead_from_reaches n fuel _ _ Hreach), Hrest.
Qed.


Hypothesis body_shape : ∀ st, turn_shape st (body st).1 (body st).2.

End FromTurn.

(** ** Backpressure *)

Section Backpressure.
Context {S R : Type} `{!S3Client S, !ReadableBase R}.
Implicit Types st : Stream S R.









Section AnyBody.
Variable body : M (S:=S) (R:=R) Flow.
Hypothesis body_shape : ∀ st, turn_shape st (body st).1 (body st).2.


End AnyBody.

End Backpressure.

(** ** The configuration is fixed at construction *)

Section Config.
Context {S R : Type} `{!S3Client S, !ReadableBase R}.
Implicit Types st : Stream S R.
Variable body : M (S:=S) (R:=R) Flow.
Hypothesis body_shape : ∀ st, turn_shape st (body st).1 (body st).2.

Lemma quiet_config st st' : quiet st st' → config st' = config st.
Proof. intros [? ? ? ? ? ? _]. unfold config. congruence. Qed.





End Config.

(** ** The value emitted for an item *)

Section EmittedValue.
Context {S R : Type} `{!S3Client S, !ReadableBase R}.
Implicit Types st : Stream S R.



End EmittedValue.

(** ** Prefix notifications ([src/index.ts] 92-99) *)

Section Prefixes.
Context {S R : Type} `{!S3Client S, !ReadableBase R}.
Implicit Types st : Stream S R.

Lemma emit_prefixes_objects (gs : list CommonPrefix) st :
  Index.emit_prefixes (JVal <$> gs) st
  = (Ok tt, logged (prefix_events gs) st).
Proof.
  revert st. induction gs as [|g gs IH]; intros st; simpl.
  - unfold ret, logged. rewrite app_nil_r. by rewrite stream_eta.
  - unfold bind, emit, log. rewrite IH. unfold logged. simpl.
    by rewrite <- (assoc_L (++)).
Qed.

Lemma groupings_objects items gs :
  mapM (λ item : Js CommonPrefix,
          match item with JVal g => Some g | _ => None end) items = Some gs →
  items = JVal <$> gs.
Proof.
  revert gs. induction items as [|[| |g] items IH]; intros gs; simpl.
  - by intros [= <-].
  - done.
  - done.
  - destruct (mapM _ items) as [gs'|] eqn:Hrest; simpl; [|done].
    intros [= <-]. simpl. f_equal. by apply IH.
Qed.

Lemma groupings_of_objects (gs : list CommonPrefix) :
  mapM (λ item : Js CommonPrefix,
          match item with JVal g => Some g | _ => None end) (JVal <$> gs)
  = Some gs.
Proof.
  induction gs as [|g gs IH]; [done|].
  rewrite fmap_cons. cbn [mapM]. rewrite IH. done.
Qed.

Lemma announce_prefixes_groupings st r gs :
  _lastResponse st = JVal r → groupings r = Some gs →
  Index.announce_prefixes st = (Ok tt, logged (prefix_events gs) st).
Proof.
  intros Hheld Hgs. unfold Index.announce_prefixes, bind, this.
  rewrite Hheld. unfold groupings in Hgs.
  destruct (CommonPrefixes r) as [| |items].
  - injection Hgs as <-. unfold ret, logged. simpl.
    by rewrite app_nil_r, stream_eta.
  - injection Hgs as <-. unfold ret, logged. simpl.
    by rewrite app_nil_r, stream_eta.
  - apply groupings_objects in Hgs as ->. apply emit_prefixes_objects.
Qed.

Lemma prefixes_prefix_events_of gs : prefixes (prefix_events gs) = Prefix <$> gs.
Proof. induction gs as [|g gs IH]; [done|]. simpl. by f_equal. Qed.

Lemma pushed_prefix_events_of gs : pushed (prefix_events gs) = [].
Proof. by induction gs as [|g gs IH]. Qed.

Lemma Index_entry_outcome_events e st :
  ∃ rest, events (Index_entry_outcome e st).2 = events st ++ rest
          ∧ prefixes rest = [].
Proof.
  destruct e as [| |o]; simpl; try (exists []; by rewrite app_nil_r).
  unfold hand_over. destruct (accepts (ChunkObject o) st); simpl.
  - by exists [Call_push (ChunkObject o)].
  - exists [Call_push (ChunkObject o); Emit_stopped].
    by rewrite <- (assoc_L (++)).
Qed.

Lemma Index_push_entry_events st :
  ∃ rest, events (Index.push_entry st).2 = events st ++ rest
          ∧ prefixes rest = [].
Proof.
  rewrite Index_push_entry_run.
  destruct (_lastResponse st) as [| |r]; simpl;
    try (exists []; by rewrite app_nil_r).
  destruct (Contents r) as [| |l]; simpl;
    try (exists []; by rewrite app_nil_r).
  apply (Index_entry_outcome_events _ (advance st)).
Qed.

Lemma Part000_push_entry_events st :
  ∃ rest, events (Part000.push_entry st).2 = events st ++ rest
          ∧ prefixes rest = [].
Proof.
  rewrite Part000_push_entry_run.
  destruct (_lastResponse st) as [| |r]; simpl;
    try (exists []; by rewrite app_nil_r).
  destruct (Contents r) as [| |l]; simpl;
    try (exists []; by rewrite app_nil_r).
  assert (∀ c, ∃ rest, events (hand_over c (advance st)).2
                       = events (advance st) ++ rest ∧ prefixes rest = [])
    as Hover.
  { intros c. unfold hand_over. destruct (accepts c (advance st)); simpl.
    - by exists [Call_push c].
    - exists [Call_push c; Emit_stopped]. by rewrite <- (assoc_L (++)). }
  unfold Part000_entry_outcome. destruct (truthy (_fullMetadata st)).
  - apply Hover.
  - destruct (entry_at l (_currentIndex st)) as [| |o]; simpl;
      try (exists []; by rewrite app_nil_r).
    apply Hover.
Qed.

(** No turn of [part_000] announces a prefix. *)
Lemma Part000_turn_announces_nothing st :
  prefixes (events (Part000.loop_body st).2) = prefixes (events st).
Proof.
  assert (∀ st1 : Stream S R,
            prefixes (events (Part000.push_entry st1).2)
            = prefixes (events st1)) as Hpush.
  { intros st1.
    destruct (Part000_push_entry_events st1) as (rest & -> & Hnone).
    by rewrite prefixes_app, Hnone, app_nil_r. }
  rewrite Part000_loop_body_run.
  destruct ((Part000.page_exhausted st).1) as [[]|e]; simpl; [| |done].
  - destruct (Part000.is_last_page st); simpl.
    { rewrite prefixes_app. simpl. by rewrite app_nil_r. }
    destruct (listObjectsV2 (next_params st) (_s3 st)) as [[[| |e] data] s'];
      simpl; rewrite ?Hpush; simpl; rewrite prefixes_app; simpl;
      by rewrite app_nil_r.
  - apply Hpush.
Qed.

(** C8 (as the code has it). A turn of the loop fetches a page and the
    provider answers with a response whose groupings are [gs], each of
    them an object.  In [src/index.ts] the log of the turn is, in this
    order: the request, the 'page' notification, one 'prefix'
    notification per grouping in the order of the response, and then
    whatever lines 101-107 do with the first entry of the page, which
    announces no prefix; no chunk has been pushed up to the end of the
    notifications, and a turn that does not fetch announces nothing.
    [part_000] has no 'prefix' notification: the same turn goes from the
    'page' notification to the first entry of the page, and no turn of
    its loop ever announces a prefix. *)
Theorem prefix_notifications st err r s' gs :
  must_fetch st = true →
  listObjectsV2 (next_params st) (_s3 st) = ((err, JVal r), s') →
  not_nullish err = false →
  CommonPrefixes r = JVal (JVal <$> gs) →
  let announced := logged (prefix_events gs) (loaded st s' (JVal r)) in
  (Index.loop_body st = Index.push_entry announced
   ∧ events announced
     = events st
       ++ [Call_listObjectsV2 (next_params st);
           Emit_page (next_params st) (JVal r)]
       ++ ((λ g, Emit_prefix (Prefix g)) <$> gs)
   ∧ pushed (events announced) = pushed (events st)
   ∧ (∃ rest, events (Index.loop_body st).2 = events announced ++ rest
              ∧ prefixes rest = [])
   ∧ prefixes (events (Index.loop_body st).2)
     = prefixes (events st) ++ (Prefix <$> gs)
   ∧ (∀ (st1 : Stream S R) r1,
        _lastResponse st1 = JVal r1 → must_fetch st1 = false →
        prefixes (events (Index.loop_body st1).2) = prefixes (events st1)))
  ∧ (Part000.loop_body st = Part000.push_entry (loaded st s' (JVal r))
     ∧ (∃ rest, events (Part000.loop_body st).2
                = events st
                  ++ [Call_listObjectsV2 (next_params st);
                      Emit_page (next_params st) (JVal r)]
                  ++ rest
                ∧ prefixes rest = [])
     ∧ ∀ st1 : Stream S R,
         prefixes (events (Part000.loop_body st1).2)
         = prefixes (events st1)).
Proof.
  intros Hfetch Hcall Herr Hgs announced.
  assert (Index.loop_body st = Index.push_entry announced) as Hturn.
  { rewrite (Index_turn_fetch st err (JVal r) s' Hfetch Hcall Herr).
    unfold bind at 1.
    rewrite (announce_prefixes_groupings _ r gs); [done|done|].
    unfold groupings. rewrite Hgs. apply groupings_of_objects. }
  assert (events announced
          = events st
            ++ [Call_listObjectsV2 (next_params st);
                Emit_page (next_params st) (JVal r)]
            ++ prefix_events gs) as Hlog.
  { subst announced. simpl. by rewrite <- (assoc_L (++)). }
  destruct (Index_push_entry_events announced) as (rest & Hrest & Hnone).
  split; [|split; [|split]].
  - split; [exact Hturn|]. split; [exact Hlog|]. split.
    { rewrite Hlog, !pushed_app, pushed_prefix_events_of. simpl.
      by rewrite app_nil_r. }
    split; [exists rest; by rewrite Hturn|]. split.
    { rewrite Hturn, Hrest, Hlog, !prefixes_app, Hnone.
      rewrite prefixes_prefix_events_of. simpl. by rewrite app_nil_r. }
    intros st1 r1 Hheld1 Hno. rewrite Index_loop_body_run.
    destruct ((Index.page_exhausted st1).1) as [[]|e] eqn:Hpe; simpl.
    + destruct (Index.is_last_page st1) eqn:Hlp.
      * simpl. rewrite prefixes_app. simpl. by rewrite app_nil_r.
      * exfalso. revert Hpe Hlp Hno.
        unfold Index.page_exhausted, Index.is_last_page, must_fetch,
          exhausted.
        unfold_monad. rewrite Hheld1.
        destruct (Contents r1) as [| |l1]; simpl; [done..|].
        intros [= ->] Htr. simpl. intros Hno.
        apply negb_false_iff in Htr. congruence.
    + destruct (Index_push_entry_events st1) as (rest1 & Hrest1 & Hnone1).
      by rewrite Hrest1, prefixes_app, Hnone1, app_nil_r.
    + done.
  - apply (Part000_turn_fetch st err (JVal r) s' Hfetch Hcall Herr).
  - rewrite (Part000_turn_fetch st err (JVal r) s' Hfetch Hcall Herr).
    destruct (Part000_push_entry_events (loaded st s' (JVal r)))
      as (rest' & Hrest' & Hnone').
    exists rest'. split; [|done]. rewrite Hrest'. simpl.
    by rewrite <- (assoc_L (++)).
  - apply Part000_turn_announces_nothing.
Qed.
End Prefixes.

(** ** A response without an item sequence *)

Section AbsentContents.
Context {S R : Type} `{!S3Client S, !ReadableBase R}.
Implicit Types st : Stream S R.

Lemma startRead_from_throw body fuel st e st' :
  body st = (Throw e, st') →
  startRead_from body (Datatypes.S fuel) st
  = (Ok (Some (Caught e)), report e st').
Proof. intros Hturn. by rewrite startRead_from_step, Hturn. Qed.

(** Lines 94-98 on any list of groupings: the objects that come before the
    first nullish item are announced, and that item makes the loop throw. *)
Lemma emit_prefixes_run items st :
  Index.emit_prefixes items st
  = (match (announced_groupings items).2 with
     | None => Ok tt
     | Some e => Throw e
     end,
     logged (prefix_events (announced_groupings items).1) st).
Proof.
  revert st. induction items as [|[| |g] items IH]; intros st; simpl.
  - unfold ret, logged. simpl. by rewrite app_nil_r, stream_eta.
  - unfold throw, logged. simpl. by rewrite app_nil_r, stream_eta.
  - unfold throw, logged. simpl. by rewrite app_nil_r, stream_eta.
  - unfold bind, emit, log. rewrite IH.
    destruct (announced_groupings items) as [gs failure]. simpl.
    unfold logged. simpl. rewrite <- (assoc_L (++)). by destruct failure.
Qed.

Lemma announce_prefixes_run st r :
  _lastResponse st = JVal r →
  Index.announce_prefixes st
  = (match (announcements r).2 with
     | None => Ok tt
     | Some e => Throw e
     end,
     logged (prefix_events (announcements r).1) st).
Proof.
  intros Hheld. unfold Index.announce_prefixes, bind, this, announcements.
  rewrite Hheld.
  destruct (CommonPrefixes r) as [| |items]; [| |apply emit_prefixes_run];
    unfold ret, logged; simpl; by rewrite app_nil_r, stream_eta.
Qed.

(** The announcements are those of the groupings when all of them are
    objects, and end on a [TypeError] at a [Prefix] otherwise. *)
Lemma announced_groupings_cases items :
  match mapM (λ item : Js CommonPrefix,
                match item with JVal g => Some g | _ => None end) items with
  | Some gs => announced_groupings items = (gs, None)
  | None => ∃ base, (announced_groupings items).2
                    = Some (TypeError base (Named "Prefix"))
  end.
Proof.
  induction items as [|[| |g] items IH]; simpl; eauto.
  destruct (mapM _ items) as [gs|]; simpl.
  - by rewrite IH.
  - destruct IH as [base Hbase].
    destruct (announced_groupings items) as [gs failure]. simpl in *.
    eauto.
Qed.

Lemma announcements_cases r :
  match groupings r with
  | Some gs => announcements r = (gs, None)
  | None => ∃ base, (announcements r).2
                    = Some (TypeError base (Named "Prefix"))
  end.
Proof.
  unfold groupings, announcements.
  destruct (CommonPrefixes r) as [| |items]; [done..|].
  apply announced_groupings_cases.
Qed.

(** C10 (as the code has it). A turn of the loop fetches a page and the
    provider answers, without error, with a response that has no item
    sequence.  In both revisions that same turn throws: at the read of
    the entry under the cursor ([Contents[0]], after the 'page'
    notification and, in [src/index.ts], after the 'prefix'
    notifications; the cursor has been incremented already), or, in
    [src/index.ts] when the list of groupings of the response holds a
    nullish item, already at the read of that item's [Prefix], after the
    notifications for the groupings before it.  The length of the
    sequence is never read.  The call of [_startRead] catches the
    exception, and so the pull ends, with one 'error' notification that
    carries it; no chunk is pushed, [_stopped] stays down and later
    pulls leave the stream as it is. *)
Theorem absent_contents_fails st err r s' :
  must_fetch st = true →
  listObjectsV2 (next_params st) (_s3 st) = ((err, JVal r), s') →
  not_nullish err = false →
  not_nullish (Contents r) = false →
  _stopped st = false →
  let at_index := TypeError (nullish_value (Contents r)) (Indexed (Some 0)) in
  let fetched := [Call_listObjectsV2 (next_params st);
                  Emit_page (next_params st) (JVal r)] in
  let gs := (announcements r).1 in
  let cause := default at_index (announcements r).2 in
  (∃ st1,
     Index.loop_body st = (Throw cause, st1)
     ∧ (∀ fuel, startRead_from Index.loop_body (Datatypes.S fuel) st
                = (Ok (Some (Caught cause)), report cause st1))
     ∧ (∀ st0 n fuel,
          _stopped st0 = true →
          while_true Index.loop_body n (restart st0) = (Ok None, st) →
          Index._read (n + Datatypes.S fuel) st0 = Some (report cause st1))
     ∧ events (report cause st1)
       = events st ++ fetched ++ prefix_events gs ++ [Emit_error cause]
     ∧ _stopped (report cause st1) = false
     ∧ (∀ fuels, pulls Index._read fuels (report cause st1)
                 = Some (report cause st1))
     ∧ (∀ gs', groupings r = Some gs' → gs = gs' ∧ cause = at_index)
     ∧ (groupings r = None →
        ∃ base, cause = TypeError base (Named "Prefix")))
  ∧ (∃ st1,
       Part000.loop_body st = (Throw at_index, st1)
       ∧ (∀ fuel, startRead_from Part000.loop_body (Datatypes.S fuel) st
                  = (Ok (Some (Caught at_index)), report at_index st1))
       ∧ (∀ st0 n fuel,
            _stopped st0 = true →
            while_true Part000.loop_body n (restart st0) = (Ok None, st) →
            Part000._read (n + Datatypes.S fuel) st0
            = Some (report at_index st1))
       ∧ events (report at_index st1)
         = events st ++ fetched ++ [Emit_error at_index]
       ∧ _stopped (report at_index st1) = false
       ∧ ∀ fuels, pulls Part000._read fuels (report at_index st1)
                  = Some (report at_index st1)).
Proof.
  intros Hfetch Hcall Herr Habsent Hrun at_index fetched gs cause. split.
  - assert (∃ st1, Index.loop_body st = (Throw cause, st1)
                   ∧ events st1 = events st ++ fetched ++ prefix_events gs
                   ∧ _stopped st1 = false) as (st1 & Hturn & Hlog & Hflag).
    { rewrite (Index_turn_fetch st err (JVal r) s' Hfetch Hcall Herr).
      unfold bind at 1.
      rewrite (announce_prefixes_run _ r) by done.
      subst cause gs. destruct (announcements r) as [gs failure]. simpl.
      destruct failure as [e|]; simpl.
      - eexists. split; [done|]. simpl.
        by rewrite <- !(assoc_L (++)).
      - rewrite Index_push_entry_run. simpl.
        exists (advance (logged (prefix_events gs) (loaded st s' (JVal r)))).
        split; [by destruct (Contents r)|]. simpl.
        by rewrite <- !(assoc_L (++)). }
    exists st1. split; [exact Hturn|].
    split; [intros fuel; by apply startRead_from_throw|].
    split.
    { intros st0 n fuel Hstop Hreach.
      apply (read_with_reaches Index.loop_body n (Datatypes.S fuel) st0 st
               (Caught cause)); [done..|].
      by apply startRead_from_throw. }
    split; [simpl; rewrite Hlog; by rewrite <- !(assoc_L (++))|].
    split; [exact Hflag|].
    split; [intros fuels; by apply pulls_running|].
    pose proof (announcements_cases r) as Hcases. subst cause gs. split.
    + intros gs' Hgs. rewrite Hgs in Hcases. by rewrite Hcases.
    + intros Hgs. rewrite Hgs in Hcases. destruct Hcases as [base ->].
      by exists base.
  - exists (advance (loaded st s' (JVal r))).
    assert (Part000.loop_body st
            = (Throw at_index, advance (loaded st s' (JVal r)))) as Hturn.
    { rewrite (Part000_turn_fetch st err (JVal r) s' Hfetch Hcall Herr).
      rewrite Part000_push_entry_run. simpl.
      by destruct (Contents r). }
    split; [exact Hturn|].
    split; [intros fuel; by apply startRead_from_throw|].
    split.
    { intros st0 n fuel Hstop Hreach.
      apply (read_with_reaches Part000.loop_body n (Datatypes.S fuel) st0 st
               (Caught at_index)); [done..|].
      by apply startRead_from_throw. }
    split; [simpl; by rewrite <- !(assoc_L (++))|].
    split; [exact Hrun|].
    intros fuels. by apply pulls_running.
Qed.
End AbsentContents.

(** The failure is not the one of a later [Contents.length]: the turn
    that receives a response without item sequence does not complete, in
    either revision, so that no next turn comes to read the length. *)
Lemma absent_contents_not_at_length :
  ¬ (∃ st1, Index.loop_body stream_without_contents = (Ok Next, st1)
            ∧ ∃ base st2, Index.loop_body st1
                          = (Throw (TypeError base (Named "length")), st2))
  ∧ ¬ (∃ st1, Part000.loop_body stream_without_contents_keys = (Ok Next, st1)
              ∧ ∃ base st2, Part000.loop_body st1
                            = (Throw (TypeError base (Named "length")), st2))
  ∧ errors (events (startRead_from Index.loop_body 3
                      stream_without_contents).2)
    = [TypeError VUndefined (Indexed (Some 0))]
  ∧ errors (events (startRead_from Part000.loop_body 3
                      stream_without_contents_keys).2)
    = [TypeError VUndefined (Indexed (Some 0))].
Proof.
  split; [|split; [|split]].
  - intros (st1 & Hturn & _). vm_compute in Hturn. discriminate Hturn.
  - intros (st1 & Hturn & _). vm_compute in Hturn. discriminate Hturn.
  - vm_compute. reflexivity.
  - vm_compute. reflexivity.
Qed.

Lemma absent_contents_fails_witness :
  (∃ st1, Index.loop_body stream_without_contents
          = (Throw (TypeError VUndefined (Indexed (Some 0))), st1))
  ∧ (∃ st1, Part000.loop_body stream_without_contents_keys
            = (Throw (TypeError VUndefined (Indexed (Some 0))), st1))
  ∧ (∃ st1, Index.loop_body stream_with_null_grouping
            = (Throw (TypeError VNull (Named "Prefix")), st1)
            ∧ Index._read 1 (Index.constructor
                               (MockS3_new [page_with_null_grouping] false)
                               "some-bucket" None None)
              = Some (report (TypeError VNull (Named "Prefix")) st1)).
Proof.
  split; [|split].
  - edestruct (absent_contents_fails stream_without_contents JNull
                 page_without_contents) as [(st1 & Hturn & _) _].
    + vm_compute. reflexivity.
    + vm_compute. reflexivity.
    + reflexivity.
    + reflexivity.
    + reflexivity.
    + exists st1. exact Hturn.
  - edestruct (absent_contents_fails stream_without_contents_keys JNull
                 page_without_contents) as [_ (st1 & Hturn & _)].
    + vm_compute. reflexivity.
    + vm_compute. reflexivity.
    + reflexivity.
    + reflexivity.
    + reflexivity.
    + exists st1. exact Hturn.
  - edestruct (absent_contents_fails stream_with_null_grouping JNull
                 page_with_null_grouping) as [(st1 & Hturn & _ & Hread & _) _].
    + vm_compute. reflexivity.
    + vm_compute. reflexivity.
    + reflexivity.
    + reflexivity.
    + reflexivity.
    + exists st1. split; [exact Hturn|].
      apply (Hread (Index.constructor
                      (MockS3_new [page_with_null_grouping] false)
                      "some-bucket" None None) 0 0); reflexivity.
Defined.

(** ** Whole listings *)

Section ListingFacts.
Lemma objects_app l1 l2 : objects (l1 ++ l2) = objects l1 ++ objects l2.
Proof. apply omap_app. Qed.

(** The entry under the cursor heads what is left of the page. *)
Lemma drop_entry (l : list (Js S3Object)) i :
  objects (drop i l)
  = match entry_at l (Some i) with JVal o => [o] | _ => [] end
    ++ objects (drop (Datatypes.S i) l).
Proof.
  unfold entry_at. destruct (l !! i) as [e|] eqn:Hi; simpl.
  - rewrite (drop_S l e i Hi). by destruct e.
  - apply lookup_ge_None_1 in Hi.
    by rewrite !drop_ge by lia.
Qed.

Lemma remaining_entry mk (l : list (Js S3Object)) i rest :
  remaining mk (drop i l) rest
  = match entry_at l (Some i) with
    | JVal o => [mk o]
    | _ => []
    end ++ remaining mk (drop (Datatypes.S i) l) rest.
Proof.
  unfold remaining. rewrite !objects_app, drop_entry.
  rewrite <- (assoc_L (++)), fmap_app. f_equal.
  by destruct (entry_at l (Some i)).
Qed.

Lemma remaining_page mk pg l rest :
  Contents pg = JVal l →
  remaining mk [] (pg :: rest) = remaining mk (drop 0 l) rest.
Proof.
  intros Hcont. unfold remaining, entries. simpl. by rewrite Hcont.
Qed.

Lemma turns_left_page pg l rest :
  Contents pg = JVal l →
  turns_left (drop 1 l) rest < turns_left [] (pg :: rest).
Proof.
  intros Hcont. unfold turns_left. rewrite fmap_cons. cbn [sum_list].
  replace (entries pg) with l by (unfold entries; by rewrite Hcont).
  rewrite length_drop. simpl. lia.
Qed.

Lemma turns_left_entry (l : list (Js S3Object)) i rest :
  i < length l →
  turns_left (drop (Datatypes.S i) l) rest < turns_left (drop i l) rest.
Proof. intros Hi. unfold turns_left. rewrite !length_drop. lia. Qed.

Lemma request_with_config {S R} (st : Stream S R) :
  next_params st
  = request_with (config st) (continuationToken (_lastResponse st)).
Proof. done. Qed.

Lemma Forall_drop_next {A} (P : A → Prop) (l : list A) i :
  Forall P (drop i l) → Forall P (drop (Datatypes.S i) l).
Proof.
  intros Hall. destruct (l !! i) as [x|] eqn:Hi.
  - rewrite (drop_S l x i Hi) in Hall. by apply Forall_cons in Hall as [_ ?].
  - apply lookup_ge_None_1 in Hi. by rewrite drop_ge by lia.
Qed.

Lemma pushed_deliver {S R} `{!ReadableBase R} c (st : Stream S R) :
  pushed (events (deliver c st)) = pushed (events st) ++ [c].
Proof. simpl. by rewrite pushed_app. Qed.

Lemma pushed_pause {S R} (st : Stream S R) :
  pushed (events (pause st)) = pushed (events st).
Proof. simpl. rewrite pushed_app. simpl. by rewrite app_nil_r. Qed.

Lemma exhausted_cursor {S R} (st : Stream S R) cur l i :
  _lastResponse st = JVal cur → Contents cur = JVal l →
  _currentIndex st = Some i →
  exhausted st = bool_decide (length l ≤ i).
Proof.
  intros Hheld Hcont Hidx. unfold exhausted. by rewrite Hheld, Hcont, Hidx.
Qed.
End ListingFacts.

(** *** Steps through a listing, whatever the revision *)

Section AnyListing.
Context {S R : Type} `{!S3Client S, !ReadableBase R}.
Implicit Types st : Stream S R.
Variable L : Listing.

(** Moving past the entry under the cursor, whatever became of it. *)
Lemma position_past st st' cur l i rest :
  position L st (drop i l) rest →
  _lastResponse st = JVal cur → Contents cur = JVal l →
  _currentIndex st = Some i →
  quiet st st' → _currentIndex st' = Some (Datatypes.S i) →
  pushed (events st')
  = pushed (events st)
    ++ match entry_at l (Some i) with
       | JVal o => [as_chunk L o]
       | _ => []
       end →
  position L st' (drop (Datatypes.S i) l) rest.
Proof.
  intros [Hcfg Hcur Hsrv Hfl Htodo Hrest Hpush Hreq Herr] Hheld Hcont Hidx
    Hq Hidx' Hpushed.
  rewrite Hheld in Hcur, Hsrv.
  destruct Hcur as (l0 & i0 & Hcont0 & Hidx0 & _ & Hflag).
  split.
  - by rewrite (quiet_config _ _ Hq).
  - rewrite (quiet_lastResponse _ _ Hq), Hheld. eauto 6.
  - by rewrite (quiet_s3 _ _ Hq), (quiet_lastResponse _ _ Hq), Hheld.
  - done.
  - by apply Forall_drop_next.
  - done.
  - rewrite Hpushed, <- (assoc_L (++)), <- remaining_entry. done.
  - by rewrite (quiet_requests _ _ Hq).
  - by rewrite (quiet_errors _ _ Hq).
Qed.

(** A nullish entry that the turn only steps over. *)
Lemma skip_step st cur l i rest M K :
  position L st (drop i l) rest →
  _lastResponse st = JVal cur → Contents cur = JVal l →
  _currentIndex st = Some i →
  not_nullish (entry_at l (Some i)) = false →
  turns_left (drop (Datatypes.S i) l) rest < M →
  length (remaining (as_chunk L) (drop i l) rest) ≤ K →
  turn_outcome L M K (Ok Next) (advance st).
Proof.
  intros Hpos Hheld Hcont Hidx Hnull HM HK.
  pose proof (remaining_entry (as_chunk L) l i rest) as Hrem.
  apply (outcome_next _ _ _ _ (drop (Datatypes.S i) l) rest); [|done|].
  - apply (position_past st _ cur l i rest); try done.
    + apply quiet_advance.
    + simpl. by rewrite Hidx.
    + destruct (entry_at l (Some i)); [| |done]; simpl; by rewrite app_nil_r.
  - destruct (entry_at l (Some i)); [| |done]; simpl in Hrem;
      by rewrite <- Hrem.
Qed.

(** An item whose chunk is handed to the reader. *)
Lemma hand_over_step st cur l i o rest M K :
  position L st (drop i l) rest →
  _lastResponse st = JVal cur → Contents cur = JVal l →
  _currentIndex st = Some i →
  entry_at l (Some i) = JVal o →
  turns_left (drop (Datatypes.S i) l) rest < M →
  length (remaining (as_chunk L) (drop i l) rest) ≤ K →
  turn_outcome L M K
    (hand_over (as_chunk L o) (advance st)).1
    (hand_over (as_chunk L o) (advance st)).2.
Proof.
  intros Hpos Hheld Hcont Hidx Hentry HM HK.
  pose proof (remaining_entry (as_chunk L) l i rest) as Hrem.
  rewrite Hentry in Hrem. rewrite Hrem in HK. simpl in HK.
  assert (_currentIndex (advance st) = Some (Datatypes.S i)) as Hadv.
  { simpl. by rewrite Hidx. }
  unfold hand_over. destruct (accepts (as_chunk L o) (advance st)); simpl.
  - apply (outcome_next _ _ _ _ (drop (Datatypes.S i) l) rest); [|done|lia].
    apply (position_past st _ cur l i rest); try done.
    + eapply quiet_trans; [apply quiet_advance|apply quiet_deliver].
    + rewrite Hentry. by rewrite pushed_deliver.
  - apply (outcome_break _ _ _ _ (drop (Datatypes.S i) l) rest); [|done|lia].
    apply (position_past st _ cur l i rest); try done.
    + eapply quiet_trans; [apply quiet_advance|].
      eapply quiet_trans; [apply quiet_deliver|apply quiet_pause].
    + rewrite Hentry. by rewrite pushed_pause, pushed_deliver.
Qed.

(** The stream after a fetch served by the provider, with the local events
    [new] (the prefixes, in [src/index.ts]) in its log, stands at the head
    of the new page. *)
Lemma position_loaded st pg rest err s' l new :
  position L st [] (pg :: rest) →
  listObjectsV2 (next_params st) (_s3 st) = ((err, JVal pg), s') →
  Contents pg = JVal l → Forall (entry_ok L) l →
  forallb is_local new = true → pushed new = [] →
  position L (logged new (loaded st s' (JVal pg))) (drop 0 l) rest.
Proof.
  intros [Hcfg Hcur Hsrv Hfl Htodo Hrest Hpush Hreq Herr] Hcall Hcont Hall
    Hlocal Hnone.
  simpl in Hsrv. destruct Hsrv as (err0 & s0 & Hcall0 & Herr0 & Hsrv).
  rewrite request_with_config, Hcfg in Hcall.
  rewrite Hcall in Hcall0. injection Hcall0 as -> ->.
  destruct Hfl as [Hflag Hfl]. apply Forall_cons in Hrest as [_ Hrest].
  split; simpl.
  - exact Hcfg.
  - exists l, 0. done.
  - exact Hsrv.
  - exact Hfl.
  - exact Hall.
  - exact Hrest.
  - rewrite !pushed_app, Hnone. simpl.
    rewrite !app_nil_r. by rewrite <- (remaining_page _ pg l rest Hcont).
  - rewrite !requests_app, (local_requests new Hlocal). simpl in *.
    rewrite !length_app. simpl. lia.
  - rewrite !errors_app, (local_errors new Hlocal). simpl.
    by rewrite Herr.
Qed.

Lemma position_restart st todo rest :
  position L st todo rest → position L (restart st) todo rest.
Proof.
  intros [Hcfg Hcur Hsrv Hfl Htodo Hrest Hpush Hreq Herr].
  split; simpl; try done.
  - rewrite pushed_app. simpl. by rewrite app_nil_r.
  - rewrite requests_app. simpl. by rewrite app_nil_r.
  - rewrite errors_app. simpl. by rewrite Herr.
Qed.

(** The provider's error, at the request that follows the last page. *)
Lemma refused_step st e data s' M K :
  position L st [] [] → the_ending L = Fails e →
  listObjectsV2 (next_params st) (_s3 st) = ((JVal e, data), s') →
  turn_outcome L M K (Throw (ThrownError e)) (refused st s').
Proof.
  intros [Hcfg Hcur Hsrv Hfl Htodo Hrest Hpush Hreq Herr] Hending Hcall.
  apply outcome_throw; simpl.
  - done.
  - rewrite pushed_app. simpl. rewrite app_nil_r.
    unfold remaining in Hpush. simpl in Hpush.
    by rewrite app_nil_r in Hpush.
  - rewrite requests_app, length_app. simpl in *. lia.
  - rewrite errors_app. simpl. by rewrite Herr.
Qed.

(** What the provider does at that request. *)
Lemma position_fails st e :
  position L st [] [] → the_ending L = Fails e →
  ∃ data s', listObjectsV2 (next_params st) (_s3 st) = ((JVal e, data), s').
Proof.
  intros [Hcfg Hcur Hsrv Hfl Htodo Hrest Hpush Hreq Herr] Hending.
  simpl in Hsrv. rewrite Hending in Hsrv.
  by rewrite request_with_config, Hcfg.
Qed.

(** What the provider does at the request for the next page. *)
Lemma position_serves st pg rest :
  position L st [] (pg :: rest) →
  ∃ err s', listObjectsV2 (next_params st) (_s3 st) = ((err, JVal pg), s')
            ∧ not_nullish err = false.
Proof.
  intros [Hcfg Hcur Hsrv Hfl Htodo Hrest Hpush Hreq Herr].
  simpl in Hsrv. destruct Hsrv as (err & s' & Hcall & Herr' & _).
  rewrite request_with_config, Hcfg. eauto.
Qed.

(** The end of the stream, after the last page. *)
Lemma end_step st M K :
  position L st [] [] → the_ending L = Final →
  turn_outcome L M K (Ok (Return (accepts EOF st))) (deliver EOF st).
Proof.
  intros [Hcfg Hcur Hsrv Hfl Htodo Hrest Hpush Hreq Herr] Hending.
  apply outcome_return; simpl.
  - done.
  - rewrite pushed_app. simpl. f_equal.
    unfold remaining in Hpush. simpl in Hpush.
    by rewrite app_nil_r in Hpush.
  - rewrite requests_app. simpl in *. rewrite app_nil_r. lia.
  - rewrite errors_app. simpl. by rewrite Herr.
Qed.

(** Where the cursor of a stream in the listing can be: on an entry of the
    held page; past the last entry of the last page of a listing that
    ends; or where the next turn has to fetch, with a page or the
    provider's error to come. *)
Lemma position_cases st todo rest :
  position L st todo rest →
  (∃ cur l i, _lastResponse st = JVal cur ∧ Contents cur = JVal l
              ∧ _currentIndex st = Some i ∧ todo = drop i l
              ∧ i < length l ∧ exhausted st = false)
  ∨ (todo = [] ∧ rest = [] ∧ the_ending L = Final ∧ at_end st = true)
  ∨ (todo = [] ∧ must_fetch st = true
     ∧ (rest ≠ [] ∨ ∃ e, the_ending L = Fails e)).
Proof.
  intros Hpos.
  pose proof Hpos as [Hcfg Hcur Hsrv Hfl Htodo Hrest Hpush Hreq Herr].
  destruct (_lastResponse st) as [| |cur] eqn:Hheld; [|done|].
  - destruct Hcur as [-> Hmore]. right. right.
    split; [done|]. split; [unfold must_fetch; by rewrite Hheld|].
    destruct Hmore as [?|Hfails]; [by left|right].
    destruct (the_ending L) as [|e]; [done|by exists e].
  - destruct Hcur as (l & i & Hcont & Hidx & -> & Hflag).
    pose proof (exhausted_cursor st cur l i Hheld Hcont Hidx) as Hex.
    destruct (decide (length l ≤ i)) as [Hout|Hin].
    + rewrite bool_decide_eq_true_2 in Hex by done.
      right. rewrite drop_ge by done.
      unfold flagged in Hflag.
      destruct (truthy (IsTruncated cur)) eqn:Htrunc.
      * right. split; [done|].
        split; [unfold must_fetch; by rewrite Hheld, Hex, Htrunc|].
        destruct rest; [|by left]. right.
        destruct (the_ending L) as [|e]; [done|by exists e].
      * left. destruct rest as [|pg rest]; [|done].
        destruct (the_ending L) as [|e] eqn:Hending; [|done].
        split; [done|]. split; [done|]. split; [done|].
        unfold at_end. by rewrite Hheld, Hex, Htrunc.
    + rewrite bool_decide_eq_false_2 in Hex by done.
      left. exists cur, l, i. repeat (split; [done|]). split; [lia|done].
Qed.

Lemma run_outcome_weaken M K M' K' res st :
  M ≤ M' → K ≤ K' →
  run_outcome L M K res st → run_outcome L M' K' res st.
Proof.
  intros HM HK [st' todo' rest' Hpos Hs Ht Hr
               |result st' He Hp Hq Herr Hs|e st' He Hp Hq Herr Hs].
  - apply (run_paused _ _ _ _ todo' rest'); [done|done|lia|lia].
  - by apply run_ended.
  - by apply run_failed.
Qed.

Lemma run_outcome_listed M K c st' :
  run_outcome L M K (Ok (Some c)) st' →
  listed (the_ending L) (the_total L) (the_pages L) st'
  ∨ ∃ todo' rest', position L st' todo' rest'
                   ∧ _stopped st' = true
                   ∧ turns_left todo' rest' < M
                   ∧ length (remaining (as_chunk L) todo' rest') < K.
Proof.
  intros Hrun. inversion Hrun as [st1 todo' rest' Hpos Hs Ht Hr
                                 |result st1 He Hp Hq Herr Hs
                                 |e st1 He Hp Hq Herr Hs].
  - right. eauto 6.
  - left. unfold listed. by rewrite He.
  - left. unfold listed. by rewrite He.
Qed.

(** *** From the turns to the pulls *)

Section AnyBody.
Variable body : M (S:=S) (R:=R) Flow.
Hypothesis body_outcome :
  ∀ st todo rest,
    position L st todo rest →
    turn_outcome L (turns_left todo rest)
      (length (remaining (as_chunk L) todo rest)) (body st).1 (body st).2.
Hypothesis body_stopped :
  ∀ st, _stopped (body st).2 = stopped_after (body st).1 (_stopped st).

(** What remains of a call of [_startRead], given fuel for the turns
    left: a pause further down, the end, or the provider's error. *)
Lemma run_outcome_from fuel st todo rest :
  position L st todo rest →
  _stopped st = false →
  turns_left todo rest ≤ fuel →
  run_outcome L (turns_left todo rest)
    (length (remaining (as_chunk L) todo rest))
    (startRead_from body fuel st).1 (startRead_from body fuel st).2.
Proof.
  revert st todo rest.
  induction fuel as [|fuel IH]; intros st todo rest Hpos Hrun Hfuel.
  { unfold turns_left in Hfuel. lia. }
  rewrite startRead_from_step.
  pose proof (body_outcome st todo rest Hpos) as Hturn.
  pose proof (body_stopped st) as Hflag.
  destruct (body st) as [res st'] eqn:Hbody. simpl in *.
  destruct Hturn as [st' todo' rest' Hpos' Ht Hr|st' todo' rest' Hpos' Ht Hr
                    |result st' He Hp Hq Herr|e st' He Hp Hq Herr];
    simpl in *.
  - apply (run_outcome_weaken (turns_left todo' rest')
             (length (remaining (as_chunk L) todo' rest'))); [lia|lia|].
    apply IH; [done|congruence|lia].
  - by apply (run_paused _ _ _ _ todo' rest').
  - apply run_ended; [done|done|done|done|congruence].
  - apply run_failed; simpl.
    + done.
    + rewrite pushed_app. simpl. by rewrite app_nil_r.
    + rewrite requests_app. simpl. by rewrite app_nil_r.
    + rewrite errors_app. simpl. by rewrite Herr.
    + congruence.
Qed.

(** One pull on a stream that waits somewhere in the listing. *)
Lemma read_outcome fuel st todo rest :
  position L st todo rest →
  _stopped st = true →
  turns_left todo rest ≤ fuel →
  ∃ st', read_with body fuel st = Some st'
         ∧ (listed (the_ending L) (the_total L) (the_pages L) st'
            ∨ ∃ todo' rest',
                position L st' todo' rest'
                ∧ _stopped st' = true
                ∧ turns_left todo' rest' < turns_left todo rest
                ∧ length (remaining (as_chunk L) todo' rest')
                  < length (remaining (as_chunk L) todo rest)).
Proof.
  intros Hpos Hstop Hfuel.
  pose proof (run_outcome_from fuel (restart st) todo rest
                (position_restart st todo rest Hpos) eq_refl Hfuel) as Hrun.
  rewrite read_with_stopped by done.
  rewrite startRead_with_from.
  destruct (startRead_from body fuel (restart st)) as [res st'] eqn:Hcall.
  simpl in Hrun.
  destruct res as [[c|]|e]; [|by inversion Hrun..].
  exists st'. split; [done|]. by apply run_outcome_listed in Hrun.
Qed.

(** Enough pulls, each with enough fuel, take a waiting stream to the
    end of the listing: every pull but the last ends on a pause, and a
    pause costs at least one chunk. *)
Lemma pulls_listed k :
  ∀ st todo rest fuels,
    position L st todo rest →
    _stopped st = true →
    length (remaining (as_chunk L) todo rest) < k → k ≤ length fuels →
    Forall (λ fuel, turns_left todo rest ≤ fuel) fuels →
    ∃ st', pulls (read_with body) fuels st = Some st'
           ∧ listed (the_ending L) (the_total L) (the_pages L) st'.
Proof.
  induction k as [|k IH]; intros st todo rest fuels Hpos Hstop Hk Hlen Hfuel;
    [lia|].
  destruct fuels as [|fuel fuels]; [simpl in Hlen; lia|].
  apply Forall_cons in Hfuel as [Hfuel Hfuels]. simpl in Hlen.
  destruct (read_outcome fuel st todo rest Hpos Hstop Hfuel)
    as (st1 & Hread & [Hdone|(todo' & rest' & Hpos' & Hstop' & Ht & Hr)]).
  - exists st1. simpl. rewrite Hread. split; [|done].
    apply pulls_running. apply Hdone.
  - destruct (IH st1 todo' rest' fuels Hpos' Hstop') as (st' & Hpulls & Hdone).
    + lia.
    + lia.
    + eapply Forall_impl; [exact Hfuels|]. simpl. intros fuel' Hle. lia.
    + exists st'. simpl. by rewrite Hread.
Qed.
End AnyBody.
End AnyListing.

(** *** [src/index.ts] through a listing *)

Section IndexListing.
Context {S R : Type} `{!S3Client S, !ReadableBase R}.
Implicit Types st : Stream S R.
Variable cfg : string * string * Value * Obj.
Variable ending : Ending.
Variable total : list Chunk.
Variable n : nat.

(** Lines 101-107 on a stream that stands in the listing. *)
Lemma Index_entry_step st cur l i rest M K :
  position (Index_listing_of cfg ending total n) st (drop i l) rest →
  _lastResponse st = JVal cur → Contents cur = JVal l →
  _currentIndex st = Some i →
  turns_left (drop (Datatypes.S i) l) rest < M →
  length (remaining ChunkObject (drop i l) rest) ≤ K →
  turn_outcome (Index_listing_of cfg ending total n) M K
    (Index_entry_outcome (entry_at l (Some i)) (advance st)).1
    (Index_entry_outcome (entry_at l (Some i)) (advance st)).2.
Proof.
  intros Hpos Hheld Hcont Hidx HM HK.
  destruct (entry_at l (Some i)) as [| |o] eqn:Hentry; simpl.
  - apply (skip_step _ st cur l i rest); try done. by rewrite Hentry.
  - apply (skip_step _ st cur l i rest); try done. by rewrite Hentry.
  - by apply (hand_over_step (Index_listing_of cfg ending total n)
                st cur l i o rest).
Qed.

(** Any turn, on a stream that stands in the listing. *)
Lemma Index_turn_outcome st todo rest :
  position (Index_listing_of cfg ending total n) st todo rest →
  turn_outcome (Index_listing_of cfg ending total n) (turns_left todo rest)
    (length (remaining ChunkObject todo rest))
    (Index.loop_body st).1 (Index.loop_body st).2.
Proof.
  intros Hpos.
  destruct (position_cases _ st todo rest Hpos)
    as [(cur & l & i & Hheld & Hcont & Hidx & -> & Hin & Hex)
       |[(-> & -> & Hending & Hend)|(-> & Hfetch & Hmore)]].
  - rewrite (Index_turn_entry st cur l Hheld Hcont Hex), Hidx.
    apply (Index_entry_step st cur l i rest); try done.
    by apply turns_left_entry.
  - rewrite (Index_turn_end st Hend). simpl. by apply end_step.
  - destruct rest as [|pg rest].
    + destruct Hmore as [?|[e Hending]]; [done|].
      destruct (position_fails _ st e Hpos Hending) as (data & s' & Hcall).
      rewrite (Index_turn_fetch_error st e data s' Hfetch Hcall). simpl.
      by apply (refused_step _ st e data s').
    + destruct (position_serves _ st pg rest Hpos)
        as (err & s' & Hcall & Hnoerr).
      pose proof (pos_rest _ _ _ _ Hpos) as Hok.
      apply Forall_cons in Hok as [[Hcont [gs Hgs]] _].
      destruct (Contents pg) as [| |l] eqn:Hcontents; [done..|].
      rewrite (Index_turn_fetch st err (JVal pg) s' Hfetch Hcall Hnoerr).
      unfold bind at 1 2.
      rewrite (announce_prefixes_groupings _ pg gs) by done.
      rewrite (Index_push_entry_held _ pg l) by done.
      apply (Index_entry_step _ pg l 0 rest); try done.
      * apply (position_loaded _ st pg rest err s' l (prefix_events gs));
          try done.
        -- by apply Forall_true.
        -- clear. by induction gs.
        -- apply pushed_prefix_events_of.
      * by apply turns_left_page.
      * by rewrite (remaining_page _ pg l rest).
Qed.
End IndexListing.

Section IndexWholeListing.
Context {S R : Type} `{!S3Client S, !ReadableBase R}.
Implicit Types st : Stream S R.

(** The listing of a whole bucket through [src/index.ts], for a provider
    that serves the pages [pgs] and then, by [ending], nothing more or
    an error: given at least one pull more than there are records, each
    with fuel for the turns of the whole listing, the pulls complete and
    leave the stream at the end of the listing. *)
Lemma Index_listing (s3 : S) bucket bucketPrefix args ending pgs fuels :
  let st0 : Stream S R := Index.constructor s3 bucket bucketPrefix args in
  serves (request_with (config st0)) ending s3 VUndefined pgs →
  flags ending pgs → Forall well_formed pgs →
  pgs ≠ [] ∨ ending ≠ Final →
  length (remaining ChunkObject [] pgs) < length fuels →
  Forall (λ fuel, turns_left [] pgs ≤ fuel) fuels →
  ∃ st', pulls Index._read fuels st0 = Some st'
         ∧ listed ending (remaining ChunkObject [] pgs) (length pgs) st'.
Proof.
  intros st0 Hsrv Hfl Hwf Hmore Hlen Hfuel.
  apply (pulls_listed
           (Index_listing_of (config st0) ending
              (remaining ChunkObject [] pgs) (length pgs))
           Index.loop_body
           (Index_turn_outcome (config st0) ending _ _)
           Index_turn_stopped (length fuels) st0 [] pgs fuels);
    [|done..].
  by split.
Qed.

(** X1. Completeness and order for [src/index.ts].  The provider answers the
    requests of the stream with the pages [pgs], the last of which is the
    first not marked truncated; the pages have an item sequence and
    well-formed groupings; the reader may ask for a pause at any push.
    Given one pull more than there are records, each with fuel for the
    turns of the listing, the pulls complete and the reader has been handed
    exactly the records of the pages, page after page and in the order of
    each page, and then the end-of-stream mark; one request was sent per
    page, no error was reported, and further pulls change nothing. *)
Lemma Index_lists_all_pages (s3 : S) bucket bucketPrefix args pgs fuels :
  let st0 : Stream S R := Index.constructor s3 bucket bucketPrefix args in
  pgs ≠ [] →
  serves (request_with (config st0)) Final s3 VUndefined pgs →
  flags Final pgs → Forall well_formed pgs →
  length (objects (concat (entries <$> pgs))) < length fuels →
  Forall (λ fuel, turns_left [] pgs ≤ fuel) fuels →
  ∃ st', pulls Index._read fuels st0 = Some st'
         ∧ pushed (events st')
           = (ChunkObject <$> objects (concat (entries <$> pgs))) ++ [EOF]
         ∧ length (requests (events st')) = length pgs
         ∧ errors (events st') = []
         ∧ ∀ more, pulls Index._read more st' = Some st'.
Proof.
  intros st0 Hne Hsrv Hfl Hwf Hlen Hfuel.
  destruct (Index_listing s3 bucket bucketPrefix args Final pgs fuels)
    as (st' & Hpulls & Hstop & Hpushed & Hreq & Herr); try done.
  - by left.
  - unfold remaining. by rewrite length_fmap.
  - exists st'. split; [done|]. split; [done|]. split; [done|].
    split; [done|]. intros more. by apply pulls_running.
Qed.

(** X2. Error propagation for [src/index.ts].  The provider answers with the
    pages [pgs], all marked truncated, and then with the error [e]: the
    pulls complete, the reader has been handed exactly the records of
    [pgs] and no end-of-stream mark, one request more than there are pages
    was sent, the only 'error' notification carries [e], and further pulls
    change nothing. *)
Lemma Index_provider_failure (s3 : S) bucket bucketPrefix args pgs e fuels :
  let st0 : Stream S R := Index.constructor s3 bucket bucketPrefix args in
  serves (request_with (config st0)) (Fails e) s3 VUndefined pgs →
  flags (Fails e) pgs → Forall well_formed pgs →
  length (objects (concat (entries <$> pgs))) < length fuels →
  Forall (λ fuel, turns_left [] pgs ≤ fuel) fuels →
  ∃ st', pulls Index._read fuels st0 = Some st'
         ∧ pushed (events st')
           = ChunkObject <$> objects (concat (entries <$> pgs))
         ∧ length (requests (events st')) = Datatypes.S (length pgs)
         ∧ errors (events st') = [ThrownError e]
         ∧ ∀ more, pulls Index._read more st' = Some st'.
Proof.
  intros st0 Hsrv Hfl Hwf Hlen Hfuel.
  destruct (Index_listing s3 bucket bucketPrefix args (Fails e) pgs fuels)
    as (st' & Hpulls & Hstop & Hpushed & Hreq & Herr); try done.
  - by right.
  - unfold remaining. by rewrite length_fmap.
  - exists st'. split; [done|]. split; [done|]. split; [done|].
    split; [done|]. intros more. by apply pulls_running.
Qed.

(** A nullish entry under the cursor of [src/index.ts]: the turn moves the
    cursor past it and does nothing else. *)
Lemma Index_skips_nullish_entry st r l :
  _lastResponse st = JVal r → Contents r = JVal l →
  exhausted st = false →
  not_nullish (entry_at l (_currentIndex st)) = false →
  Index.loop_body st = (Ok Next, advance st).
Proof.
  intros Hheld Hcont Hex Hnull.
  rewrite (Index_turn_entry st r l Hheld Hcont Hex).
  by destruct (entry_at l (_currentIndex st)).
Qed.

(** The same right after a fetch: the first entry of the new page is
    nullish, or the page has no entry at all. *)
Lemma Index_skips_absent_first_entry st err r s' l gs :
  must_fetch st = true →
  listObjectsV2 (next_params st) (_s3 st) = ((err, JVal r), s') →
  not_nullish err = false →
  Contents r = JVal l → groupings r = Some gs →
  not_nullish (entry_at l (Some 0)) = false →
  Index.loop_body st
  = (Ok Next, advance (logged (prefix_events gs) (loaded st s' (JVal r)))).
Proof.
  intros Hfetch Hcall Herr Hcont Hgs Hnull.
  rewrite (Index_turn_fetch st err (JVal r) s' Hfetch Hcall Herr).
  unfold bind at 1.
  rewrite (announce_prefixes_groupings _ r gs) by done.
  rewrite (Index_push_entry_held _ r l) by done. simpl.
  by destruct (entry_at l (Some 0)).
Qed.

(** Whatever the stream holds, a turn of [src/index.ts] pushes at most one
    chunk, and it is a record or the end-of-stream mark. *)
Lemma Index_pushes_records_only st :
  ∃ new, pushed (events (Index.loop_body st).2) = pushed (events st) ++ new
         ∧ (new = [] ∨ new = [EOF] ∨ ∃ o, new = [ChunkObject o]).
Proof.
  assert (∀ e (st1 : Stream S R),
            ∃ new, pushed (events (Index_entry_outcome e st1).2)
                   = pushed (events st1) ++ new
                   ∧ (new = [] ∨ new = [EOF] ∨ ∃ o, new = [ChunkObject o]))
    as Hentry.
  { intros [| |o] st1; simpl; try (exists []; by rewrite app_nil_r; auto).
    exists [ChunkObject o]. split; [|eauto]. unfold hand_over.
    destruct (accepts (ChunkObject o) st1); simpl.
    - by rewrite pushed_app.
    - rewrite !pushed_app. simpl. by rewrite app_nil_r. }
  assert (∀ st1 : Stream S R,
            ∃ new, pushed (events (Index.push_entry st1).2)
                   = pushed (events st1) ++ new
                   ∧ (new = [] ∨ new = [EOF] ∨ ∃ o, new = [ChunkObject o]))
    as Hpush.
  { intros st1. rewrite Index_push_entry_run.
    destruct (_lastResponse st1) as [| |r]; simpl;
      try (exists []; by rewrite app_nil_r; auto).
    destruct (Contents r) as [| |l]; simpl;
      try (exists []; by rewrite app_nil_r; auto).
    apply (Hentry _ (advance st1)). }
  assert (∀ st1 : Stream S R,
            pushed (events (Index.announce_prefixes st1).2)
            = pushed (events st1)) as Hann.
  { intros st1. destruct (announce_prefixes_quiet st1) as [Hq _].
    destruct (quiet_events _ _ Hq) as (new & Hnew & Hloc).
    unfold Index.announce_prefixes, bind, this in *.
    destruct (_lastResponse st1) as [| |r]; simpl in *; try done.
    destruct (CommonPrefixes r) as [| |items]; simpl in *; try done.
    clear. revert st1. induction items as [|[| |g] items IH]; intros st1;
      simpl; try done.
    unfold bind, emit, log. simpl. rewrite IH. simpl.
    rewrite pushed_app. simpl. by rewrite app_nil_r. }
  rewrite Index_loop_body_run.
  destruct ((Index.page_exhausted st).1) as [[]|e]; simpl.
  - destruct (Index.is_last_page st); simpl.
    { exists [EOF]. split; [by rewrite pushed_app|auto]. }
    destruct (listObjectsV2 (next_params st) (_s3 st)) as [[[| |e] data] s'];
      simpl.
    + unfold bind. specialize (Hann (loaded st s' data)).
      destruct (Index.announce_prefixes (loaded st s' data)) as [[[]|e] st1];
        simpl in *.
      * destruct (Hpush st1) as (new & Hnew & Hshape). exists new.
        split; [|done]. rewrite Hnew, Hann, !pushed_app. simpl.
        by rewrite app_nil_r.
      * exists []. rewrite Hann, !pushed_app. simpl. split; [done|auto].
    + unfold bind. specialize (Hann (loaded st s' data)).
      destruct (Index.announce_prefixes (loaded st s' data)) as [[[]|e] st1];
        simpl in *.
      * destruct (Hpush st1) as (new & Hnew & Hshape). exists new.
        split; [|done]. rewrite Hnew, Hann, !pushed_app. simpl.
        by rewrite app_nil_r.
      * exists []. rewrite Hann, !pushed_app. simpl. split; [done|auto].
    + exists []. rewrite !pushed_app. simpl. split; [done|auto].
  - apply Hpush.
  - exists []. rewrite app_nil_r. auto.
Qed.
End IndexWholeListing.

(** *** [part_000] through a listing of populated pages *)

Section Part000Listing.
Context {S R : Type} `{!S3Client S, !ReadableBase R}.
Implicit Types st : Stream S R.
Variable cfg : string * string * Value * Obj.
Variable ending : Ending.
Variable total : list Chunk.
Variable n : nat.

Lemma logged_nothing st : logged [] st = st.
Proof. destruct st. unfold logged. simpl. by rewrite app_nil_r. Qed.

Lemma Part000_entry_outcome_item fullMetadata (o : S3Object) st :
  Part000_entry_outcome fullMetadata (JVal o) st
  = hand_over (Part000_chunk fullMetadata o) st.
Proof.
  unfold Part000_entry_outcome, Part000_chunk.
  by destruct (truthy fullMetadata).
Qed.

(** Lines 113-120 on an item, for a stream that stands in the listing. *)
Lemma Part000_entry_step st cur l i o rest M K :
  position (Part000_listing_of cfg ending total n) st (drop i l) rest →
  _lastResponse st = JVal cur → Contents cur = JVal l →
  _currentIndex st = Some i →
  entry_at l (Some i) = JVal o →
  turns_left (drop (Datatypes.S i) l) rest < M →
  length (remaining (Part000_chunk cfg.1.2) (drop i l) rest) ≤ K →
  turn_outcome (Part000_listing_of cfg ending total n) M K
    (Part000_entry_outcome (_fullMetadata st) (entry_at l (Some i))
       (advance st)).1
    (Part000_entry_outcome (_fullMetadata st) (entry_at l (Some i))
       (advance st)).2.
Proof.
  intros Hpos Hheld Hcont Hidx Hentry HM HK.
  assert (_fullMetadata st = cfg.1.2) as ->.
  { pose proof (pos_config _ _ _ _ Hpos) as Hcfg. simpl in Hcfg.
    by rewrite <- Hcfg. }
  rewrite Hentry, Part000_entry_outcome_item.
  by apply (hand_over_step (Part000_listing_of cfg ending total n)
              st cur l i o rest).
Qed.

(** The entry under a cursor inside a page of objects is an object. *)
Lemma entry_is_object (l : list (Js S3Object)) i :
  Forall (λ e, not_nullish e = true) (drop i l) → i < length l →
  ∃ o, entry_at l (Some i) = JVal o.
Proof.
  intros Hall Hin. destruct (lookup_lt_is_Some_2 l i Hin) as [e Hi].
  rewrite (drop_S l e i Hi) in Hall. apply Forall_cons in Hall as [He _].
  rewrite (entry_at_lookup l i e Hi). destruct e; [done..|by eexists].
Qed.

Lemma items_are_objects (items : list S3Object) :
  Forall (λ e : Js S3Object, not_nullish e = true) (JVal <$> items).
Proof. induction items as [|o items IH]; by constructor. Qed.

Lemma Part000_turn_outcome st todo rest :
  position (Part000_listing_of cfg ending total n) st todo rest →
  turn_outcome (Part000_listing_of cfg ending total n)
    (turns_left todo rest)
    (length (remaining (Part000_chunk cfg.1.2) todo rest))
    (Part000.loop_body st).1 (Part000.loop_body st).2.
Proof.
  intros Hpos.
  destruct (position_cases _ st todo rest Hpos)
    as [(cur & l & i & Hheld & Hcont & Hidx & -> & Hin & Hex)
       |[(-> & -> & Hending & Hend)|(-> & Hfetch & Hmore)]].
  - destruct (entry_is_object l i (pos_todo _ _ _ _ Hpos) Hin) as [o Hentry].
    rewrite (Part000_turn_entry st cur l Hheld Hcont Hex), Hidx.
    apply (Part000_entry_step st cur l i o rest); try done.
    by apply turns_left_entry.
  - rewrite (Part000_turn_end st Hend). simpl. by apply end_step.
  - destruct rest as [|pg rest].
    + destruct Hmore as [?|[e Hending]]; [done|].
      destruct (position_fails _ st e Hpos Hending) as (data & s' & Hcall).
      rewrite (Part000_turn_fetch_error st e data s' Hfetch Hcall). simpl.
      by apply (refused_step _ st e data s').
    + destruct (position_serves _ st pg rest Hpos)
        as (err & s' & Hcall & Hnoerr).
      pose proof (pos_rest _ _ _ _ Hpos) as Hok.
      apply Forall_cons in Hok as [(items & Hcont & Hitems) _].
      destruct items as [|o items]; [done|].
      rewrite (Part000_turn_fetch st err (JVal pg) s' Hfetch Hcall Hnoerr).
      rewrite (Part000_push_entry_held _ pg (JVal <$> o :: items)) by done.
      apply (Part000_entry_step _ pg (JVal <$> o :: items) 0 o rest);
        try done.
      * rewrite <- (logged_nothing (loaded st s' (JVal pg))).
        apply (position_loaded _ st pg rest err s' _ []); try done.
        apply items_are_objects.
      * by apply turns_left_page.
      * by rewrite (remaining_page _ pg _ rest Hcont).
Qed.
End Part000Listing.

Section Part000WholeListing.
Context {S R : Type} `{!S3Client S, !ReadableBase R}.
Implicit Types st : Stream S R.

Lemma Part000_listing (s3 : S) bucket bucketPrefix options args ending pgs
    fuels :
  let st0 : Stream S R :=
    Part000.constructor s3 bucket bucketPrefix options args in
  serves (request_with (config st0)) ending s3 VUndefined pgs →
  flags ending pgs → Forall populated pgs →
  pgs ≠ [] ∨ ending ≠ Final →
  length (remaining (Part000_chunk (_fullMetadata st0)) [] pgs)
    < length fuels →
  Forall (λ fuel, turns_left [] pgs ≤ fuel) fuels →
  ∃ st', pulls Part000._read fuels st0 = Some st'
         ∧ listed ending
             (remaining (Part000_chunk (_fullMetadata st0)) [] pgs)
             (length pgs) st'.
Proof.
  intros st0 Hsrv Hfl Hwf Hmore Hlen Hfuel.
  apply (pulls_listed
           (Part000_listing_of (config st0) ending
              (remaining (Part000_chunk (_fullMetadata st0)) [] pgs)
              (length pgs))
           Part000.loop_body
           (Part000_turn_outcome (config st0) ending _ _)
           Part000_turn_stopped (length fuels) st0 [] pgs fuels);
    [|done..].
  by split.
Qed.

(** X3. Completeness and order for [part_000], on populated pages.  When
    every page the provider serves has at least one entry and all its
    entries are objects, the pulls complete and the reader has been handed
    exactly one chunk per item, in order (the key, or the record in full
    metadata mode), and then the end-of-stream mark. *)
Lemma Part000_lists_populated_pages (s3 : S) bucket bucketPrefix options args
    pgs fuels :
  let st0 : Stream S R :=
    Part000.constructor s3 bucket bucketPrefix options args in
  pgs ≠ [] →
  serves (request_with (config st0)) Final s3 VUndefined pgs →
  flags Final pgs → Forall populated pgs →
  length (objects (concat (entries <$> pgs))) < length fuels →
  Forall (λ fuel, turns_left [] pgs ≤ fuel) fuels →
  ∃ st', pulls Part000._read fuels st0 = Some st'
         ∧ pushed (events st')
           = (Part000_chunk (_fullMetadata st0)
                <$> objects (concat (entries <$> pgs))) ++ [EOF]
         ∧ length (requests (events st')) = length pgs
         ∧ errors (events st') = []
         ∧ ∀ more, pulls Part000._read more st' = Some st'.
Proof.
  intros st0 Hne Hsrv Hfl Hwf Hlen Hfuel.
  destruct (Part000_listing s3 bucket bucketPrefix options args Final pgs
              fuels)
    as (st' & Hpulls & Hstop & Hpushed & Hreq & Herr); try done.
  - by left.
  - unfold remaining. by rewrite length_fmap.
  - exists st'. split; [done|]. split; [done|]. split; [done|].
    split; [done|]. intros more. by apply pulls_running.
Qed.

(** X4. Error propagation for [part_000], on populated pages.  The
    provider answers with the pages [pgs], all marked truncated, each with
    at least one entry and only objects as entries, and then with the
    error [e]: the pulls complete, the reader has been handed one chunk
    per item of [pgs] (key or record, by mode) and no end-of-stream
    mark, one request more than there are pages was sent, the only
    'error' notification carries [e], and further pulls change nothing. *)
Lemma Part000_provider_failure (s3 : S) bucket bucketPrefix options args
    pgs e fuels :
  let st0 : Stream S R :=
    Part000.constructor s3 bucket bucketPrefix options args in
  serves (request_with (config st0)) (Fails e) s3 VUndefined pgs →
  flags (Fails e) pgs → Forall populated pgs →
  length (objects (concat (entries <$> pgs))) < length fuels →
  Forall (λ fuel, turns_left [] pgs ≤ fuel) fuels →
  ∃ st', pulls Part000._read fuels st0 = Some st'
         ∧ pushed (events st')
           = Part000_chunk (_fullMetadata st0)
               <$> objects (concat (entries <$> pgs))
         ∧ length (requests (events st')) = Datatypes.S (length pgs)
         ∧ errors (events st') = [ThrownError e]
         ∧ ∀ more, pulls Part000._read more st' = Some st'.
Proof.
  intros st0 Hsrv Hfl Hwf Hlen Hfuel.
  destruct (Part000_listing s3 bucket bucketPrefix options args (Fails e)
              pgs fuels)
    as (st' & Hpulls & Hstop & Hpushed & Hreq & Herr); try done.
  - by right.
  - unfold remaining. by rewrite length_fmap.
  - exists st'. split; [done|]. split; [done|]. split; [done|].
    split; [done|]. intros more. by apply pulls_running.
Qed.
End Part000WholeListing.

(** ** The revisions side by side on pages without items *)

(** C7 (where [part_000] departs from it).  An empty bucket, that is one
    final page whose item sequence has no entry under the cursor.
    [src/index.ts] skips the absent entry and ends the stream: nothing but
    the end-of-stream mark is pushed, no error is reported.  [part_000]
    does not skip it: with the default options the read of [Key] on the
    absent entry throws, the stream reports a [TypeError] and never ends;
    in full metadata mode the absent entry itself is pushed to the reader
    before the end-of-stream mark. *)
Theorem Part000_absent_entry_not_skipped :
  observed (pulls Index._read [3] empty_bucket) = Some ([EOF], [], 1)
  ∧ observed (pulls Part000._read [3] empty_bucket_keys)
    = Some ([], [TypeError VUndefined (Named "Key")], 1)
  ∧ observed (pulls Part000._read [3] empty_bucket_records)
    = Some ([ChunkValue VUndefined; EOF], [], 1).
Proof. split; [|split]; vm_compute; reflexivity. Qed.

(** C1 (where [part_000] departs from it).  The provider returns a page
    without items, marked truncated, and then a final page of one item.
    [src/index.ts] hands the reader that item and then the end-of-stream
    mark, after two requests.  [part_000], with the default options, stops
    at the first page: the read of [Key] on its absent first entry throws,
    the second page is never requested and its item is never pushed. *)
Theorem Part000_omits_items_after_empty_page :
  observed (pulls Index._read [4] after_empty_page)
  = Some ([ChunkObject (createItem 0); EOF], [], 2)
  ∧ observed (pulls Part000._read [4] after_empty_page_keys)
    = Some ([], [TypeError VUndefined (Named "Key")], 1).
Proof. split; vm_compute; reflexivity. Qed.

(** C5 (where [part_000] departs from it).  The provider returns a page
    without items, marked truncated, and fails on the second request.
    Both revisions report the provider's error once, after two requests.
    [src/index.ts] has pushed nothing, as the first page has no item;
    [part_000] in full metadata mode has pushed [undefined], the absent
    first entry of that page. *)
Theorem Part000_pushes_undefined_before_failure :
  observed (pulls Index._read [4] failing_after_empty_page)
  = Some ([], [ThrownError {| message := "some error" |}], 2)
  ∧ observed (pulls Part000._read [4] failing_after_empty_page_records)
    = Some ([ChunkValue VUndefined],
            [ThrownError {| message := "some error" |}], 2).
Proof. split; vm_compute; reflexivity. Qed.

(** C2 (where [part_000] departs from it).  An empty bucket, listed with
    the default options: after the pull the stream holds a response whose
    items are exhausted by the cursor and which is not marked truncated,
    and yet it has not ended and never will; it has reported a
    [TypeError], and later pulls do nothing.  [src/index.ts] ends on the
    same bucket.  A final page whose first entry is [null], listed in full
    metadata mode: lines 113-116 push that entry, which is the
    end-of-stream mark, while the response still has an entry for the
    cursor.  When [push] answers [true] the loop goes on, and the item
    that follows is pushed after the mark, which is then pushed a second
    time; when it answers [false] the stream pauses there, the item not
    listed.  [src/index.ts] skips the entry and signals the end once,
    after the item. *)
Theorem Part000_termination_departs :
  (∃ st', Part000._read 3 empty_bucket_keys = Some st'
          ∧ at_end st' = true
          ∧ pushed (events st') = []
          ∧ errors (events st') = [TypeError VUndefined (Named "Key")]
          ∧ ∀ fuels, pulls Part000._read fuels st' = Some st')
  ∧ (∃ st', Index._read 3 empty_bucket = Some st'
            ∧ at_end st' = true
            ∧ pushed (events st') = [EOF]
            ∧ errors (events st') = [])
  ∧ (∃ st1, Part000.loop_body (restart null_entry_stream_records)
            = (Ok Next, st1)
            ∧ pushed (events st1) = [EOF]
            ∧ at_end st1 = false)
  ∧ observed (pulls Part000._read [4] null_entry_stream_records)
    = Some ([EOF; ChunkObject (createItem 1); EOF], [], 1)
  ∧ (∃ st', Part000._read 4 null_entry_stream_refused = Some st'
            ∧ pushed (events st') = [EOF]
            ∧ _stopped st' = true
            ∧ at_end st' = false)
  ∧ observed (pulls Index._read [4] null_entry_stream)
    = Some ([ChunkObject (createItem 1); EOF], [], 1).
Proof.
  split; [|split; [|split; [|split; [|split]]]].
  - eexists. split; [vm_compute; reflexivity|].
    split; [vm_compute; reflexivity|]. split; [vm_compute; reflexivity|].
    split; [vm_compute; reflexivity|].
    intros fuels. apply pulls_running. vm_compute. reflexivity.
  - eexists. split; [vm_compute; reflexivity|].
    repeat split; vm_compute; reflexivity.
  - eexists. split; [vm_compute; reflexivity|].
    split; vm_compute; reflexivity.
  - vm_compute. reflexivity.
  - eexists. split; [vm_compute; reflexivity|].
    repeat split; vm_compute; reflexivity.
  - vm_compute. reflexivity.
Qed.

(** ** The theorems at work on the streams of the tests *)

Lemma normal_termination_witness :
  Index._read 3 empty_bucket = Some (deliver EOF empty_page_held)
  ∧ (∃ result st',
       Index._startRead 3 empty_bucket = (Ok (Some (Returned result)), st'))
  ∧ (let st1 := (while_true Part000.loop_body 5
                   (restart (Part000.loop_body
                               (restart test_stream_keys)).2)).2 in
     at_end st1 = true
     ∧ Part000._read 9 (Part000.loop_body (restart test_stream_keys)).2
       = Some (deliver EOF st1)).
Proof.
  destruct (normal_termination_iff empty_bucket 3) as (Hiff & _ & Hends & _).
  split; [|split].
  - destruct (Hends 1 empty_page_held) as [Hindex _];
      [lia|vm_compute; reflexivity|].
    destruct Hindex as [_ Hread]; [vm_compute; reflexivity|].
    by apply Hread.
  - apply Hiff. exists 1, empty_page_held.
    split; [lia|]. split; vm_compute; reflexivity.
  - intros st1.
    destruct (normal_termination_iff
                (Part000.loop_body (restart test_stream_keys)).2 9)
      as (_ & _ & Hkeys & _).
    destruct (Hkeys 5 st1) as [_ Hpart]; [lia|vm_compute; reflexivity|].
    destruct Hpart as [_ Hread]; [vm_compute; reflexivity|].
    split; [vm_compute; reflexivity|]. apply Hread. vm_compute. reflexivity.
Defined.




Lemma prefix_notifications_witness :
  prefixes (events (Index.loop_body delimited_stream).2)
  = [VStr "a/"; VStr "b/"]
  ∧ prefixes (events (Part000.loop_body (restart delimited_stream_keys)).2)
    = [].
Proof.
  split.
  - edestruct (prefix_notifications delimited_stream JNull
                 page_with_prefixes)
      as [(_ & _ & _ & _ & Hprefixes & _) _].
    + vm_compute. reflexivity.
    + vm_compute. reflexivity.
    + reflexivity.
    + instantiate (1 := [{| Prefix := VStr "a/" |};
                         {| Prefix := VStr "b/" |}]).
      reflexivity.
    + exact Hprefixes.
  - edestruct (prefix_notifications (restart delimited_stream_keys) JNull
                 page_with_prefixes)
      as [_ (_ & _ & Hnone)].
    + vm_compute. reflexivity.
    + vm_compute. reflexivity.
    + reflexivity.
    + instantiate (1 := [{| Prefix := VStr "a/" |};
                         {| Prefix := VStr "b/" |}]).
      reflexivity.
    + apply Hnone.
Defined.

(** C8 as it is stated fails on [part_000]: the page with two groupings
    and one item is fetched and listed, 'page' is emitted once, and no
    'prefix' notification is, where the claim calls for two. *)
Lemma Part000_announces_no_prefix :
  CommonPrefixes page_with_prefixes
  = JVal [JVal {| Prefix := VStr "a/" |}; JVal {| Prefix := VStr "b/" |}]
  ∧ ∃ st', Part000._read 3 delimited_stream_keys = Some st'
           ∧ pages (events st') = [JVal page_with_prefixes]
           ∧ pushed (events st') = [ChunkValue (VStr "0.jpg"); EOF]
           ∧ errors (events st') = []
           ∧ prefixes (events st') = []
           ∧ prefixes (events st') ≠ [VStr "a/"; VStr "b/"].
Proof.
  split; [reflexivity|]. eexists. split; [vm_compute; reflexivity|].
  repeat split; try (vm_compute; reflexivity).
  vm_compute. discriminate.
Qed.

(** The three pages of the tests, listed in full by both revisions in front
    of the reader that asks for one pause. *)
Lemma Index_lists_all_pages_witness :
  ∃ st', pulls Index._read (replicate 7 10) test_stream = Some st'
         ∧ pushed (events st')
           = (ChunkObject <$> (createItem <$> seq 0 6)) ++ [EOF]
         ∧ length (requests (events st')) = 3
         ∧ errors (events st') = []
         ∧ ∀ more, pulls Index._read more st' = Some st'.
Proof.
  apply (Index_lists_all_pages (MockS3_new three_pages false) "some-bucket"
           (Some "/some/prefix") (Some {[ "MaxKeys" := VNum 2 ]})
           three_pages (replicate 7 10)).
  - done.
  - simpl. repeat (eexists; eexists; split; [reflexivity|split; [done|]]).
    done.
  - by repeat split.
  - repeat constructor; by eexists.
  - vm_compute. lia.
  - vm_compute. repeat constructor.
Defined.

Lemma Part000_lists_populated_pages_witness :
  ∃ st', pulls Part000._read (replicate 7 10) test_stream_keys = Some st'
         ∧ pushed (events st')
           = (ChunkValue <$> (Key <$> (createItem <$> seq 0 6))) ++ [EOF]
         ∧ length (requests (events st')) = 3
         ∧ errors (events st') = []
         ∧ ∀ more, pulls Part000._read more st' = Some st'.
Proof.
  apply (Part000_lists_populated_pages (MockS3_new three_pages false)
           "some-bucket" (Some "/some/prefix") None
           (Some {[ "MaxKeys" := VNum 2;
                    "ContinuationToken" := VStr "stale" ]})
           three_pages (replicate 7 10)).
  - done.
  - simpl. repeat (eexists; eexists; split; [reflexivity|split; [done|]]).
    done.
  - by repeat split.
  - repeat constructor;
      (eexists [createItem _; createItem _]; by split).
  - vm_compute. lia.
  - vm_compute. repeat constructor.
Defined.

(** The failure test: the provider refuses the first request. *)
Lemma Index_provider_failure_witness :
  ∃ st', pulls Index._read [1] failing_stream = Some st'
         ∧ pushed (events st') = []
         ∧ length (requests (events st')) = 1
         ∧ errors (events st') = [ThrownError {| message := "some error" |}]
         ∧ ∀ more, pulls Index._read more st' = Some st'.
Proof.
  apply (Index_provider_failure (MockS3_new [] true) "some-bucket"
           (Some "/some/prefix") None [] {| message := "some error" |} [1]).
  - simpl. by eexists _, _.
  - done.
  - done.
  - simpl. lia.
  - vm_compute. repeat constructor.
Defined.

(** * Further properties of the code *)

(** ** What the stream asks of the provider *)

Section Interaction.
Context {S R : Type} `{!S3Client S, !ReadableBase R}.
Implicit Types st : Stream S R.
Variable body : M (S:=S) (R:=R) Flow.
Hypothesis body_shape : ∀ st, turn_shape st (body st).1 (body st).2.
Variable cfg : string * string * Value * Obj.
Variable P : S → list Obj → Prop.
Hypothesis P_call :
  ∀ s rq token answer s',
    P s rq → listObjectsV2 (request_with cfg token) s = (answer, s') →
    P s' (rq ++ [request_with cfg token]).

Lemma asked_quiet st st' : quiet st st' → asked cfg P st → asked cfg P st'.
Proof.
  intros Hq [Hcfg HP]. split.
  - by rewrite (quiet_config _ _ Hq).
  - by rewrite (quiet_s3 _ _ Hq), (quiet_requests _ _ Hq).
Qed.

Lemma asked_call st answer s' :
  asked cfg P st →
  listObjectsV2 (next_params st) (_s3 st) = (answer, s') →
  P s' (requests (events st) ++ [next_params st]).
Proof.
  intros [Hcfg HP] Hcall. rewrite request_with_config, Hcfg in *.
  by apply (P_call (_s3 st) _ _ answer).
Qed.

Lemma turn_asked st : asked cfg P st → asked cfg P (body st).2.
Proof.
  intros Hst.
  destruct (body_shape st) as [Hq|e data s' Hcall Hres ->
                              |err data s' Hcall Herr Hq Hobj].
  - by apply (asked_quiet st).
  - split; [apply Hst|]. simpl. rewrite requests_app. simpl.
    by apply (asked_call st (JVal e, data)).
  - apply (asked_quiet (loaded st s' data)); [done|].
    split; [apply Hst|]. simpl. rewrite requests_app. simpl.
    by apply (asked_call st (err, data)).
Qed.

Lemma startRead_from_asked fuel st :
  asked cfg P st → asked cfg P (startRead_from body fuel st).2.
Proof.
  revert st. induction fuel as [|fuel IH]; intros st Hst; [done|].
  rewrite startRead_from_step. pose proof (turn_asked st Hst) as Hturn.
  destruct (body st) as [[[]|e] st'] eqn:Hbody; simpl in *; try done.
  - by apply IH.
  - destruct Hturn as [Hcfg HP]. split; [done|]. simpl.
    rewrite requests_app. simpl. by rewrite app_nil_r.
Qed.

Lemma progress_asked fuel st :
  asked cfg P st → asked cfg P (progress body fuel st).
Proof.
  intros Hst. unfold progress. destruct (_stopped st); [|done].
  rewrite startRead_with_from. apply startRead_from_asked.
  apply (asked_quiet st); [apply quiet_restart|done].
Qed.

Lemma read_with_asked fuel st st' :
  asked cfg P st → read_with body fuel st = Some st' → asked cfg P st'.
Proof.
  intros Hst. pose proof (progress_asked fuel st Hst) as Hp.
  unfold read_with, progress in *. destruct (_stopped st).
  - destruct (startRead_with body fuel st) as [[[c|]|e] st2]; try done.
    by intros [= <-].
  - by intros [= <-].
Qed.

Lemma pulls_asked fuels st st' :
  asked cfg P st → pulls (read_with body) fuels st = Some st' →
  asked cfg P st'.
Proof.
  revert st. induction fuels as [|fuel fuels IH]; intros st Hst; simpl.
  - by intros [= <-].
  - destruct (read_with body fuel st) as [st1|] eqn:Hread; [|done].
    apply IH. by apply (read_with_asked fuel st).
Qed.
End Interaction.

Section RequestFields.
Implicit Types cfg : string * string * Value * Obj.

Lemma request_with_bucket cfg token :
  request_with cfg token !! "Bucket" = Some (VStr cfg.1.1.1).
Proof.
  unfold request_with, assign. apply lookup_union_Some_l.
  apply lookup_insert_eq.
Qed.

Lemma request_with_prefix cfg token :
  request_with cfg token !! "Prefix" = Some (VStr cfg.1.1.2).
Proof.
  unfold request_with, assign. apply lookup_union_Some_l.
  rewrite lookup_insert_ne by done. apply lookup_insert_eq.
Qed.

Lemma request_with_token cfg token :
  request_with cfg token !! "ContinuationToken" = Some token.
Proof.
  unfold request_with, assign. apply lookup_union_Some_l.
  rewrite lookup_insert_ne by done. rewrite lookup_insert_ne by done.
  apply lookup_singleton_eq.
Qed.

(** Any other field is the one of the stream's extra arguments. *)
Lemma request_with_other cfg token k :
  k ≠ "Bucket" → k ≠ "Prefix" → k ≠ "ContinuationToken" →
  request_with cfg token !! k = cfg.2 !! k.
Proof.
  intros Hb Hp Ht. unfold request_with, assign. rewrite lookup_union_r; [done|].
  rewrite lookup_insert_ne by done. rewrite lookup_insert_ne by done.
  by apply lookup_singleton_ne.
Qed.

(** The extra arguments kept by the constructor: the caller's, and the
    default page size when the caller names none. *)
Lemma merged_arguments (listObjectsV2args : option Obj) k :
  assign defaultListObjectsV2Options (default ∅ listObjectsV2args) !! k
  = match default ∅ listObjectsV2args !! k with
    | Some v => Some v
    | None => if decide (k = "MaxKeys") then Some (VNum 1000) else None
    end.
Proof.
  unfold assign, defaultListObjectsV2Options. rewrite lookup_union.
  destruct (default ∅ listObjectsV2args !! k) as [v|]; simpl.
  - by destruct ({["MaxKeys" := VNum 1000]} !! k).
  - destruct (decide (k = "MaxKeys")) as [->|Hk].
    + by rewrite lookup_singleton_eq.
    + by rewrite lookup_singleton_ne.
Qed.

Lemma requests_of_call cfg rq token :
  requests_of cfg rq → requests_of cfg (rq ++ [request_with cfg token]).
Proof.
  intros Hrq. apply Forall_app. split; [done|].
  apply Forall_singleton. by exists token.
Qed.
End RequestFields.

Section RunsOfEitherRevision.
Context {S R : Type} `{!S3Client S, !ReadableBase R}.
Implicit Types st : Stream S R.

(** A relation between the provider and the requests that every call
    keeps holds all along the runs of both revisions. *)
Lemma run_asked (P : S → list Obj → Prop) (s3 : S) bucket bucketPrefix
    options args fuels fuel st st' :
  let a := assign defaultListObjectsV2Options (default ∅ args) in
  (∀ fm s rq token answer s',
     P s rq →
     listObjectsV2
       (request_with (bucket, default "" bucketPrefix, fm, a) token) s
     = (answer, s') →
     P s' (rq ++ [request_with (bucket, default "" bucketPrefix, fm, a)
                    token])) →
  P s3 [] →
  (pulls Index._read fuels (Index.constructor s3 bucket bucketPrefix args)
   = Some st
   ∨ pulls Part000._read fuels
       (Part000.constructor s3 bucket bucketPrefix options args) = Some st) →
  (st' = progress Index.loop_body fuel st
   ∨ st' = progress Part000.loop_body fuel st) →
  ∃ fm, asked (bucket, default "" bucketPrefix, fm, a) P st'.
Proof.
  intros a Hcall Hnew Hpulls Hst'.
  assert (∃ fm, asked (bucket, default "" bucketPrefix, fm, a) P st)
    as [fm Hst].
  { destruct Hpulls as [Hpulls|Hpulls].
    - exists VUndefined.
      eapply (pulls_asked Index.loop_body Index_turn_shape);
        [apply Hcall| |exact Hpulls]. by split.
    - exists (get_prop (Part000.mergedOptions options) "fullMetadata").
      eapply (pulls_asked Part000.loop_body Part000_turn_shape);
        [apply Hcall| |exact Hpulls]. by split. }
  exists fm. destruct Hst' as [->| ->].
  - apply (progress_asked Index.loop_body Index_turn_shape); [apply Hcall|done].
  - apply (progress_asked Part000.loop_body Part000_turn_shape);
      [apply Hcall|done].
Qed.

(** The requests of a run all come from the configuration set by the
    constructor. *)
Lemma run_requests_of (s3 : S) bucket bucketPrefix options args fuels fuel
    st st' :
  (pulls Index._read fuels (Index.constructor s3 bucket bucketPrefix args)
   = Some st
   ∨ pulls Part000._read fuels
       (Part000.constructor s3 bucket bucketPrefix options args) = Some st) →
  (st' = progress Index.loop_body fuel st
   ∨ st' = progress Part000.loop_body fuel st) →
  ∃ fm,
    requests_of
      (bucket, default "" bucketPrefix, fm,
       assign defaultListObjectsV2Options (default ∅ args))
      (requests (events st')).
Proof.
  intros Hpulls Hst'.
  destruct (run_asked
              (λ _ rq, ∃ fm,
                 requests_of
                   (bucket, default "" bucketPrefix, fm,
                    assign defaultListObjectsV2Options (default ∅ args)) rq)
              s3 bucket bucketPrefix options args fuels fuel st st')
    as [fm [_ Hrq]]; try done.
  - intros fm s rq token answer s' [fm' Hrq] _. exists fm'.
    by apply (requests_of_call _ rq token) in Hrq.
  - exists VUndefined. by apply Forall_nil.
Qed.

(** X5. Whatever the caller puts in the extra arguments, every request of
    a stream of either revision names the bucket given to the
    constructor and the prefix given to it (the empty prefix when none
    was given). *)
Theorem requests_name_bucket_and_prefix
    (s3 : S) (bucket : string) (bucketPrefix : option string)
    (options listObjectsV2args : option Obj)
    (fuels : list nat) (fuel : nat) st st' p :
  (pulls Index._read fuels
     (Index.constructor s3 bucket bucketPrefix listObjectsV2args) = Some st
   ∨ pulls Part000._read fuels
       (Part000.constructor s3 bucket bucketPrefix options
          listObjectsV2args) = Some st) →
  (st' = progress Index.loop_body fuel st
   ∨ st' = progress Part000.loop_body fuel st) →
  p ∈ requests (events st') →
  p !! "Bucket" = Some (VStr bucket)
  ∧ p !! "Prefix" = Some (VStr (default "" bucketPrefix)).
Proof.
  intros Hpulls Hst' Hp.
  destruct (run_requests_of s3 bucket bucketPrefix options listObjectsV2args
              fuels fuel st st' Hpulls Hst') as [fm Hrq].
  unfold requests_of in Hrq. rewrite Forall_forall in Hrq.
  destruct (Hrq p Hp) as [token ->].
  split; [apply request_with_bucket|apply request_with_prefix].
Qed.

(** X6. Every request of a stream of either revision carries the
    caller's extra arguments as they were given to the constructor, and
    a page size of 1000 when the caller named none; nothing else is
    added besides the three pagination fields. *)
Theorem requests_carry_caller_arguments
    (s3 : S) (bucket : string) (bucketPrefix : option string)
    (options listObjectsV2args : option Obj)
    (fuels : list nat) (fuel : nat) st st' p k :
  (pulls Index._read fuels
     (Index.constructor s3 bucket bucketPrefix listObjectsV2args) = Some st
   ∨ pulls Part000._read fuels
       (Part000.constructor s3 bucket bucketPrefix options
          listObjectsV2args) = Some st) →
  (st' = progress Index.loop_body fuel st
   ∨ st' = progress Part000.loop_body fuel st) →
  p ∈ requests (events st') →
  k ≠ "Bucket" → k ≠ "Prefix" → k ≠ "ContinuationToken" →
  p !! k
  = match default ∅ listObjectsV2args !! k with
    | Some v => Some v
    | None => if decide (k = "MaxKeys") then Some (VNum 1000) else None
    end.
Proof.
  intros Hpulls Hst' Hp Hb Hpre Ht.
  destruct (run_requests_of s3 bucket bucketPrefix options listObjectsV2args
              fuels fuel st st' Hpulls Hst') as [fm Hrq].
  unfold requests_of in Hrq. rewrite Forall_forall in Hrq.
  destruct (Hrq p Hp) as [token ->].
  rewrite request_with_other by done. apply merged_arguments.
Qed.
End RunsOfEitherRevision.

Section TokenlessPage.
Context {S R : Type} `{!S3Client S, !ReadableBase R}.
Implicit Types st : Stream S R.

(** The chain of continuation tokens, along the runs of both revisions. *)
Lemma run_chained (s3 : S) bucket bucketPrefix options args fuels fuel
    st st' :
  (pulls Index._read fuels (Index.constructor s3 bucket bucketPrefix args)
   = Some st
   ∨ pulls Part000._read fuels
       (Part000.constructor s3 bucket bucketPrefix options args) = Some st) →
  (st' = progress Index.loop_body fuel st
   ∨ st' = progress Part000.loop_body fuel st) →
  chained (requests (events st')) (pages (events st')).
Proof.
  intros Hpulls Hst'.
  assert (chain_invariant st) as Hinv.
  { destruct Hpulls as [Hpulls|Hpulls].
    - apply (pulls_chained Index.loop_body Index_turn_shape
               Index_turn_stopped fuels _ st (Index_constructed_invariant
               s3 bucket bucketPrefix args) Hpulls).
    - apply (pulls_chained Part000.loop_body Part000_turn_shape
               Part000_turn_stopped fuels _ st
               (Part000_constructed_invariant s3 bucket bucketPrefix options
                  args) Hpulls). }
  destruct Hst' as [->| ->].
  - by apply (progress_chained Index.loop_body Index_turn_shape
                Index_turn_stopped).
  - by apply (progress_chained Part000.loop_body Part000_turn_shape
                Part000_turn_stopped).
Qed.

(** X7. A response that carries no next-token, yet is followed by a
    request (it was marked truncated), is followed by the very request
    the stream sent first: the listing starts over. *)
Theorem request_after_tokenless_page_is_the_first
    (s3 : S) (bucket : string) (bucketPrefix : option string)
    (options listObjectsV2args : option Obj)
    (fuels : list nat) (fuel : nat) st st' j r p :
  (pulls Index._read fuels
     (Index.constructor s3 bucket bucketPrefix listObjectsV2args) = Some st
   ∨ pulls Part000._read fuels
       (Part000.constructor s3 bucket bucketPrefix options
          listObjectsV2args) = Some st) →
  (st' = progress Index.loop_body fuel st
   ∨ st' = progress Part000.loop_body fuel st) →
  pages (events st') !! j = Some (JVal r) →
  NextContinuationToken r = VUndefined →
  requests (events st') !! Datatypes.S j = Some p →
  requests (events st') !! 0 = Some p.
Proof.
  intros Hpulls Hst' Hpage Htoken Hp.
  pose proof (run_chained s3 bucket bucketPrefix options listObjectsV2args
                fuels fuel st st' Hpulls Hst') as Hch.
  destruct (run_requests_of s3 bucket bucketPrefix options listObjectsV2args
              fuels fuel st st' Hpulls Hst') as [fm Hrq].
  unfold requests_of in Hrq. rewrite Forall_forall in Hrq.
  destruct (lookup_lt_is_Some_2 (requests (events st')) 0) as [p0 Hp0].
  { apply lookup_lt_Some in Hp. lia. }
  destruct (Hrq p (list_elem_of_lookup_2 _ _ _ Hp)) as [token ->].
  destruct (Hrq p0 (list_elem_of_lookup_2 _ _ _ Hp0)) as [token0 ->].
  pose proof (Hch 0 _ Hp0) as H0. simpl in H0.
  destruct (Hch (Datatypes.S j) _ Hp) as (r' & Hr' & Hj).
  rewrite request_with_token in H0, Hj.
  rewrite Hpage in Hr'. injection Hr' as <-. rewrite Htoken in Hj.
  injection H0 as ->. injection Hj as ->. exact Hp0.
Qed.
End TokenlessPage.

(** ** The books of the mock provider ([part_001] 9-37) *)

Section MockBooks.
Context {R : Type} `{!ReadableBase R}.
Implicit Types st : Stream MockS3 R.

Lemma MockS3_books_call before s rq p answer s' :
  MockS3_books before s rq → listObjectsV2 p s = (answer, s') →
  MockS3_books before s' (rq ++ [p]).
Proof.
  intros (Hrp & Hpg & Hfail & Hcur). unfold listObjectsV2, MockS3_client.
  rewrite Hfail. unfold MockS3_books. rewrite length_app. simpl.
  destruct (_shouldFail before); intros [= <- <-]; simpl;
    rewrite Hrp, <- (assoc_L (++)); repeat split; try done; lia.
Qed.

(** X8. The mock provider of the tests, in front of a stream of either
    revision: what it has recorded in [receivedParams] is exactly the
    sequence of requests the stream has sent, in order; its pages and
    its failure switch are never touched; its page counter is the number
    of requests, and stays at zero when it is a failing mock. *)
Theorem MockS3_records_every_request
    (mockedPages : list ListObjectsV2Output) (shouldFail : bool)
    (bucket : string) (bucketPrefix : option string)
    (options listObjectsV2args : option Obj)
    (fuels : list nat) (fuel : nat) st st' :
  (pulls Index._read fuels
     (Index.constructor (MockS3_new mockedPages shouldFail) bucket
        bucketPrefix listObjectsV2args) = Some st
   ∨ pulls Part000._read fuels
       (Part000.constructor (MockS3_new mockedPages shouldFail) bucket
          bucketPrefix options listObjectsV2args) = Some st) →
  (st' = progress Index.loop_body fuel st
   ∨ st' = progress Part000.loop_body fuel st) →
  receivedParams (_s3 st') = requests (events st')
  ∧ _mockedPages (_s3 st') = mockedPages
  ∧ _shouldFail (_s3 st') = shouldFail
  ∧ _currentPage (_s3 st')
    = if shouldFail then 0 else length (requests (events st')).
Proof.
  intros Hpulls Hst'.
  destruct (run_asked (MockS3_books (MockS3_new mockedPages shouldFail))
              (MockS3_new mockedPages shouldFail) bucket bucketPrefix
              options listObjectsV2args fuels fuel st st')
    as [fm [_ Hbooks]]; try done.
  - intros fm s rq token answer s'. apply MockS3_books_call.
  - unfold MockS3_books. simpl. by destruct shouldFail.
Qed.
End MockBooks.

(** ** The options handed to the base class ([part_000] 45-53) *)

Section OtherOptions.
Context {S R : Type} `{!S3Client S, !ReadableBase R}.

(** X9. The base class of a [part_000] stream is built from options that
    hold every option of the caller other than [fullMetadata] and
    [objectMode] exactly as the caller gave it (absent when the caller
    gave none), and that always hold a [fullMetadata]: the caller's, or
    [false]. *)
Theorem other_options_reach_the_base_class
    (s3 : S) (bucket : string) (bucketPrefix : option string)
    (options listObjectsV2args : option Obj) :
  ∃ merged,
    readable (Part000.constructor s3 bucket bucketPrefix options
                listObjectsV2args : Stream S R) = Readable_new merged
    ∧ merged !! "fullMetadata"
      = Some (default (VBool false) (default ∅ options !! "fullMetadata"))
    ∧ ∀ k, k ≠ "fullMetadata" → k ≠ "objectMode" →
           merged !! k = default ∅ options !! k.
Proof.
  exists (Part000.mergedOptions options). split; [done|].
  assert (∀ k, k ≠ "objectMode" →
               Part000.mergedOptions options !! k
               = assign Part000.defaultOptions (default ∅ options) !! k)
    as Hsame.
  { intros k Hk. unfold Part000.mergedOptions.
    destruct (truthy _); [|done]. by rewrite lookup_insert_ne. }
  split.
  - rewrite Hsame by done. unfold assign, Part000.defaultOptions.
    rewrite lookup_union.
    destruct (default ∅ options !! "fullMetadata") as [v|]; simpl;
      by rewrite lookup_singleton_eq.
  - intros k Hfm Hom. rewrite Hsame by done.
    unfold assign, Part000.defaultOptions. rewrite lookup_union.
    rewrite lookup_singleton_ne by done.
    by destruct (default ∅ options !! k).
Qed.
End OtherOptions.

(** ** A provider that answers with neither error nor data *)

Section NoData.
Context {S R : Type} `{!S3Client S, !ReadableBase R}.
Implicit Types st : Stream S R.

Lemma announce_prefixes_nothing_held st :
  not_nullish (_lastResponse st) = false →
  Index.announce_prefixes st
  = (Throw (TypeError (nullish_value (_lastResponse st))
              (Named "CommonPrefixes")), st).
Proof.
  intros Hlast. unfold Index.announce_prefixes, bind, this.
  by destruct (_lastResponse st).
Qed.

(** X10. A turn of the loop fetches a page and the provider calls back
    with no error and no data ([undefined] or [null], as the mock of the
    tests does once its pages are used up).  Both revisions hold the
    absent response, emit 'page' for it and then throw on the first
    property they read from it: [CommonPrefixes] in [src/index.ts],
    [Contents] in [part_000].  The call of [_startRead] ends with one
    'error' notification carrying that [TypeError]; nothing is pushed,
    no end of stream is signalled, and later pulls leave the stream as it
    is. *)
Theorem answer_without_data_fails st err data s' :
  must_fetch st = true →
  listObjectsV2 (next_params st) (_s3 st) = ((err, data), s') →
  not_nullish err = false →
  not_nullish data = false →
  _stopped st = false →
  let held := loaded st s' data in
  let fetched := [Call_listObjectsV2 (next_params st);
                  Emit_page (next_params st) data] in
  (let cause := TypeError (nullish_value data) (Named "CommonPrefixes") in
   Index.loop_body st = (Throw cause, held)
   ∧ (∀ fuel, startRead_from Index.loop_body (Datatypes.S fuel) st
              = (Ok (Some (Caught cause)), report cause held))
   ∧ events (report cause held) = events st ++ fetched ++ [Emit_error cause]
   ∧ pushed (events (report cause held)) = pushed (events st)
   ∧ ∀ fuels, pulls Index._read fuels (report cause held)
              = Some (report cause held))
  ∧ (let cause := TypeError (nullish_value data) (Named "Contents") in
     Part000.loop_body st = (Throw cause, held)
     ∧ (∀ fuel, startRead_from Part000.loop_body (Datatypes.S fuel) st
                = (Ok (Some (Caught cause)), report cause held))
     ∧ events (report cause held)
       = events st ++ fetched ++ [Emit_error cause]
     ∧ pushed (events (report cause held)) = pushed (events st)
     ∧ ∀ fuels, pulls Part000._read fuels (report cause held)
                = Some (report cause held)).
Proof.
  intros Hfetch Hcall Herr Hdata Hrun held fetched.
  assert (∀ cause,
            events (report cause held)
            = events st ++ fetched ++ [Emit_error cause]) as Hlog.
  { intros cause. simpl. by rewrite <- !(assoc_L (++)). }
  assert (∀ cause,
            pushed (events (report cause held)) = pushed (events st))
    as Hpushed.
  { intros cause. rewrite Hlog, !pushed_app. simpl. by rewrite app_nil_r. }
  split.
  - intros cause.
    assert (Index.loop_body st = (Throw cause, held)) as Hturn.
    { rewrite (Index_turn_fetch st err data s' Hfetch Hcall Herr).
      unfold bind. by rewrite announce_prefixes_nothing_held. }
    split; [exact Hturn|].
    split; [intros fuel; by apply startRead_from_throw|].
    split; [apply Hlog|]. split; [apply Hpushed|].
    intros fuels. by apply pulls_running.
  - intros cause.
    assert (Part000.loop_body st = (Throw cause, held)) as Hturn.
    { rewrite (Part000_turn_fetch st err data s' Hfetch Hcall Herr).
      rewrite Part000_push_entry_run. subst held cause. simpl.
      by destruct data. }
    split; [exact Hturn|].
    split; [intros fuel; by apply startRead_from_throw|].
    split; [apply Hlog|]. split; [apply Hpushed|].
    intros fuels. by apply pulls_running.
Qed.
End NoData.

(** ** The mock provider in front of the stream ([part_001]) *)

Section MockedBucket.
Implicit Types pgs : list ListObjectsV2Output.

(** A mock that does not fail serves its pages from its counter on, one
    per call, whatever it is asked. *)
Lemma MockS3_serves (request : Value → Obj) served pgs rp token :
  serves request Final
    {| _mockedPages := served ++ pgs; _currentPage := length served;
       _shouldFail := false; receivedParams := rp |} token pgs.
Proof.
  revert served rp token. induction pgs as [|pg pgs IH];
    intros served rp token; [done|].
  simpl. eexists JNull, _. split; [|split; [done|]].
  - rewrite lookup_app_r, Nat.sub_diag by done. simpl. reflexivity.
  - replace (served ++ pg :: pgs) with ((served ++ [pg]) ++ pgs)
      by (by rewrite <- (assoc_L (++))).
    replace (Datatypes.S (length served)) with (length (served ++ [pg]))
      by (rewrite length_app; simpl; lia).
    apply IH.
Qed.

Lemma MockS3_new_serves (request : Value → Obj) pgs :
  serves request Final (MockS3_new pgs false) VUndefined pgs.
Proof. apply (MockS3_serves request [] pgs [] VUndefined). Qed.

(** A failing mock refuses the first call. *)
Lemma MockS3_new_fails (request : Value → Obj) pgs :
  serves request (Fails {| message := "some error" |}) (MockS3_new pgs true)
    VUndefined [].
Proof. simpl. by eexists _, _. Qed.

Lemma entries_createPage numItems startCount last :
  entries (createPage numItems startCount last)
  = JVal <$> (createItem <$> seq startCount numItems).
Proof. unfold entries. simpl. by rewrite <- list_fmap_compose. Qed.

Lemma objects_of_items (items : list S3Object) :
  objects (JVal <$> items) = items.
Proof.
  induction items as [|o items IH]; [done|].
  unfold objects in *. rewrite fmap_cons. cbn [omap list_omap].
  by rewrite IH.
Qed.

Lemma consecutive_entries sizes startCount :
  concat (entries <$> consecutive_pages sizes startCount)
  = JVal <$> (createItem <$> seq startCount (sum_list sizes)).
Proof.
  revert startCount. induction sizes as [|n sizes IH]; intros startCount;
    [done|].
  simpl. rewrite IH, entries_createPage.
  by rewrite seq_app, !fmap_app.
Qed.

Lemma consecutive_length sizes startCount :
  length (consecutive_pages sizes startCount) = length sizes.
Proof.
  revert startCount. induction sizes as [|n sizes IH]; intros startCount;
    [done|].
  simpl. by rewrite IH.
Qed.

Lemma consecutive_flags sizes startCount :
  flags Final (consecutive_pages sizes startCount).
Proof.
  revert startCount. induction sizes as [|n sizes IH]; intros startCount;
    [done|].
  simpl. split; [|apply IH]. unfold flagged. simpl.
  by destruct sizes.
Qed.

Lemma createPage_well_formed numItems startCount last :
  well_formed (createPage numItems startCount last).
Proof. split; [done|]. by exists []. Qed.

Lemma consecutive_well_formed sizes startCount :
  Forall well_formed (consecutive_pages sizes startCount).
Proof.
  revert startCount. induction sizes as [|n sizes IH]; intros startCount;
    [by constructor|].
  simpl. constructor; [apply createPage_well_formed|apply IH].
Qed.

Lemma consecutive_populated sizes startCount :
  Forall (λ numItems, 0 < numItems) sizes →
  Forall populated (consecutive_pages sizes startCount).
Proof.
  revert startCount. induction sizes as [|n sizes IH]; intros startCount Hpos;
    [by constructor|].
  apply Forall_cons in Hpos as [Hn Hpos]. simpl. constructor; [|by apply IH].
  exists (createItem <$> seq startCount n). split.
  - simpl. by rewrite <- list_fmap_compose.
  - destruct n; [lia|done].
Qed.

Lemma consecutive_turns sizes startCount :
  turns_left [] (consecutive_pages sizes startCount)
  = sum_list sizes + length sizes + 1.
Proof.
  unfold turns_left. simpl. f_equal.
  revert startCount. induction sizes as [|n sizes IH]; intros startCount;
    [done|].
  simpl. rewrite IH, entries_createPage, !length_fmap, length_seq. lia.
Qed.

Lemma consecutive_nonempty sizes startCount :
  sizes ≠ [] → consecutive_pages sizes startCount ≠ [].
Proof. by destruct sizes. Qed.
End MockedBucket.

Section MockedListing.
Context {R : Type} `{!ReadableBase R}.

Lemma consecutive_remaining mk sizes startCount :
  remaining mk [] (consecutive_pages sizes startCount)
  = mk <$> (createItem <$> seq startCount (sum_list sizes)).
Proof.
  unfold remaining. simpl. by rewrite consecutive_entries, objects_of_items.
Qed.

(** X11. The first test of [part_001], for any layout of the mocked bucket
    and any reader.  The mock holds pages built by [createPage], of any
    sizes (empty pages included), numbered consecutively from
    [startCount], the last one built with [last = true]; the item
    numbers stay in the range where the numbers of JavaScript are exact
    ([exact_numbers]: a hundred times the number that follows the last
    item is at most [2^53]).  Given one pull more than there are items,
    [src/index.ts] hands the reader the records number [startCount],
    [startCount + 1], ... in this order, each once, and then the
    end-of-stream mark; it has sent one request per page and reported no
    error. *)
Theorem Index_lists_the_mocked_bucket
    (sizes : list nat) (startCount : nat) (bucket : string)
    (bucketPrefix : option string) (listObjectsV2args : option Obj)
    (fuels : list nat) :
  sizes ≠ [] →
  exact_numbers (startCount + sum_list sizes) →
  sum_list sizes < length fuels →
  Forall (λ fuel, sum_list sizes + length sizes + 1 ≤ fuel) fuels →
  ∃ st' : Stream MockS3 R,
    pulls Index._read fuels
      (Index.constructor
         (MockS3_new (consecutive_pages sizes startCount) false)
         bucket bucketPrefix listObjectsV2args) = Some st'
    ∧ pushed (events st')
      = (ChunkObject <$> (createItem <$> seq startCount (sum_list sizes)))
        ++ [EOF]
    ∧ length (requests (events st')) = length sizes
    ∧ errors (events st') = []
    ∧ _stopped st' = false.
Proof.
  intros Hne _ Hlen Hfuel.
  destruct (Index_listing
              (MockS3_new (consecutive_pages sizes startCount) false)
              bucket bucketPrefix listObjectsV2args Final
              (consecutive_pages sizes startCount) fuels)
    as (st' & Hpulls & Hstop & Hpushed & Hreq & Herr).
  - apply MockS3_new_serves.
  - apply consecutive_flags.
  - apply consecutive_well_formed.
  - left. by apply consecutive_nonempty.
  - by rewrite consecutive_remaining, !length_fmap, length_seq.
  - by rewrite consecutive_turns.
  - exists st'. rewrite consecutive_remaining in Hpushed.
    rewrite consecutive_length in Hreq. done.
Qed.

(** X12. The first two tests of [part_001] for [part_000], for any
    layout of the mocked bucket without an empty page and any reader.
    The mock holds pages built by [createPage], of any positive sizes,
    numbered consecutively from [startCount], the last one built with
    [last = true]; the item numbers stay in the range where the numbers
    of JavaScript are exact ([exact_numbers]: a hundred times the number
    that follows the last item is at most [2^53]).  Given one pull more
    than there are items, the reader
    is handed the keys [startCount.jpg], [startCount+1.jpg], ... in this
    order, each once (the records themselves when the stream was built
    with a truthy [fullMetadata]), and then the end-of-stream mark; one
    request per page was sent and no error reported. *)
Theorem Part000_lists_the_mocked_bucket
    (sizes : list nat) (startCount : nat) (bucket : string)
    (bucketPrefix : option string) (options listObjectsV2args : option Obj)
    (fuels : list nat) :
  sizes ≠ [] →
  exact_numbers (startCount + sum_list sizes) →
  Forall (λ numItems, 0 < numItems) sizes →
  sum_list sizes < length fuels →
  Forall (λ fuel, sum_list sizes + length sizes + 1 ≤ fuel) fuels →
  let requested :=
    default (VBool false) (default ∅ options !! "fullMetadata") in
  ∃ st' : Stream MockS3 R,
    pulls Part000._read fuels
      (Part000.constructor
         (MockS3_new (consecutive_pages sizes startCount) false)
         bucket bucketPrefix options listObjectsV2args) = Some st'
    ∧ pushed (events st')
      = ((λ n, if truthy requested then ChunkObject (createItem n)
               else ChunkValue (VStr (decimal n +:+ ".jpg")))
           <$> seq startCount (sum_list sizes))
        ++ [EOF]
    ∧ length (requests (events st')) = length sizes
    ∧ errors (events st') = []
    ∧ _stopped st' = false.
Proof.
  intros Hne _ Hpos Hlen Hfuel requested.
  destruct (Part000_listing
              (MockS3_new (consecutive_pages sizes startCount) false)
              bucket bucketPrefix options listObjectsV2args Final
              (consecutive_pages sizes startCount) fuels)
    as (st' & Hpulls & Hstop & Hpushed & Hreq & Herr).
  - apply MockS3_new_serves.
  - apply consecutive_flags.
  - by apply consecutive_populated.
  - left. by apply consecutive_nonempty.
  - by rewrite consecutive_remaining, !length_fmap, length_seq.
  - by rewrite consecutive_turns.
  - exists st'. rewrite consecutive_remaining in Hpushed.
    rewrite consecutive_length in Hreq.
    split; [done|]. split; [|done].
    rewrite Hpushed. f_equal. rewrite <- list_fmap_compose.
    apply list_fmap_ext. intros i n _. simpl.
    rewrite merged_mode. fold requested. unfold Part000_chunk.
    by destruct (truthy requested).
Qed.

(** X13. The failure test of [part_001], for any pages, arguments and
    reader: in front of a mock built to fail, the first pull of either
    revision sends one request, reports the mock's error ("some error")
    once, pushes nothing and leaves [_stopped] down, so that the stream
    neither ends nor asks again. *)
Theorem failing_mock_reports_its_error
    (mockedPages : list ListObjectsV2Output) (bucket : string)
    (bucketPrefix : option string) (options listObjectsV2args : option Obj)
    (fuels : list nat) :
  fuels ≠ [] →
  Forall (λ fuel, 1 ≤ fuel) fuels →
  (∃ st' : Stream MockS3 R,
     pulls Index._read fuels
       (Index.constructor (MockS3_new mockedPages true) bucket bucketPrefix
          listObjectsV2args) = Some st'
     ∧ pushed (events st') = []
     ∧ errors (events st') = [ThrownError {| message := "some error" |}]
     ∧ length (requests (events st')) = 1
     ∧ _stopped st' = false)
  ∧ (∃ st' : Stream MockS3 R,
       pulls Part000._read fuels
         (Part000.constructor (MockS3_new mockedPages true) bucket
            bucketPrefix options listObjectsV2args) = Some st'
       ∧ pushed (events st') = []
       ∧ errors (events st') = [ThrownError {| message := "some error" |}]
       ∧ length (requests (events st')) = 1
       ∧ _stopped st' = false).
Proof.
  intros Hne Hfuel.
  assert (0 < length fuels) as Hlen by (destruct fuels; [done|simpl; lia]).
  split.
  - destruct (Index_listing (MockS3_new mockedPages true) bucket
                bucketPrefix listObjectsV2args
                (Fails {| message := "some error" |}) [] fuels)
      as (st' & Hpulls & Hstop & Hpushed & Hreq & Herr);
      [apply MockS3_new_fails|done|done|by right|done|done|].
    by exists st'.
  - destruct (Part000_listing (MockS3_new mockedPages true) bucket
                bucketPrefix options listObjectsV2args
                (Fails {| message := "some error" |}) [] fuels)
      as (st' & Hpulls & Hstop & Hpushed & Hreq & Herr);
      [apply MockS3_new_fails|done|done|by right|done|done|].
    by exists st'.
Qed.
End MockedListing.

(** ** The two revisions side by side *)

Section Revisions.
Context {S R : Type} `{!S3Client S, !ReadableBase R}.

(** X14. The two revisions in front of the same provider, with the same
    bucket, prefix and extra arguments, on a listing whose pages all
    have at least one entry, only objects as entries and, where they
    have groupings, only objects as groupings: both complete,
    with as many requests and no error, and [part_000] hands the reader
    the chunks of [src/index.ts], in the same order: as they are in
    full metadata mode, reduced to their key otherwise. *)
Theorem revisions_agree_on_populated_pages
    (s3 : S) (bucket : string) (bucketPrefix : option string)
    (options listObjectsV2args : option Obj)
    (pgs : list ListObjectsV2Output) (fuels : list nat) :
  let stI : Stream S R :=
    Index.constructor s3 bucket bucketPrefix listObjectsV2args in
  let stP : Stream S R :=
    Part000.constructor s3 bucket bucketPrefix options listObjectsV2args in
  pgs ≠ [] →
  serves (request_with (config stI)) Final s3 VUndefined pgs →
  flags Final pgs → Forall populated pgs → Forall well_formed pgs →
  length (objects (concat (entries <$> pgs))) < length fuels →
  Forall (λ fuel, turns_left [] pgs ≤ fuel) fuels →
  ∃ stI' stP',
    pulls Index._read fuels stI = Some stI'
    ∧ pulls Part000._read fuels stP = Some stP'
    ∧ pushed (events stP')
      = (if truthy (_fullMetadata stP) then id else key_of)
          <$> pushed (events stI')
    ∧ length (requests (events stP')) = length (requests (events stI'))
    ∧ errors (events stI') = [] ∧ errors (events stP') = [].
Proof.
  intros stI stP Hne Hsrv Hfl Hpop Hwf Hlen Hfuel.
  destruct (Index_listing s3 bucket bucketPrefix listObjectsV2args Final pgs
              fuels)
    as (stI' & HpullsI & _ & HpushedI & HreqI & HerrI); try done.
  { by left. }
  { unfold remaining. by rewrite length_fmap. }
  destruct (Part000_listing s3 bucket bucketPrefix options listObjectsV2args
              Final pgs fuels)
    as (stP' & HpullsP & _ & HpushedP & HreqP & HerrP); try done.
  { by left. }
  { unfold remaining. by rewrite length_fmap. }
  exists stI', stP'. split; [done|]. split; [done|].
  split; [|by rewrite HreqI, HreqP].
  rewrite HpushedI, HpushedP. unfold remaining. rewrite fmap_app. simpl.
  rewrite <- list_fmap_compose. f_equal.
  - apply list_fmap_ext. intros i o _. simpl. unfold Part000_chunk.
    by destruct (truthy _).
  - by destruct (truthy _).
Qed.
End Revisions.

(** ** The log of a turn *)

Section TurnLog.
Context {S R : Type} `{!S3Client S, !ReadableBase R}.
Implicit Types st : Stream S R.

Lemma hand_over_log (allowed : Chunk → Prop) c st :
  allowed c →
  ∃ tail, events (hand_over c st).2 = events st ++ tail
          ∧ entry_log allowed (hand_over c st).1 tail.
Proof.
  intros Hc. unfold hand_over. destruct (accepts c st); simpl.
  - exists [Call_push c]. split; [done|by constructor].
  - exists [Call_push c; Emit_stopped].
    split; [by rewrite <- (assoc_L (++))|by constructor].
Qed.

Lemma no_entry_log (allowed : Chunk → Prop) st res :
  entry_log allowed res [] →
  ∃ tail, events st = events st ++ tail ∧ entry_log allowed res tail.
Proof. intros Hlog. exists []. by rewrite app_nil_r. Qed.

Lemma Index_push_entry_log st :
  ∃ tail, events (Index.push_entry st).2 = events st ++ tail
          ∧ entry_log is_record (Index.push_entry st).1 tail.
Proof.
  rewrite Index_push_entry_run.
  destruct (_lastResponse st) as [| |r]; simpl;
    try (apply no_entry_log; constructor).
  destruct (Contents r) as [| |l]; simpl;
    try (apply (no_entry_log _ (advance st)); constructor).
  destruct (entry_at l (_currentIndex st)) as [| |o]; simpl;
    try (apply (no_entry_log _ (advance st)); constructor).
  apply (hand_over_log is_record _ (advance st)). by exists o.
Qed.

Lemma Part000_push_entry_log st :
  ∃ tail, events (Part000.push_entry st).2 = events st ++ tail
          ∧ entry_log any_chunk (Part000.push_entry st).1 tail.
Proof.
  rewrite Part000_push_entry_run.
  destruct (_lastResponse st) as [| |r]; simpl;
    try (apply no_entry_log; constructor).
  destruct (Contents r) as [| |l]; simpl;
    try (apply (no_entry_log _ (advance st)); constructor).
  unfold Part000_entry_outcome. destruct (truthy (_fullMetadata st)).
  { by apply (hand_over_log any_chunk _ (advance st)). }
  destruct (entry_at l (_currentIndex st)) as [| |o]; simpl;
    try (apply (no_entry_log _ (advance st)); constructor).
  by apply (hand_over_log any_chunk _ (advance st)).
Qed.

(** The announcements of lines 94-98: 'prefix' notifications only, and
    nothing but a [TypeError] can interrupt them. *)
Lemma emit_prefixes_log items st :
  ∃ announced,
    events (Index.emit_prefixes items st).2 = events st ++ announced
    ∧ Forall (λ ev, ∃ prefix, ev = Emit_prefix prefix) announced
    ∧ ((Index.emit_prefixes items st).1 = Ok tt
       ∨ ∃ base prop,
           (Index.emit_prefixes items st).1 = Throw (TypeError base prop)).
Proof.
  revert st. induction items as [|[| |item] items IH]; intros st; simpl.
  - exists []. rewrite app_nil_r. split; [done|]. split; [done|]. by left.
  - exists []. rewrite app_nil_r. split; [done|]. split; [done|].
    right. by eexists _, _.
  - exists []. rewrite app_nil_r. split; [done|]. split; [done|].
    right. by eexists _, _.
  - unfold bind, emit, log; simpl.
    match goal with |- context [Index.emit_prefixes items ?s] =>
      destruct (IH s) as (announced & Hev & Hall & Hres) end.
    exists (Emit_prefix (Prefix item) :: announced).
    split; [|split; [|done]].
    + rewrite Hev. simpl. by rewrite <- (assoc_L (++)).
    + constructor; [by eexists|done].
Qed.

Lemma announce_prefixes_log st :
  ∃ announced,
    events (Index.announce_prefixes st).2 = events st ++ announced
    ∧ Forall (λ ev, ∃ prefix, ev = Emit_prefix prefix) announced
    ∧ ((Index.announce_prefixes st).1 = Ok tt
       ∨ ∃ base prop,
           (Index.announce_prefixes st).1 = Throw (TypeError base prop)).
Proof.
  unfold Index.announce_prefixes, bind, this.
  destruct (_lastResponse st) as [| |r]; simpl.
  - exists []. rewrite app_nil_r. split; [done|]. split; [done|].
    right. by eexists _, _.
  - exists []. rewrite app_nil_r. split; [done|]. split; [done|].
    right. by eexists _, _.
  - destruct (CommonPrefixes r) as [| |items]; simpl;
      try (exists []; rewrite app_nil_r; split; [done|]; split; [done|];
           by left).
    apply emit_prefixes_log.
Qed.

Lemma Index_after_load_log st params data :
  ∃ new,
    events ((exec! Index.announce_prefixes in Index.push_entry) st).2
    = events st ++ new
    ∧ turn_log is_record
        ((exec! Index.announce_prefixes in Index.push_entry) st).1
        (Call_listObjectsV2 params :: Emit_page params data :: new).
Proof.
  unfold bind.
  destruct (announce_prefixes_log st) as (announced & Hev & Hall & Hres).
  destruct (Index.announce_prefixes st) as [[[]|e] st1] eqn:Hann;
    simpl in *.
  - destruct (Index_push_entry_log st1) as (tail & Htail & Hlog).
    exists (announced ++ tail). split.
    + by rewrite Htail, Hev, <- (assoc_L (++)).
    + by apply turn_fetched.
  - destruct Hres as [?|(base & prop & [= ->])]; [done|].
    exists (announced ++ []). split; [by rewrite app_nil_r|].
    apply turn_fetched; [done|constructor].
Qed.

Lemma page_exhausted_throws st e :
  (Index.page_exhausted st).1 = Throw e
  ∨ (Part000.page_exhausted st).1 = Throw e →
  ∃ base prop, e = TypeError base prop.
Proof.
  unfold Index.page_exhausted, Part000.page_exhausted. unfold_monad.
  destruct (_lastResponse st) as [| |r]; simpl.
  - by intros [?|?].
  - intros [?|[= <-]]; [done|]. by eexists _, _.
  - destruct (Contents r) as [| |l]; simpl; intros [[= <-]|[= <-]];
      by eexists _, _.
Qed.

(** Every turn of [src/index.ts] logs as a turn does, and pushes records
    only. *)
Lemma Index_turn_log st :
  ∃ new, events (Index.loop_body st).2 = events st ++ new
         ∧ turn_log is_record (Index.loop_body st).1 new.
Proof.
  rewrite Index_loop_body_run.
  destruct ((Index.page_exhausted st).1) as [[]|e] eqn:Hpe; simpl.
  - destruct (Index.is_last_page st); simpl.
    { exists [Call_push EOF]. split; [done|constructor]. }
    destruct (listObjectsV2 (next_params st) (_s3 st)) as [[[| |e] data] s'];
      simpl.
    + destruct (Index_after_load_log (loaded st s' data) (next_params st)
                  data) as (new & Hev & Hlog).
      eexists. split; [|exact Hlog]. rewrite Hev. simpl.
      by rewrite <- (assoc_L (++)).
    + destruct (Index_after_load_log (loaded st s' data) (next_params st)
                  data) as (new & Hev & Hlog).
      eexists. split; [|exact Hlog]. rewrite Hev. simpl.
      by rewrite <- (assoc_L (++)).
    + exists [Call_listObjectsV2 (next_params st)]. split; [done|constructor].
  - destruct (Index_push_entry_log st) as (tail & Hev & Hlog).
    exists tail. split; [done|by apply turn_held].
  - destruct (page_exhausted_throws st e) as (base & prop & ->); [by left|].
    exists []. rewrite app_nil_r. split; [done|]. apply turn_held. constructor.
Qed.

(** Every turn of [part_000] logs as a turn does. *)
Lemma Part000_turn_log st :
  ∃ new, events (Part000.loop_body st).2 = events st ++ new
         ∧ turn_log any_chunk (Part000.loop_body st).1 new.
Proof.
  rewrite Part000_loop_body_run.
  destruct ((Part000.page_exhausted st).1) as [[]|e] eqn:Hpe; simpl.
  - destruct (Part000.is_last_page st); simpl.
    { exists [Call_push EOF]. split; [done|constructor]. }
    destruct (listObjectsV2 (next_params st) (_s3 st)) as [[[| |e] data] s'];
      simpl.
    + destruct (Part000_push_entry_log (loaded st s' data))
        as (tail & Hev & Hlog).
      eexists. split; [rewrite Hev; simpl; by rewrite <- (assoc_L (++))|].
      by apply (turn_fetched _ _ _ []).
    + destruct (Part000_push_entry_log (loaded st s' data))
        as (tail & Hev & Hlog).
      eexists. split; [rewrite Hev; simpl; by rewrite <- (assoc_L (++))|].
      by apply (turn_fetched _ _ _ []).
    + exists [Call_listObjectsV2 (next_params st)]. split; [done|constructor].
  - destruct (Part000_push_entry_log st) as (tail & Hev & Hlog).
    exists tail. split; [done|by apply turn_held].
  - destruct (page_exhausted_throws st e) as (base & prop & ->); [by right|].
    exists []. rewrite app_nil_r. split; [done|]. apply turn_held. constructor.
Qed.
End TurnLog.

(** ** The log of a run *)

Section LogGrammar.
Implicit Types allowed : Chunk → Prop.

Lemma entry_log_weaken allowed res new :
  entry_log allowed res new → entry_log any_chunk res new.
Proof. intros []; by constructor. Qed.

Lemma turn_log_weaken allowed res new :
  turn_log allowed res new → turn_log any_chunk res new.
Proof.
  intros [result|params e|res' tail Htail
         |params data announced res' tail Hall Htail].
  - constructor.
  - constructor.
  - apply turn_held. by apply (entry_log_weaken allowed).
  - apply turn_fetched; [done|]. by apply (entry_log_weaken allowed).
Qed.

Lemma signals_app evs evs' : signals (evs ++ evs') = signals evs ++ signals evs'.
Proof. apply omap_app. Qed.

Lemma announced_silent (announced : list Event) :
  Forall (λ ev, ∃ prefix, ev = Emit_prefix prefix) announced →
  errors announced = [] ∧ pushed announced = [] ∧ signals announced = []
  ∧ requests announced = [].
Proof.
  induction 1 as [|ev announced [prefix ->] _ IH]; [done|]. simpl.
  destruct IH as (? & ? & ? & ?). done.
Qed.

Lemma entry_log_errors allowed res new :
  entry_log allowed res new → errors new = [].
Proof. by intros []. Qed.

Lemma turn_log_errors allowed res new :
  turn_log allowed res new → errors new = [].
Proof.
  intros [result|params e|res' tail Htail
         |params data announced res' tail Hall Htail]; try done.
  - by apply (entry_log_errors allowed res').
  - simpl. rewrite errors_app.
    destruct (announced_silent announced Hall) as (-> & _).
    by apply (entry_log_errors allowed res').
Qed.

Lemma entry_log_signals allowed res new :
  entry_log allowed res new →
  signals new = match res with Ok Break => [Emit_stopped] | _ => [] end.
Proof. by intros []. Qed.

Lemma turn_log_signals allowed res new :
  turn_log allowed res new →
  signals new = match res with Ok Break => [Emit_stopped] | _ => [] end.
Proof.
  intros [result|params e|res' tail Htail
         |params data announced res' tail Hall Htail]; try done.
  - by apply (entry_log_signals allowed).
  - simpl. rewrite signals_app.
    destruct (announced_silent announced Hall) as (_ & _ & -> & _).
    by apply (entry_log_signals allowed).
Qed.

Lemma entry_log_pushed res new :
  entry_log is_record res new → Forall is_record (pushed new).
Proof.
  intros [|c Hc|c Hc|base prop]; simpl; try done; by repeat constructor.
Qed.

(** In [src/index.ts] the end-of-stream mark comes with [return] and with
    nothing else. *)
Lemma turn_log_pushed res new :
  turn_log is_record res new →
  match res with
  | Ok (Return _) => new = [Call_push EOF]
  | _ => Forall is_record (pushed new)
  end.
Proof.
  intros [result|params e|res' tail Htail
         |params data announced res' tail Hall Htail]; try done.
  - pose proof (entry_log_pushed _ _ Htail) as Hrec.
    by destruct Htail.
  - assert (Forall is_record
              (pushed (Call_listObjectsV2 params :: Emit_page params data
                       :: announced ++ tail))) as Hrec.
    { simpl. rewrite pushed_app.
      destruct (announced_silent announced Hall) as (_ & -> & _).
      by apply (entry_log_pushed res'). }
    by destruct Htail.
Qed.

Lemma run_log_errors allowed c new :
  run_log allowed c new →
  errors new = match c with Some (Caught e) => [e] | _ => [] end.
Proof.
  induction 1 as [|new rest c Hturn _ IH|result new Hturn|new Hturn
                 |e new Hturn].
  - done.
  - by rewrite errors_app, (turn_log_errors _ _ _ Hturn), IH.
  - by apply (turn_log_errors allowed (Ok (Return result))).
  - by apply (turn_log_errors allowed (Ok Break)).
  - rewrite errors_app, (turn_log_errors _ _ _ Hturn). done.
Qed.

Lemma run_log_signals allowed c new :
  run_log allowed c new →
  signals new = if flag_after c then [Emit_stopped] else [].
Proof.
  induction 1 as [|new rest c Hturn _ IH|result new Hturn|new Hturn
                 |e new Hturn].
  - done.
  - by rewrite signals_app, (turn_log_signals _ _ _ Hturn), IH.
  - by apply (turn_log_signals allowed (Ok (Return result))).
  - by apply (turn_log_signals allowed (Ok Break)).
  - rewrite signals_app, (turn_log_signals _ _ _ Hturn). done.
Qed.

(** A call of [_startRead] that was caught ends its log with the 'error'
    notification; an error of the provider comes right after the request
    it answers. *)
Lemma run_log_caught allowed e new :
  run_log allowed (Some (Caught e)) new →
  ∃ before, new = before ++ [Emit_error e] ∧ errors before = []
    ∧ ∀ err, e = ThrownError err →
             ∃ before' params, before = before' ++ [Call_listObjectsV2 params].
Proof.
  remember (Some (Caught e)) as c eqn:Hc.
  induction 1 as [|new rest c Hturn Hrest IH|result new Hturn|new Hturn
                 |e' new Hturn]; try done.
  - destruct (IH Hc) as (before & -> & Herr & Hreq).
    exists (new ++ before). split; [by rewrite (assoc_L (++))|]. split.
    + by rewrite errors_app, (turn_log_errors _ _ _ Hturn), Herr.
    + intros err He. destruct (Hreq err He) as (before' & params & ->).
      exists (new ++ before'), params. by rewrite (assoc_L (++)).
  - injection Hc as ->. exists new. split; [done|]. split.
    + by apply (turn_log_errors allowed (Throw e)).
    + intros err ->. inversion Hturn as [|params e0| res tail Htail
                                        |params data announced res tail
                                           Hall Htail]; subst.
      * by exists [], params.
      * inversion Htail.
      * inversion Htail.
Qed.

(** In [src/index.ts] a call that returned ends its log with the
    end-of-stream mark, and nothing but records was pushed otherwise. *)
Lemma run_log_pushed c new :
  run_log is_record c new →
  match c with
  | Some (Returned _) =>
      ∃ before, new = before ++ [Call_push EOF]
                ∧ Forall is_record (pushed before)
  | Some (Caught e) =>
      ∃ before, new = before ++ [Emit_error e]
                ∧ Forall is_record (pushed before)
  | _ => Forall is_record (pushed new)
  end.
Proof.
  induction 1 as [|new rest c Hturn _ IH|result new Hturn|new Hturn
                 |e new Hturn].
  - done.
  - pose proof (turn_log_pushed _ _ Hturn) as Hnew. simpl in Hnew.
    destruct c as [[result| |e]|].
    + destruct IH as (before & -> & Hrec). exists (new ++ before).
      split; [by rewrite (assoc_L (++))|].
      rewrite pushed_app. by apply Forall_app.
    + rewrite pushed_app. by apply Forall_app.
    + destruct IH as (before & -> & Hrec). exists (new ++ before).
      split; [by rewrite (assoc_L (++))|].
      rewrite pushed_app. by apply Forall_app.
    + rewrite pushed_app. by apply Forall_app.
  - pose proof (turn_log_pushed _ _ Hturn) as ->. by exists [].
  - by apply (turn_log_pushed (Ok Break)).
  - exists new. split; [done|]. by apply (turn_log_pushed (Throw e)).
Qed.

Lemma concat_replicate_end {A} k (x : list A) :
  concat (replicate (Datatypes.S k) x) = concat (replicate k x) ++ x.
Proof.
  induction k as [|k IH]; [simpl; by rewrite app_nil_r|].
  change (x ++ concat (replicate (Datatypes.S k) x)
          = (x ++ concat (replicate k x)) ++ x).
  by rewrite IH, (assoc_L (++)).
Qed.

Lemma pulls_log_errors allowed c evs :
  pulls_log allowed c evs →
  errors evs = match c with Some (Caught e) => [e] | _ => [] end.
Proof.
  induction 1 as [|evs new c _ IH Hrun]; [done|].
  rewrite errors_app, IH. simpl. by apply (run_log_errors allowed).
Qed.

Lemma pulls_log_signals allowed c evs :
  pulls_log allowed c evs →
  ∃ k, signals evs
       = concat (replicate k [Emit_restarted; Emit_stopped])
         ++ (if flag_after c then [] else [Emit_restarted]).
Proof.
  induction 1 as [|evs new c _ [k IH] Hrun]; [by exists 0|].
  rewrite signals_app, IH. simpl. rewrite app_nil_r.
  rewrite (run_log_signals _ _ _ Hrun).
  destruct (flag_after c).
  - exists (Datatypes.S k). by rewrite concat_replicate_end, app_nil_r.
  - by exists k.
Qed.

Lemma pulls_log_pushed evs :
  pulls_log is_record (Some Broke) evs → Forall is_record (pushed evs).
Proof.
  remember (Some Broke) as c eqn:Hc.
  induction 1 as [|evs new c _ IH Hrun]; [done|]. subst c.
  rewrite pushed_app. apply Forall_app. split; [by apply IH|]. simpl.
  by apply (run_log_pushed (Some Broke)).
Qed.
End LogGrammar.

Section RunLog.
Context {S R : Type} `{!S3Client S, !ReadableBase R}.
Implicit Types st : Stream S R.
Variable body : M (S:=S) (R:=R) Flow.
Variable allowed : Chunk → Prop.
Hypothesis body_log :
  ∀ st, ∃ new, events (body st).2 = events st ++ new
               ∧ turn_log allowed (body st).1 new.
Hypothesis body_stopped :
  ∀ st, _stopped (body st).2 = stopped_after (body st).1 (_stopped st).

Lemma startRead_from_log fuel st :
  ∃ c new, (startRead_from body fuel st).1 = Ok c
           ∧ events (startRead_from body fuel st).2 = events st ++ new
           ∧ run_log allowed c new.
Proof.
  revert st. induction fuel as [|fuel IH]; intros st.
  { exists None, []. simpl. rewrite app_nil_r. repeat split. constructor. }
  rewrite startRead_from_step.
  destruct (body_log st) as (new & Hev & Hturn).
  destruct (body st) as [[[|result|]|e] st'] eqn:Hbody; simpl in *.
  - destruct (IH st') as (c & rest & Hres & Hrest & Hrun).
    exists c, (new ++ rest). split; [done|]. split.
    + by rewrite Hrest, Hev, (assoc_L (++)).
    + by apply run_next.
  - exists (Some (Returned result)), new. repeat split; [done|].
    by constructor.
  - exists (Some Broke), new. repeat split; [done|]. by constructor.
  - exists (Some (Caught e)), (new ++ [Emit_error e]). repeat split.
    + by rewrite Hev, (assoc_L (++)).
    + by constructor.
Qed.

Lemma startRead_with_log fuel st :
  ∃ c new, (startRead_with body fuel st).1 = Ok c
           ∧ events (startRead_with body fuel st).2
             = events st ++ Emit_restarted :: new
           ∧ run_log allowed c new
           ∧ _stopped (startRead_with body fuel st).2 = flag_after c.
Proof.
  pose proof (startRead_with_stopped body body_stopped fuel st) as Hflag.
  rewrite startRead_with_from in *.
  destruct (startRead_from_log fuel (restart st)) as (c & new & Hres & Hev & Hrun).
  exists c, new. split; [done|]. split.
  - rewrite Hev. simpl. by rewrite <- (assoc_L (++)).
  - split; [done|]. rewrite Hflag, Hres. by destruct c as [[]|].
Qed.

Lemma progress_log fuel st :
  (∃ c, pulls_log allowed c (events st) ∧ _stopped st = flag_after c) →
  ∃ c, pulls_log allowed c (events (progress body fuel st))
       ∧ _stopped (progress body fuel st) = flag_after c.
Proof.
  intros (c0 & Hlog & Hflag). unfold progress.
  destruct (_stopped st) eqn:Hstop; [|exists c0; by rewrite Hstop].
  assert (c0 = Some Broke) as ->.
  { destruct c0 as [[]|]; simpl in Hflag; congruence. }
  destruct (startRead_with_log fuel st) as (c & new & Hres & Hev & Hrun & Hf).
  exists c. rewrite Hev. split; [by constructor|done].
Qed.

Lemma read_with_log fuel st st' :
  (∃ c, pulls_log allowed c (events st) ∧ _stopped st = flag_after c) →
  read_with body fuel st = Some st' →
  ∃ c, pulls_log allowed c (events st') ∧ _stopped st' = flag_after c.
Proof.
  intros Hst Hread.
  destruct (progress_log fuel st Hst) as (c & Hlog & Hflag).
  unfold read_with, progress in *. destruct (_stopped st).
  - destruct (startRead_with body fuel st) as [[[c'|]|e] st2]; try done.
    injection Hread as <-. by exists c.
  - injection Hread as <-. by exists c.
Qed.

Lemma pulls_log_of fuels st st' :
  (∃ c, pulls_log allowed c (events st) ∧ _stopped st = flag_after c) →
  pulls (read_with body) fuels st = Some st' →
  ∃ c, pulls_log allowed c (events st') ∧ _stopped st' = flag_after c.
Proof.
  revert st. induction fuels as [|fuel fuels IH]; intros st Hst; simpl.
  - by intros [= <-].
  - destruct (read_with body fuel st) as [st1|] eqn:Hread; [|done].
    apply IH. by apply (read_with_log fuel st).
Qed.
End RunLog.

(** ** How a stream reports its end, its failure and its pauses *)

Section Notifications.
Context {S R : Type} `{!S3Client S, !ReadableBase R}.
Implicit Types st : Stream S R.

Lemma Index_turn_log_any st :
  ∃ new, events (Index.loop_body st).2 = events st ++ new
         ∧ turn_log any_chunk (Index.loop_body st).1 new.
Proof.
  destruct (Index_turn_log st) as (new & Hev & Hlog). exists new.
  split; [done|]. by apply (turn_log_weaken is_record).
Qed.

(** The log of a stream of either revision, reached by pulls from its
    construction, is the log of a sequence of calls of [_startRead]. *)
Lemma run_logged (s3 : S) bucket bucketPrefix options args fuels fuel
    st st' :
  (pulls Index._read fuels (Index.constructor s3 bucket bucketPrefix args)
   = Some st
   ∨ pulls Part000._read fuels
       (Part000.constructor s3 bucket bucketPrefix options args) = Some st) →
  (st' = progress Index.loop_body fuel st
   ∨ st' = progress Part000.loop_body fuel st) →
  ∃ c, pulls_log any_chunk c (events st') ∧ _stopped st' = flag_after c.
Proof.
  intros Hpulls Hst'.
  assert (∃ c, pulls_log any_chunk c (events st)
               ∧ _stopped st = flag_after c) as Hst.
  { destruct Hpulls as [Hpulls|Hpulls].
    - eapply (pulls_log_of Index.loop_body any_chunk Index_turn_log_any
                Index_turn_stopped fuels); [|exact Hpulls].
      exists (Some Broke). split; [constructor|done].
    - eapply (pulls_log_of Part000.loop_body any_chunk Part000_turn_log
                Part000_turn_stopped fuels); [|exact Hpulls].
      exists (Some Broke). split; [constructor|done]. }
  destruct Hst' as [->| ->].
  - by apply (progress_log Index.loop_body any_chunk Index_turn_log_any
                Index_turn_stopped).
  - by apply (progress_log Part000.loop_body any_chunk Part000_turn_log
                Part000_turn_stopped).
Qed.

(** X15. A stream of either revision reports at most one error in its
    life.  Once it has, the 'error' notification is the last event of its
    log for ever: [_stopped] is down, so that no later pull does
    anything.  When the error is one of the provider, the event just
    before the notification is the request the provider refused. *)
Theorem error_is_reported_once_and_last
    (s3 : S) (bucket : string) (bucketPrefix : option string)
    (options listObjectsV2args : option Obj)
    (fuels : list nat) (fuel : nat) st st' :
  (pulls Index._read fuels
     (Index.constructor s3 bucket bucketPrefix listObjectsV2args) = Some st
   ∨ pulls Part000._read fuels
       (Part000.constructor s3 bucket bucketPrefix options
          listObjectsV2args) = Some st) →
  (st' = progress Index.loop_body fuel st
   ∨ st' = progress Part000.loop_body fuel st) →
  errors (events st') = []
  ∨ ∃ before e,
      events st' = before ++ [Emit_error e]
      ∧ errors before = []
      ∧ _stopped st' = false
      ∧ (∀ err, e = ThrownError err →
                ∃ before' params,
                  before = before' ++ [Call_listObjectsV2 params])
      ∧ ∀ more, pulls Index._read more st' = Some st'
                ∧ pulls Part000._read more st' = Some st'.
Proof.
  intros Hpulls Hst'.
  destruct (run_logged s3 bucket bucketPrefix options listObjectsV2args
              fuels fuel st st' Hpulls Hst') as (c & Hlog & Hflag).
  pose proof (pulls_log_errors _ _ _ Hlog) as Herr.
  destruct c as [[result| |e]|]; [by left|by left| |by left].
  right. inversion Hlog as [|evs new c Hevs Hrun Hc Hev]; subst.
  destruct (run_log_caught _ _ _ Hrun) as (before & -> & Hnone & Hreq).
  exists (evs ++ Emit_restarted :: before), e.
  split; [by rewrite <- (assoc_L (++))|]. split.
  { rewrite errors_app, (pulls_log_errors _ _ _ Hevs). done. }
  split; [done|]. split.
  - intros err He. destruct (Hreq err He) as (before' & params & ->).
    exists (evs ++ Emit_restarted :: before'), params.
    by rewrite <- (assoc_L (++)).
  - intros more. split; by apply pulls_running.
Qed.

(** X16. Pauses and restarts alternate.  In the log of a stream of either
    revision the 'restarted' and 'stopped' notifications come in pairs,
    'restarted' first, followed by one more 'restarted' exactly when
    [_stopped] is down (the stream is inside a call of [_startRead], has
    ended or has failed). *)
Theorem restarted_and_stopped_alternate
    (s3 : S) (bucket : string) (bucketPrefix : option string)
    (options listObjectsV2args : option Obj)
    (fuels : list nat) (fuel : nat) st st' :
  (pulls Index._read fuels
     (Index.constructor s3 bucket bucketPrefix listObjectsV2args) = Some st
   ∨ pulls Part000._read fuels
       (Part000.constructor s3 bucket bucketPrefix options
          listObjectsV2args) = Some st) →
  (st' = progress Index.loop_body fuel st
   ∨ st' = progress Part000.loop_body fuel st) →
  ∃ pauses,
    signals (events st')
    = concat (replicate pauses [Emit_restarted; Emit_stopped])
      ++ (if _stopped st' then [] else [Emit_restarted]).
Proof.
  intros Hpulls Hst'.
  destruct (run_logged s3 bucket bucketPrefix options listObjectsV2args
              fuels fuel st st' Hpulls Hst') as (c & Hlog & Hflag).
  rewrite Hflag. by apply (pulls_log_signals any_chunk).
Qed.

(** X17. [src/index.ts] signals the end of a listing at most once, and
    never together with an error.  The log of a stream is a part in which
    nothing but records is pushed and no error is reported, followed by
    nothing, by the push of the end-of-stream mark, or by an 'error'
    notification; in the last two cases [_stopped] is down, and the
    stream pushes and asks nothing more. *)
Theorem Index_signals_the_end_once
    (s3 : S) (bucket : string) (bucketPrefix : option string)
    (listObjectsV2args : option Obj)
    (fuels : list nat) (fuel : nat) st st' :
  pulls Index._read fuels
    (Index.constructor s3 bucket bucketPrefix listObjectsV2args) = Some st →
  st' = progress Index.loop_body fuel st →
  ∃ before ending,
    events st' = before ++ ending
    ∧ Forall is_record (pushed before)
    ∧ errors before = []
    ∧ (ending = []
       ∨ (_stopped st' = false
          ∧ (ending = [Call_push EOF] ∨ ∃ e, ending = [Emit_error e])
          ∧ ∀ more, pulls Index._read more st' = Some st')).
Proof.
  intros Hpulls ->.
  assert (∃ c, pulls_log is_record c
                 (events (progress Index.loop_body fuel st))
               ∧ _stopped (progress Index.loop_body fuel st) = flag_after c)
    as (c & Hlog & Hflag).
  { apply (progress_log Index.loop_body is_record Index_turn_log
             Index_turn_stopped).
    eapply (pulls_log_of Index.loop_body is_record Index_turn_log
              Index_turn_stopped fuels); [|exact Hpulls].
    exists (Some Broke). split; [constructor|done]. }
  set (st' := progress Index.loop_body fuel st) in *.
  inversion Hlog as [|evs new c' Hevs Hrun Hc Hev]; subst.
  { exists [], []. split; [done|]. split; [done|]. split; [done|by left]. }
  pose proof (pulls_log_pushed _ Hevs) as Hrec.
  pose proof (pulls_log_errors _ _ _ Hevs) as Herr. simpl in Herr.
  pose proof (run_log_pushed _ _ Hrun) as Hnew.
  pose proof (run_log_errors _ _ _ Hrun) as Hnone.
  assert (∀ before,
            Forall is_record (pushed before) →
            Forall is_record (pushed (evs ++ Emit_restarted :: before)))
    as Hall.
  { intros before Hb. rewrite pushed_app. by apply Forall_app. }
  assert (∀ before,
            errors before = [] →
            errors (evs ++ Emit_restarted :: before) = []) as Hquiet.
  { intros before Hb. by rewrite errors_app, Herr. }
  destruct c as [[result| |e]|].
  - destruct Hnew as (before & -> & Hb).
    exists (evs ++ Emit_restarted :: before), [Call_push EOF].
    split; [by rewrite <- (assoc_L (++))|]. split; [by apply Hall|].
    split.
    { apply Hquiet. rewrite errors_app in Hnone. simpl in Hnone.
      by rewrite app_nil_r in Hnone. }
    right. split; [done|]. split; [by left|].
    intros more. by apply pulls_running.
  - exists (evs ++ Emit_restarted :: new), [].
    split; [by rewrite app_nil_r|]. split; [by apply Hall|].
    split; [by apply Hquiet|by left].
  - destruct Hnew as (before & -> & Hb).
    exists (evs ++ Emit_restarted :: before), [Emit_error e].
    split; [by rewrite <- (assoc_L (++))|]. split; [by apply Hall|].
    split.
    { apply Hquiet. rewrite errors_app in Hnone. simpl in Hnone.
      by apply (app_inv_tail_iff [e] _ []) in Hnone. }
    right. split; [done|]. split; [by eauto|].
    intros more. by apply pulls_running.
  - exists (evs ++ Emit_restarted :: new), [].
    split; [by rewrite app_nil_r|]. split; [by apply Hall|].
    split; [by apply Hquiet|by left].
Qed.
End Notifications.

(** ** Invariants of the log *)

Section LogInvariant.
Context {S R : Type} `{!S3Client S, !ReadableBase R}.
Implicit Types st : Stream S R.
Variable body : M (S:=S) (R:=R) Flow.
Variable Q : list Event → Prop.
Hypothesis Q_turn : ∀ st, Q (events st) → Q (events (body st).2).
Hypothesis Q_restarted : ∀ evs, Q evs → Q (evs ++ [Emit_restarted]).
Hypothesis Q_error : ∀ evs e, Q evs → Q (evs ++ [Emit_error e]).

Lemma startRead_from_keeps fuel st :
  Q (events st) → Q (events (startRead_from body fuel st).2).
Proof.
  revert st. induction fuel as [|fuel IH]; intros st Hst; [done|].
  rewrite startRead_from_step. pose proof (Q_turn st Hst) as Hturn.
  destruct (body st) as [[[]|e] st'] eqn:Hbody; simpl in *; try done.
  - by apply IH.
  - by apply Q_error.
Qed.

Lemma progress_keeps fuel st :
  Q (events st) → Q (events (progress body fuel st)).
Proof.
  intros Hst. unfold progress. destruct (_stopped st); [|done].
  rewrite startRead_with_from. apply startRead_from_keeps. simpl.
  by apply Q_restarted.
Qed.

Lemma read_with_keeps fuel st st' :
  Q (events st) → read_with body fuel st = Some st' → Q (events st').
Proof.
  intros Hst. pose proof (progress_keeps fuel st Hst) as Hp.
  unfold read_with, progress in *. destruct (_stopped st).
  - destruct (startRead_with body fuel st) as [[[c|]|e] st2]; try done.
    by intros [= <-].
  - by intros [= <-].
Qed.

Lemma pulls_keeps fuels st st' :
  Q (events st) → pulls (read_with body) fuels st = Some st' →
  Q (events st').
Proof.
  revert st. induction fuels as [|fuel fuels IH]; intros st Hst; simpl.
  - by intros [= <-].
  - destruct (read_with body fuel st) as [st1|] eqn:Hread; [|done].
    apply IH. by apply (read_with_keeps fuel st).
Qed.
End LogInvariant.

(** ** No 'prefix' notification in [part_000] *)

Section NoPrefix.
Context {S R : Type} `{!S3Client S, !ReadableBase R}.
Implicit Types st : Stream S R.

Lemma entry_log_prefixes allowed res tail :
  entry_log allowed res tail → prefixes tail = [].
Proof. by intros []. Qed.

Lemma Part000_push_entry_prefixes st :
  prefixes (events (Part000.push_entry st).2) = prefixes (events st).
Proof.
  destruct (Part000_push_entry_log st) as (tail & -> & Hlog).
  by rewrite prefixes_app, (entry_log_prefixes _ _ _ Hlog), app_nil_r.
Qed.

Lemma Part000_turn_prefixes st :
  prefixes (events (Part000.loop_body st).2) = prefixes (events st).
Proof.
  rewrite Part000_loop_body_run.
  destruct ((Part000.page_exhausted st).1) as [[]|e]; simpl; [| |done].
  - destruct (Part000.is_last_page st); simpl.
    { rewrite prefixes_app. simpl. by rewrite app_nil_r. }
    destruct (listObjectsV2 (next_params st) (_s3 st)) as [[[| |e] data] s'];
      simpl.
    + rewrite Part000_push_entry_prefixes. simpl. rewrite prefixes_app.
      simpl. by rewrite app_nil_r.
    + rewrite Part000_push_entry_prefixes. simpl. rewrite prefixes_app.
      simpl. by rewrite app_nil_r.
    + rewrite prefixes_app. simpl. by rewrite app_nil_r.
  - apply Part000_push_entry_prefixes.
Qed.

(** X20. The [fullMetadata] revision has no 'prefix' notification:
    whatever groupings the responses of the provider carry, a [part_000]
    stream never emits one. *)
Theorem Part000_never_announces_prefixes
    (s3 : S) (bucket : string) (bucketPrefix : option string)
    (options listObjectsV2args : option Obj)
    (fuels : list nat) (fuel : nat) st :
  pulls Part000._read fuels
    (Part000.constructor s3 bucket bucketPrefix options listObjectsV2args)
  = Some st →
  prefixes (events (progress Part000.loop_body fuel st)) = [].
Proof.
  intros Hpulls.
  apply (progress_keeps Part000.loop_body (λ evs, prefixes evs = [])).
  - intros st1 Hst1. by rewrite Part000_turn_prefixes.
  - intros evs Hevs. rewrite prefixes_app. simpl. by rewrite Hevs.
  - intros evs e Hevs. rewrite prefixes_app. simpl. by rewrite Hevs.
  - eapply (pulls_keeps Part000.loop_body (λ evs, prefixes evs = []));
      [| | | |exact Hpulls]; try done.
    + intros st1 Hst1. by rewrite Part000_turn_prefixes.
    + intros evs Hevs. rewrite prefixes_app. simpl. by rewrite Hevs.
    + intros evs e Hevs. rewrite prefixes_app. simpl. by rewrite Hevs.
Qed.
End NoPrefix.

(** ** 'page' notifications and requests *)

Section Pages.
Implicit Types allowed : Chunk → Prop.

Lemma page_params_app evs evs' :
  page_params (evs ++ evs') = page_params evs ++ page_params evs'.
Proof. apply omap_app. Qed.

Lemma entry_log_pages allowed res tail :
  entry_log allowed res tail →
  page_params tail = [] ∧ requests tail = [] ∧ pages tail = []
  ∧ ∀ e, res ≠ Throw (ThrownError e).
Proof. by intros []. Qed.

Lemma announced_pages (announced : list Event) :
  Forall (λ ev, ∃ prefix, ev = Emit_prefix prefix) announced →
  page_params announced = [] ∧ pages announced = [].
Proof. induction 1 as [|ev announced [prefix ->] _ IH]; [done|]. done. Qed.

(** A turn answers the request it sends with a 'page' notification that
    carries the same parameters, unless the provider refuses it. *)
Lemma turn_log_pages allowed res new :
  turn_log allowed res new →
  match res with
  | Throw (ThrownError _) =>
      page_params new = [] ∧ pages new = [] ∧ ∃ p, requests new = [p]
  | _ => page_params new = requests new
         ∧ length (pages new) = length (requests new)
  end.
Proof.
  intros [result|params e|res' tail Htail
         |params data announced res' tail Hall Htail]; simpl; try done.
  - by eauto.
  - destruct (entry_log_pages _ _ _ Htail) as (-> & -> & -> & Hres).
    destruct res' as [flow|[err|base prop]]; try done. by destruct (Hres err).
  - destruct (entry_log_pages _ _ _ Htail) as (Hpp & Hrq & Hpg & Hres).
    destruct (announced_silent announced Hall) as (_ & _ & _ & Hnone).
    destruct (announced_pages announced Hall) as (Hpp' & Hpg').
    rewrite page_params_app, requests_app, pages_app, Hpp, Hrq, Hpg, Hnone,
      Hpp', Hpg'.
    destruct res' as [flow|[err|base prop]]; try done. by destruct (Hres err).
Qed.

Lemma run_log_pages allowed c new :
  run_log allowed c new →
  match c with
  | Some (Caught (ThrownError _)) =>
      ∃ p, requests new = page_params new ++ [p]
           ∧ length (pages new) = length (page_params new)
  | _ => page_params new = requests new
         ∧ length (pages new) = length (requests new)
  end.
Proof.
  induction 1 as [|new rest c Hturn _ IH|result new Hturn|new Hturn
                 |e new Hturn].
  - done.
  - pose proof (turn_log_pages _ _ _ Hturn) as [Hpp Hlen]. simpl in *.
    rewrite page_params_app, requests_app, pages_app, !length_app, Hpp, Hlen.
    destruct c as [[result| |[err|base prop]]|];
      try (destruct IH as [-> ->]; done).
    destruct IH as (p & -> & ->). exists p.
    by rewrite (assoc_L (++)).
  - by apply (turn_log_pages allowed (Ok (Return result))).
  - by apply (turn_log_pages allowed (Ok Break)).
  - pose proof (turn_log_pages _ _ _ Hturn) as Hnew.
    rewrite page_params_app, requests_app, pages_app, !length_app. simpl.
    rewrite !app_nil_r.
    destruct e as [err|base prop].
    + destruct Hnew as (-> & -> & p & ->). by exists p.
    + destruct Hnew as [-> ->]. split; [done|lia].
Qed.

Lemma pulls_log_pages allowed c evs :
  pulls_log allowed c evs →
  match c with
  | Some (Caught (ThrownError _)) =>
      ∃ p, requests evs = page_params evs ++ [p]
           ∧ length (pages evs) = length (page_params evs)
  | _ => page_params evs = requests evs
         ∧ length (pages evs) = length (requests evs)
  end.
Proof.
  induction 1 as [|evs new c _ IH Hrun]; [done|]. simpl in IH.
  destruct IH as [Hpp Hlen].
  pose proof (run_log_pages _ _ _ Hrun) as Hnew.
  rewrite page_params_app, requests_app, pages_app, !length_app, Hpp, Hlen.
  simpl.
  destruct c as [[result| |[err|base prop]]|];
    try (destruct Hnew as [-> ->]; done).
  destruct Hnew as (p & -> & ->). exists p.
  by rewrite (assoc_L (++)).
Qed.
End Pages.

Section PageNotifications.
Context {S R : Type} `{!S3Client S, !ReadableBase R}.
Implicit Types st : Stream S R.

(** X21. In the log of a stream of either revision, the 'page'
    notifications carry, one for one and in order, the parameters of the
    requests sent; every request has its 'page' notification but the
    last one when the provider refused it, which is when the stream has
    reported a provider error. *)
Theorem page_notifications_match_requests
    (s3 : S) (bucket : string) (bucketPrefix : option string)
    (options listObjectsV2args : option Obj)
    (fuels : list nat) (fuel : nat) st st' :
  (pulls Index._read fuels
     (Index.constructor s3 bucket bucketPrefix listObjectsV2args) = Some st
   ∨ pulls Part000._read fuels
       (Part000.constructor s3 bucket bucketPrefix options
          listObjectsV2args) = Some st) →
  (st' = progress Index.loop_body fuel st
   ∨ st' = progress Part000.loop_body fuel st) →
  page_params (events st')
  = take (length (pages (events st'))) (requests (events st'))
  ∧ length (requests (events st'))
    = length (pages (events st'))
      + match errors (events st') with
        | [ThrownError _] => 1
        | _ => 0
        end.
Proof.
  intros Hpulls Hst'.
  destruct (run_logged s3 bucket bucketPrefix options listObjectsV2args
              fuels fuel st st' Hpulls Hst') as (c & Hlog & Hflag).
  pose proof (pulls_log_errors _ _ _ Hlog) as Herr.
  pose proof (pulls_log_pages _ _ _ Hlog) as Hpages.
  rewrite Herr.
  destruct c as [[result| |[err|base prop]]|];
    try (destruct Hpages as [-> ->]; split; [by rewrite take_ge|lia]).
  destruct Hpages as (p & -> & ->). split.
  - by rewrite take_app_length.
  - rewrite length_app. simpl. lia.
Qed.
End PageNotifications.

(** ** What reaches the base stream *)

Section Delivery.
Context {S R : Type} `{!S3Client S, !ReadableBase R}.
Implicit Types st : Stream S R.

Lemma pushed_announced_any st :
  pushed (events (Index.announce_prefixes st).2) = pushed (events st)
  ∧ readable (Index.announce_prefixes st).2 = readable st.
Proof.
  split; [|apply announce_prefixes_quiet].
  destruct (announce_prefixes_log st) as (announced & -> & Hall & _).
  rewrite pushed_app.
  destruct (announced_silent announced Hall) as (_ & -> & _).
  by rewrite app_nil_r.
Qed.

Lemma hand_over_delivery c st :
  turn_delivery st (hand_over c st).1 (hand_over c st).2.
Proof.
  apply (delivery_entry _ _ _ c); unfold hand_over, accepts;
    destruct ((push c (readable st)).1); simpl; try done.
  - by rewrite pushed_app.
  - rewrite !pushed_app. simpl. by rewrite app_nil_r.
Qed.

(** A turn that starts by steps that push nothing. *)
Lemma turn_delivery_after st0 st res st' :
  pushed (events st) = pushed (events st0) → readable st = readable st0 →
  turn_delivery st res st' → turn_delivery st0 res st'.
Proof.
  intros Hp Hr [Hp' Hr' Hb Hret|c Hp' Hr' Hres|result Hp' Hr' Hres];
    rewrite Hp, ?Hr in *.
  - by apply delivery_none.
  - by apply (delivery_entry _ _ _ c).
  - by apply (delivery_end _ _ _ result).
Qed.

Lemma no_delivery st res :
  res ≠ Ok Break → (∀ result, res ≠ Ok (Return result)) →
  turn_delivery st res st.
Proof. intros Hb Hret. by apply delivery_none. Qed.

Lemma Index_push_entry_delivery st :
  turn_delivery st (Index.push_entry st).1 (Index.push_entry st).2.
Proof.
  rewrite Index_push_entry_run.
  destruct (_lastResponse st) as [| |r]; simpl; try by apply no_delivery.
  apply (turn_delivery_after st (advance st)); [done|done|].
  destruct (Contents r) as [| |l]; simpl; try by apply no_delivery.
  destruct (entry_at l (_currentIndex st)) as [| |o]; simpl;
    try by apply no_delivery.
  apply hand_over_delivery.
Qed.

Lemma Part000_push_entry_delivery st :
  turn_delivery st (Part000.push_entry st).1 (Part000.push_entry st).2.
Proof.
  rewrite Part000_push_entry_run.
  destruct (_lastResponse st) as [| |r]; simpl; try by apply no_delivery.
  apply (turn_delivery_after st (advance st)); [done|done|].
  destruct (Contents r) as [| |l]; simpl; try by apply no_delivery.
  unfold Part000_entry_outcome. destruct (truthy (_fullMetadata st)).
  { apply hand_over_delivery. }
  destruct (entry_at l (_currentIndex st)) as [| |o]; simpl;
    try by apply no_delivery.
  apply hand_over_delivery.
Qed.

Lemma end_delivery st :
  turn_delivery st (Ok (Return (accepts EOF st))) (deliver EOF st).
Proof.
  apply (delivery_end _ _ _ (accepts EOF st)); try done.
  simpl. by rewrite pushed_app.
Qed.

Lemma refused_delivery st e s' :
  turn_delivery st (Throw (ThrownError e)) (refused st s').
Proof.
  apply delivery_none; try done. simpl. rewrite pushed_app. simpl.
  by rewrite app_nil_r.
Qed.

Lemma Index_turn_delivery st :
  turn_delivery st (Index.loop_body st).1 (Index.loop_body st).2.
Proof.
  rewrite Index_loop_body_run.
  destruct ((Index.page_exhausted st).1) as [[]|e]; simpl.
  - destruct (Index.is_last_page st); simpl; [apply end_delivery|].
    destruct (listObjectsV2 (next_params st) (_s3 st)) as [[[| |e] data] s'];
      simpl; try apply refused_delivery; unfold bind;
      pose proof (pushed_announced_any (loaded st s' data)) as [Hann Hr];
      destruct (Index.announce_prefixes (loaded st s' data)) as [[[]|e] st1];
      simpl in Hann, Hr; simpl;
      (apply (turn_delivery_after st st1);
       [rewrite Hann; simpl; rewrite pushed_app; simpl; by rewrite app_nil_r
       |by rewrite Hr|]);
      try apply Index_push_entry_delivery; by apply no_delivery.
  - apply Index_push_entry_delivery.
  - by apply no_delivery.
Qed.

Lemma Part000_turn_delivery st :
  turn_delivery st (Part000.loop_body st).1 (Part000.loop_body st).2.
Proof.
  rewrite Part000_loop_body_run.
  destruct ((Part000.page_exhausted st).1) as [[]|e]; simpl.
  - destruct (Part000.is_last_page st); simpl; [apply end_delivery|].
    destruct (listObjectsV2 (next_params st) (_s3 st)) as [[[| |e] data] s'];
      simpl; try apply refused_delivery;
      (apply (turn_delivery_after st (loaded st s' data));
       [simpl; rewrite pushed_app; simpl; by rewrite app_nil_r|done|]);
      apply Part000_push_entry_delivery.
  - apply Part000_push_entry_delivery.
  - by apply no_delivery.
Qed.

Lemma after_pushes_app (r : R) cs cs' :
  after_pushes r (cs ++ cs') = after_pushes (after_pushes r cs) cs'.
Proof. apply foldl_app. Qed.

(** One turn: the base stream has received what the turn has pushed. *)
Lemma turn_delivery_pushes st res st' :
  turn_delivery st res st' →
  ∃ new, pushed (events st') = pushed (events st) ++ new
         ∧ readable st' = after_pushes (readable st) new.
Proof.
  intros [Hp Hr _ _|c Hp Hr _|result Hp Hr _].
  - exists []. by rewrite app_nil_r.
  - by exists [c].
  - by exists [EOF].
Qed.

Section AnyBody.
Variable body : M (S:=S) (R:=R) Flow.
Hypothesis body_delivery : ∀ st, turn_delivery st (body st).1 (body st).2.

Lemma startRead_from_delivery fuel st :
  ∃ new, pushed (events (startRead_from body fuel st).2)
         = pushed (events st) ++ new
         ∧ readable (startRead_from body fuel st).2
           = after_pushes (readable st) new.
Proof.
  revert st. induction fuel as [|fuel IH]; intros st.
  { exists []. simpl. by rewrite app_nil_r. }
  rewrite startRead_from_step.
  destruct (turn_delivery_pushes _ _ _ (body_delivery st))
    as (new & Hp & Hr).
  destruct (body st) as [[[|result|]|e] st'] eqn:Hbody; simpl in *.
  - destruct (IH st') as (new' & Hp' & Hr'). exists (new ++ new').
    by rewrite Hp', Hr', Hp, Hr, after_pushes_app, (assoc_L (++)).
  - by exists new.
  - by exists new.
  - exists new. rewrite pushed_app. simpl. by rewrite app_nil_r.
Qed.

(** All along, the base stream is what its constructor built, after the
    pushes logged so far. *)
Lemma progress_delivery (r0 : R) fuel st :
  readable st = after_pushes r0 (pushed (events st)) →
  readable (progress body fuel st)
  = after_pushes r0 (pushed (events (progress body fuel st))).
Proof.
  intros Hst. unfold progress. destruct (_stopped st); [|done].
  rewrite startRead_with_from.
  destruct (startRead_from_delivery fuel (restart st)) as (new & Hp & Hr).
  rewrite Hp, Hr, after_pushes_app. simpl. rewrite pushed_app. simpl.
  by rewrite app_nil_r, Hst.
Qed.

Lemma read_with_delivery (r0 : R) fuel st st' :
  readable st = after_pushes r0 (pushed (events st)) →
  read_with body fuel st = Some st' →
  readable st' = after_pushes r0 (pushed (events st')).
Proof.
  intros Hst. pose proof (progress_delivery r0 fuel st Hst) as Hp.
  unfold read_with, progress in *. destruct (_stopped st).
  - destruct (startRead_with body fuel st) as [[[c|]|e] st2]; try done.
    by intros [= <-].
  - by intros [= <-].
Qed.

Lemma pulls_delivery (r0 : R) fuels st st' :
  readable st = after_pushes r0 (pushed (events st)) →
  pulls (read_with body) fuels st = Some st' →
  readable st' = after_pushes r0 (pushed (events st')).
Proof.
  revert st. induction fuels as [|fuel fuels IH]; intros st Hst; simpl.
  - by intros [= <-].
  - destruct (read_with body fuel st) as [st1|] eqn:Hread; [|done].
    apply IH. by apply (read_with_delivery r0 fuel st).
Qed.
End AnyBody.

(** X22. The stream touches its base class through [push] only: at any
    point of the life of a stream of either revision, the state of the
    base class is the one its constructor built from the options,
    after the pushes of the log, in order. *)
Theorem base_stream_receives_the_pushes
    (s3 : S) (bucket : string) (bucketPrefix : option string)
    (options listObjectsV2args : option Obj)
    (fuels : list nat) (fuel : nat) :
  (∀ st, pulls Index._read fuels
           (Index.constructor s3 bucket bucketPrefix listObjectsV2args)
         = Some st →
         readable (progress Index.loop_body fuel st)
         = after_pushes (Readable_new {[ "objectMode" := VBool true ]})
             (pushed (events (progress Index.loop_body fuel st))))
  ∧ (∀ st, pulls Part000._read fuels
             (Part000.constructor s3 bucket bucketPrefix options
                listObjectsV2args) = Some st →
           readable (progress Part000.loop_body fuel st)
           = after_pushes (Readable_new (Part000.mergedOptions options))
               (pushed (events (progress Part000.loop_body fuel st)))).
Proof.
  split; intros st Hpulls.
  - apply (progress_delivery Index.loop_body Index_turn_delivery).
    eapply (pulls_delivery Index.loop_body Index_turn_delivery _ fuels);
      [|exact Hpulls]. done.
  - apply (progress_delivery Part000.loop_body Part000_turn_delivery).
    eapply (pulls_delivery Part000.loop_body Part000_turn_delivery _ fuels);
      [|exact Hpulls]. done.
Qed.
End Delivery.

(** ** Readers that pause by their state *)

Section ReaderStates.
Context {S R : Type} `{!S3Client S, !ReadableBase R}.
Implicit Types st : Stream S R.
Variable body : M (S:=S) (R:=R) Flow.
Variable allowed : Chunk → Prop.
Hypothesis body_delivery : ∀ st, turn_delivery st (body st).1 (body st).2.
Hypothesis body_log :
  ∀ st, ∃ new, events (body st).2 = events st ++ new
               ∧ turn_log allowed (body st).1 new.
Hypothesis body_stopped :
  ∀ st, _stopped (body st).2 = stopped_after (body st).1 (_stopped st).

(** A pull on a waiting stream is one call of [_startRead]. *)
Lemma read_with_log_step fuel st st' :
  _stopped st = true → read_with body fuel st = Some st' →
  ∃ c new, events st' = events st ++ Emit_restarted :: new
           ∧ run_log allowed (Some c) new
           ∧ _stopped st' = flag_after (Some c).
Proof.
  intros Hstop. rewrite read_with_stopped by done.
  destruct (startRead_with_log body allowed body_log body_stopped fuel st)
    as (c & new & Hres & Hev & Hrun & Hflag).
  destruct (startRead_with body fuel st) as [[[c'|]|e] st2]; try done.
  simpl in *. injection Hres as <-. intros [= <-]. by exists c', new.
Qed.

Section Accepting.
Variable I : R → Prop.
Hypothesis I_taken : ∀ c r, I r → (push c r).1 = true.
Hypothesis I_kept : ∀ c r, I r → I (push c r).2.

Lemma turn_accepting st :
  I (readable st) → (body st).1 ≠ Ok Break ∧ I (readable (body st).2).
Proof.
  intros Hst.
  destruct (body_delivery st) as [Hp Hr Hb Hret|c Hp Hr Hres|result Hp Hr Hres].
  - by rewrite Hr.
  - rewrite Hres, Hr, (I_taken c _ Hst). split; [done|by apply I_kept].
  - rewrite Hres, Hr. split; [done|by apply I_kept].
Qed.

Lemma while_true_accepting fuel st :
  I (readable st) → (while_true body fuel st).1 ≠ Ok (Some Broke).
Proof.
  revert st. induction fuel as [|fuel IH]; intros st Hst; [done|].
  rewrite while_true_step. destruct (turn_accepting st Hst) as [Hb Hst'].
  destruct (body st) as [[[]|e] st']; simpl in *; try done. by apply IH.
Qed.

(** From a state in which the reader takes every chunk, a pull runs to
    the end of the stream. *)
Lemma read_with_accepting fuel st st' :
  I (readable st) → read_with body fuel st = Some st' → _stopped st' = false.
Proof.
  intros Hst. unfold read_with. destruct (_stopped st) eqn:Hstop;
    [|by intros [= <-]].
  pose proof (startRead_with_stopped body body_stopped fuel st) as Hflag.
  pose proof (while_true_accepting fuel (restart st) Hst) as Hgo.
  rewrite startRead_with_run in *.
  destruct (while_true body fuel (restart st)) as [[[[]|]|e] st2];
    simpl in *; try done; by intros [= <-].
Qed.

(** So that the first of several pulls is the only one that runs. *)
Lemma first_pull_is_the_last fuel fuels st st' :
  I (readable st) →
  pulls (read_with body) (fuel :: fuels) st = Some st' →
  read_with body fuel st = Some st'.
Proof.
  intros Hst. simpl.
  destruct (read_with body fuel st) as [st1|] eqn:Hread; [|done].
  by rewrite (pulls_running body fuels st1
                (read_with_accepting fuel st st1 Hst Hread)).
Qed.
End Accepting.

Section Refusing.
Variable J : R → Prop.
Hypothesis J_refused : ∀ c r, J r → (push c r).1 = false.

Lemma turn_refusing st :
  J (readable st) →
  ∃ new, pushed (events (body st).2) = pushed (events st) ++ new
         ∧ length new ≤ 1
         ∧ readable (body st).2 = after_pushes (readable st) new
         ∧ ((body st).1 = Ok Next → new = [])
         ∧ ((body st).1 = Ok Break → new ≠ []).
Proof.
  intros Hst.
  destruct (body_delivery st) as [Hp Hr Hb Hret|c Hp Hr Hres|result Hp Hr Hres].
  - exists []. rewrite app_nil_r. repeat split; try done. simpl. lia.
  - exists [c]. rewrite Hres, (J_refused c _ Hst).
    repeat split; try done.
  - exists [EOF]. rewrite Hres. repeat split; try done.
Qed.

(** From a state in which the reader refuses every chunk, a call of
    [_startRead] pushes at most one chunk, and one when it ends on a
    pause. *)
Lemma startRead_from_refusing fuel st :
  J (readable st) →
  ∃ new, pushed (events (startRead_from body fuel st).2)
         = pushed (events st) ++ new
         ∧ length new ≤ 1
         ∧ readable (startRead_from body fuel st).2
           = after_pushes (readable st) new
         ∧ ((startRead_from body fuel st).1 = Ok (Some Broke) → new ≠ []).
Proof.
  revert st. induction fuel as [|fuel IH]; intros st Hst.
  { exists []. simpl. rewrite app_nil_r. repeat split; try done. lia. }
  rewrite startRead_from_step.
  destruct (turn_refusing st Hst) as (new & Hp & Hone & Hr & Hnext & Hbreak).
  destruct (body st) as [[[|result|]|e] st'] eqn:Hbody; simpl in *.
  - rewrite (Hnext eq_refl) in *. simpl in *. rewrite app_nil_r in Hp.
    rewrite <- Hr in Hst. destruct (IH st' Hst) as (new' & Hp' & Hone' & Hr' & Hb').
    exists new'. by rewrite Hp', Hr', Hp, Hr.
  - exists new. repeat split; done.
  - exists new. repeat split; try done. intros _. by apply Hbreak.
  - exists new. rewrite pushed_app. simpl. rewrite app_nil_r.
    repeat split; done.
Qed.

Lemma read_with_refusing fuel st st' :
  J (readable st) → read_with body fuel st = Some st' →
  ∃ new, pushed (events st') = pushed (events st) ++ new ∧ length new ≤ 1.
Proof.
  intros Hst. unfold read_with. destruct (_stopped st).
  - rewrite startRead_with_from.
    destruct (startRead_from_refusing fuel (restart st) Hst)
      as (new & Hnew & Hone & _).
    destruct (startRead_from body fuel (restart st)) as [[[c|]|e] st2];
      try done.
    intros [= <-]. exists new. split; [|done]. simpl in Hnew.
    rewrite Hnew, pushed_app. simpl. by rewrite app_nil_r.
  - intros [= <-]. exists []. rewrite app_nil_r. split; [done|simpl; lia].
Qed.
End Refusing.
End ReaderStates.

(** ** A reader that never asks for a pause *)

Section WithoutBackpressure.
Context {S R : Type} `{!S3Client S, !ReadableBase R}.
Implicit Types st : Stream S R.
Hypothesis never_full : ∀ (c : Chunk) (r : R), (push c r).1 = true.

(** X18. In front of a reader that never asks for a pause, one pull lists
    the whole bucket: a single call of [_read], with fuel for the turns
    of the listing, fetches every page and hands over every record (key
    or record for [part_000], on pages that all have entries, all of
    them objects) and then the end-of-stream mark. *)
Theorem one_pull_without_backpressure
    (s3 : S) (bucket : string) (bucketPrefix : option string)
    (options listObjectsV2args : option Obj)
    (pgs : list ListObjectsV2Output) (fuel : nat) :
  let stI : Stream S R :=
    Index.constructor s3 bucket bucketPrefix listObjectsV2args in
  let stP : Stream S R :=
    Part000.constructor s3 bucket bucketPrefix options listObjectsV2args in
  pgs ≠ [] →
  serves (request_with (config stI)) Final s3 VUndefined pgs →
  flags Final pgs →
  turns_left [] pgs ≤ fuel →
  (Forall well_formed pgs →
   ∃ st', Index._read fuel stI = Some st'
          ∧ pushed (events st')
            = (ChunkObject <$> objects (concat (entries <$> pgs))) ++ [EOF]
          ∧ length (requests (events st')) = length pgs
          ∧ errors (events st') = []
          ∧ _stopped st' = false)
  ∧ (Forall populated pgs →
     ∃ st', Part000._read fuel stP = Some st'
            ∧ pushed (events st')
              = (Part000_chunk (_fullMetadata stP)
                   <$> objects (concat (entries <$> pgs))) ++ [EOF]
            ∧ length (requests (events st')) = length pgs
            ∧ errors (events st') = []
            ∧ _stopped st' = false).
Proof.
  intros stI stP Hne Hsrv Hfl Hfuel.
  set (pullsN := replicate (Datatypes.S
                   (length (objects (concat (entries <$> pgs))))) fuel).
  assert (length (objects (concat (entries <$> pgs))) < length pullsN)
    as Hlen by (subst pullsN; rewrite length_replicate; lia).
  assert (Forall (λ fuel, turns_left [] pgs ≤ fuel) pullsN) as Hall.
  { subst pullsN. by apply Forall_replicate. }
  split.
  - intros Hwf.
    destruct (Index_listing s3 bucket bucketPrefix listObjectsV2args Final
                pgs pullsN)
      as (st' & Hpulls & Hstop & Hpushed & Hreq & Herr); try done.
    { by left. }
    { unfold remaining. by rewrite length_fmap. }
    exists st'. split; [|done].
    by apply (first_pull_is_the_last Index.loop_body Index_turn_delivery
                Index_turn_stopped (λ _, True) (λ c r _, never_full c r)
                (λ _ _ _, I) fuel _ _ _ I Hpulls).
  - intros Hpop.
    destruct (Part000_listing s3 bucket bucketPrefix options
                listObjectsV2args Final pgs pullsN)
      as (st' & Hpulls & Hstop & Hpushed & Hreq & Herr); try done.
    { by left. }
    { unfold remaining. by rewrite length_fmap. }
    exists st'. split; [|done].
    by apply (first_pull_is_the_last Part000.loop_body Part000_turn_delivery
                Part000_turn_stopped (λ _, True) (λ c r _, never_full c r)
                (λ _ _ _, I) fuel _ _ _ I Hpulls).
Qed.
End WithoutBackpressure.

(** ** A reader that always asks for a pause *)

Section OneByOne.
Context {S R : Type} `{!S3Client S, !ReadableBase R}.
Implicit Types st : Stream S R.
Variable body : M (S:=S) (R:=R) Flow.
Hypothesis body_one_push :
  ∀ fuel st st',
    read_with body fuel st = Some st' →
    ∃ new, pushed (events st') = pushed (events st) ++ new ∧ length new ≤ 1.
Variable L : Listing.
Hypothesis L_ends : the_ending L = Final.
Hypothesis body_outcome :
  ∀ st todo rest,
    position L st todo rest →
    turn_outcome L (turns_left todo rest)
      (length (remaining (as_chunk L) todo rest)) (body st).1 (body st).2.
Hypothesis body_stopped :
  ∀ st, _stopped (body st).2 = stopped_after (body st).1 (_stopped st).

(** Pull after pull, the chunks of the listing and then the
    end-of-stream mark, one at a time. *)
Lemma pulls_one_by_one fuels :
  ∀ st todo rest,
    position L st todo rest →
    _stopped st = true →
    Forall (λ fuel, turns_left todo rest ≤ fuel) fuels →
    ∃ st', pulls (read_with body) fuels st = Some st'
           ∧ pushed (events st')
             = pushed (events st)
               ++ take (length fuels)
                    (remaining (as_chunk L) todo rest ++ [EOF]).
Proof.
  induction fuels as [|fuel fuels IH]; intros st todo rest Hpos Hstop Hfuel.
  { exists st. simpl. by rewrite take_0, app_nil_r. }
  apply Forall_cons in Hfuel as [Hfuel Hfuels].
  destruct (read_outcome L body body_outcome body_stopped fuel st todo rest
              Hpos Hstop Hfuel)
    as (st1 & Hread & [Hdone|(todo' & rest' & Hpos' & Hstop' & Ht & Hr)]).
  - destruct (body_one_push fuel st st1 Hread) as (new & Hnew & Hone).
    destruct Hdone as [Hdown Hdone]. rewrite L_ends in Hdone.
    destruct Hdone as (Hpushed & _).
    rewrite <- (pos_pushed _ _ _ _ Hpos), Hnew, <- (assoc_L (++)) in Hpushed.
    apply app_inv_head in Hpushed. subst new.
    exists st1. simpl. rewrite Hread. split; [by apply pulls_running|].
    rewrite Hnew. f_equal.
    destruct (remaining (as_chunk L) todo rest) as [|c cs];
      [simpl; by rewrite take_nil|].
    rewrite length_app in Hone. simpl in Hone. lia.
  - destruct (body_one_push fuel st st1 Hread) as (new & Hnew & Hone).
    pose proof (pos_pushed _ _ _ _ Hpos) as Htotal.
    rewrite <- (pos_pushed _ _ _ _ Hpos'), Hnew, <- (assoc_L (++)) in Htotal.
    apply app_inv_head in Htotal.
    destruct (IH st1 todo' rest' Hpos' Hstop') as (st' & Hpulls & Hpushed).
    { eapply Forall_impl; [exact Hfuels|]. simpl. intros fuel' Hle. lia. }
    exists st'. simpl. rewrite Hread. split; [done|].
    rewrite Hpushed, Hnew, Htotal, <- !(assoc_L (++)). f_equal.
    rewrite Htotal, length_app in Hr.
    destruct new as [|c [|c' new]]; simpl in *; [lia|done|lia].
Qed.
End OneByOne.

Section AlwaysFull.
Context {S R : Type} `{!S3Client S, !ReadableBase R}.
Implicit Types st : Stream S R.
Hypothesis always_full : ∀ (c : Chunk) (r : R), (push c r).1 = false.

(** X19. In front of a reader that asks for a pause at every push, every
    pull hands over exactly one chunk: after [n] pulls the reader has
    been handed the first [n] of the records of the listing followed by
    the end-of-stream mark, in order, and nothing else ([part_000]: keys
    or records, on pages that all have entries, all of them objects). *)
Theorem one_chunk_per_pull
    (s3 : S) (bucket : string) (bucketPrefix : option string)
    (options listObjectsV2args : option Obj)
    (pgs : list ListObjectsV2Output) (fuels : list nat) :
  let stI : Stream S R :=
    Index.constructor s3 bucket bucketPrefix listObjectsV2args in
  let stP : Stream S R :=
    Part000.constructor s3 bucket bucketPrefix options listObjectsV2args in
  pgs ≠ [] →
  serves (request_with (config stI)) Final s3 VUndefined pgs →
  flags Final pgs →
  Forall (λ fuel, turns_left [] pgs ≤ fuel) fuels →
  (Forall well_formed pgs →
   ∃ st', pulls Index._read fuels stI = Some st'
          ∧ pushed (events st')
            = take (length fuels)
                ((ChunkObject <$> objects (concat (entries <$> pgs)))
                 ++ [EOF]))
  ∧ (Forall populated pgs →
     ∃ st', pulls Part000._read fuels stP = Some st'
            ∧ pushed (events st')
              = take (length fuels)
                  ((Part000_chunk (_fullMetadata stP)
                      <$> objects (concat (entries <$> pgs))) ++ [EOF])).
Proof.
  intros stI stP Hne Hsrv Hfl Hfuel. split.
  - intros Hwf.
    apply (pulls_one_by_one Index.loop_body
             (λ fuel st st',
                read_with_refusing Index.loop_body Index_turn_delivery
                  (λ _, True) (λ c r _, always_full c r) fuel st st' I)
             (Index_listing_of (config stI) Final
                (remaining ChunkObject [] pgs) (length pgs))
             eq_refl (Index_turn_outcome (config stI) Final _ _)
             Index_turn_stopped fuels stI [] pgs); [|done..].
    split; try done. simpl. split; [done|by left].
  - intros Hpop.
    apply (pulls_one_by_one Part000.loop_body
             (λ fuel st st',
                read_with_refusing Part000.loop_body Part000_turn_delivery
                  (λ _, True) (λ c r _, always_full c r) fuel st st' I)
             (Part000_listing_of (config stP) Final
                (remaining (Part000_chunk (_fullMetadata stP)) [] pgs)
                (length pgs))
             eq_refl (Part000_turn_outcome (config stP) Final _ _)
             Part000_turn_stopped fuels stP [] pgs); [|done..].
    split; try done. simpl. split; [done|by left].
Qed.
End AlwaysFull.

(** ** The reader of the pause test ([part_001] 166-172) *)

Section PauseTest.
Context {S : Type} `{!S3Client S}.
Implicit Types st : Stream S Reader.

Lemma Reader_after_pushes (r : Reader) cs :
  received (after_pushes r cs) = received r ++ cs
  ∧ pushes (after_pushes r cs) = pushes r + length cs.
Proof.
  revert r. induction cs as [|c cs IH]; intros r.
  { simpl. rewrite app_nil_r. split; [done|lia]. }
  change (after_pushes r (c :: cs)) with (after_pushes (push c r).2 cs).
  destruct (IH (push c r).2) as [-> ->]. simpl.
  rewrite <- (assoc_L (++)). split; [done|lia].
Qed.

(** X23. The pause test of [part_001] for any listing with at least one
    record.  The reader of the test answers its first push, and no
    other, with a request to pause.  In front of it [src/index.ts]
    needs exactly two pulls: the first one hands over the first record
    and pauses, the second one hands over all the others and the
    end-of-stream mark.  The reader has received exactly the chunks of
    the log, and the notifications are 'restarted', 'stopped',
    'restarted'. *)
Theorem test_reader_pauses_once
    (s3 : S) (bucket : string) (bucketPrefix : option string)
    (listObjectsV2args : option Obj)
    (pgs : list ListObjectsV2Output) (fuel1 fuel2 : nat) :
  let st0 : Stream S Reader :=
    Index.constructor s3 bucket bucketPrefix listObjectsV2args in
  serves (request_with (config st0)) Final s3 VUndefined pgs →
  flags Final pgs → Forall well_formed pgs →
  objects (concat (entries <$> pgs)) ≠ [] →
  turns_left [] pgs ≤ fuel1 → turns_left [] pgs ≤ fuel2 →
  ∃ st1 st',
    Index._read fuel1 st0 = Some st1
    ∧ pushed (events st1)
      = ChunkObject <$> take 1 (objects (concat (entries <$> pgs)))
    ∧ _stopped st1 = true
    ∧ Index._read fuel2 st1 = Some st'
    ∧ pushed (events st')
      = (ChunkObject <$> objects (concat (entries <$> pgs))) ++ [EOF]
    ∧ received (readable st') = pushed (events st')
    ∧ signals (events st') = [Emit_restarted; Emit_stopped; Emit_restarted]
    ∧ errors (events st') = []
    ∧ length (requests (events st')) = length pgs
    ∧ _stopped st' = false.
Proof.
  intros st0 Hsrv Hfl Hwf Hrec Hf1 Hf2.
  set (records := objects (concat (entries <$> pgs))) in *.
  assert (pgs ≠ []) as Hne by (intros ->; by apply Hrec).
  destruct (Index_listing (R:=Reader) s3 bucket bucketPrefix
              listObjectsV2args Final pgs
              (fuel1 :: fuel2 :: replicate (length records) fuel1))
    as (st' & Hpulls & Hdown & Hpushed & Hreq & Herr); try done.
  { by left. }
  { unfold remaining. simpl. rewrite length_fmap, length_replicate.
    fold records. lia. }
  { repeat (apply Forall_cons; split; [done|]). by apply Forall_replicate. }
  unfold remaining in Hpushed. simpl in Hpushed. fold records in Hpushed.
  cbn [pulls] in Hpulls.
  change (Index.constructor s3 bucket bucketPrefix listObjectsV2args)
    with st0 in Hpulls.
  destruct (Index._read fuel1 st0) as [st1|] eqn:H1; [|done].
  destruct (Index._read fuel2 st1) as [st2|] eqn:H2; [|done].
  unfold Index._read in *.
  (* the first pull *)
  destruct (read_with_log_step Index.loop_body is_record Index_turn_log
              Index_turn_stopped fuel1 st0 st1 eq_refl H1)
    as (c1 & new1 & Hev1 & Hrun1 & Hflag1).
  assert (∃ new, pushed (events st1) = new ∧ length new ≤ 1
                 ∧ readable st1 = after_pushes (readable st0) new
                 ∧ (c1 = Broke → new ≠ []))
    as (pushed1 & Hp1 & Hone1 & Hr1 & Hb1).
  { assert (∀ (c : Chunk) (r : Reader),
              pushes r = 0 → (push c r).1 = false) as Hfresh.
    { intros c r Hr. simpl. by rewrite Hr. }
    destruct (startRead_from_refusing Index.loop_body Index_turn_delivery
                (λ r, pushes r = 0) Hfresh fuel1 (restart st0) eq_refl)
      as (new & Hp & Hone & Hr & Hb).
    unfold read_with in H1. simpl in H1.
    rewrite startRead_with_from in H1.
    pose proof (startRead_with_log Index.loop_body is_record Index_turn_log
                  Index_turn_stopped fuel1 st0) as (c & new' & Hres & _).
    rewrite startRead_with_from in Hres.
    destruct (startRead_from Index.loop_body fuel1 (restart st0))
      as [[[c'|]|e] st1'] eqn:Hcall; try done.
    injection H1 as ->. simpl in *. exists new.
    split; [done|]. split; [done|]. split; [done|].
    intros ->. apply Hb.
    pose proof (startRead_with_stopped Index.loop_body Index_turn_stopped
                  fuel1 st0) as Hfl1.
    rewrite startRead_with_from, Hcall in Hfl1. simpl in Hfl1.
    rewrite Hflag1 in Hfl1. by destruct c' as [| |]. }
  assert (c1 = Broke) as ->.
  { destruct (decide (_stopped st1 = false)) as [Hrun|Hrun].
    - exfalso.
      rewrite read_with_running in H2 by done. injection H2 as <-.
      rewrite (pulls_running Index.loop_body) in Hpulls by done.
      injection Hpulls as <-. rewrite Hpushed in Hp1. subst pushed1.
      rewrite length_app, length_fmap in Hone1. simpl in Hone1.
      destruct records; [done|simpl in Hone1; lia].
    - rewrite Hflag1 in Hrun. by destruct c1. }
  (* the second pull *)
  assert (0 < pushes (readable st1)) as Hwarm.
  { rewrite Hr1. destruct (Reader_after_pushes (readable st0) pushed1)
      as [_ ->].
    specialize (Hb1 eq_refl). destruct pushed1; [done|simpl; lia]. }
  assert (_stopped st2 = false) as Hdown2.
  { apply (read_with_accepting Index.loop_body Index_turn_delivery
             Index_turn_stopped (λ r, 0 < pushes r)) with (fuel := fuel2)
      (st := st1); try done.
    - intros c r Hr. simpl. apply bool_decide_eq_true. lia.
    - intros c r Hr. simpl. lia. }
  rewrite (pulls_running Index.loop_body) in Hpulls by done.
  injection Hpulls as <-.
  destruct (read_with_log_step Index.loop_body is_record Index_turn_log
              Index_turn_stopped fuel2 st1 st2 Hflag1 H2)
    as (c2 & new2 & Hev2 & Hrun2 & Hflag2).
  exists st1, st2. split; [done|]. split.
  { rewrite Hp1.
    assert (pushed (events st2) = pushed (events st1) ++ pushed new2)
      as Hgrow.
    { rewrite Hev2, pushed_app. done. }
    rewrite Hpushed, Hp1 in Hgrow.
    specialize (Hb1 eq_refl).
    destruct pushed1 as [|c [|c' rest]]; [done| |simpl in Hone1; lia].
    destruct records as [|o records']; [done|]. simpl in *.
    by injection Hgrow as -> _. }
  split; [done|]. split; [done|]. split; [done|]. split.
  { pose proof (pulls_delivery Index.loop_body Index_turn_delivery
                  (readable st0) [fuel1; fuel2] st0 st2 eq_refl) as Hread.
    simpl in Hread. rewrite H1, H2 in Hread.
    rewrite (Hread eq_refl).
    by destruct (Reader_after_pushes {| received := []; pushes := 0 |}
                   (pushed (events st2))) as [-> _]. }
  split.
  { pose proof (run_log_signals _ _ _ Hrun1) as Hs1.
    pose proof (run_log_signals _ _ _ Hrun2) as Hs2.
    rewrite <- Hflag2, Hdown2 in Hs2. simpl in Hs1.
    assert (∀ l, signals (Emit_restarted :: l) = Emit_restarted :: signals l)
      as Hcons by done.
    rewrite Hev2, Hev1, !signals_app, !Hcons, Hs1, Hs2. done. }
  done.
Qed.
End PauseTest.

(** ** The properties at work on concrete streams *)

(** One item, then the provider's error, through [part_000]. *)
Lemma Part000_provider_failure_witness :
  ∃ st', pulls Part000._read [3; 3] failing_after_one_item = Some st'
         ∧ pushed (events st') = [ChunkValue (VStr "0.jpg")]
         ∧ length (requests (events st')) = 2
         ∧ errors (events st') = [ThrownError {| message := "some error" |}]
         ∧ ∀ more, pulls Part000._read more st' = Some st'.
Proof.
  apply (Part000_provider_failure one_then_error "some-bucket" None None None
           [createPage 1 0 false] {| message := "some error" |} [3; 3]).
  - simpl. eexists _, _. split; [reflexivity|]. split; [done|].
    by eexists _, _.
  - by repeat split.
  - repeat constructor. by eexists [createItem 0].
  - vm_compute. lia.
  - vm_compute. repeat constructor.
Defined.

(** The second request of the stream of the tests, built with a stale
    token and a page size of two among the caller's arguments. *)
Lemma requests_name_bucket_and_prefix_witness :
  default ∅ (requests (events test_stream_keys_done) !! 1) !! "Bucket"
  = Some (VStr "some-bucket")
  ∧ default ∅ (requests (events test_stream_keys_done) !! 1) !! "Prefix"
    = Some (VStr "/some/prefix").
Proof.
  apply (requests_name_bucket_and_prefix (MockS3_new three_pages false)
           "some-bucket" (Some "/some/prefix") None
           (Some {[ "MaxKeys" := VNum 2;
                    "ContinuationToken" := VStr "stale" ]})
           [9; 9] 0 test_stream_keys_done test_stream_keys_done).
  - right. vm_compute. reflexivity.
  - right. vm_compute. reflexivity.
  - apply (list_elem_of_lookup_2 _ 1). vm_compute. reflexivity.
Defined.

Lemma requests_carry_caller_arguments_witness :
  default ∅ (requests (events test_stream_keys_done) !! 1) !! "MaxKeys"
  = Some (VNum 2).
Proof.
  etransitivity.
  - apply (requests_carry_caller_arguments (MockS3_new three_pages false)
             "some-bucket" (Some "/some/prefix") None
             (Some {[ "MaxKeys" := VNum 2;
                      "ContinuationToken" := VStr "stale" ]})
             [9; 9] 0 test_stream_keys_done test_stream_keys_done).
    + right. vm_compute. reflexivity.
    + right. vm_compute. reflexivity.
    + apply (list_elem_of_lookup_2 _ 1). vm_compute. reflexivity.
    + done.
    + done.
    + done.
  - vm_compute. reflexivity.
Defined.

(** After the page without token, the second request is the first one
    again. *)
Lemma request_after_tokenless_page_is_the_first_witness :
  requests (events restarting_stream_done) !! 0
  = Some (default ∅ (requests (events restarting_stream_done) !! 1)).
Proof.
  apply (request_after_tokenless_page_is_the_first
           (MockS3_new [page_without_token; createPage 1 1 true] false)
           "some-bucket" None None None [5] 0
           restarting_stream_done restarting_stream_done 0
           page_without_token).
  - left. vm_compute. reflexivity.
  - left. vm_compute. reflexivity.
  - vm_compute. reflexivity.
  - reflexivity.
  - vm_compute. reflexivity.
Defined.

Lemma MockS3_records_every_request_witness :
  receivedParams (_s3 test_stream_keys_done)
  = requests (events test_stream_keys_done)
  ∧ _mockedPages (_s3 test_stream_keys_done) = three_pages
  ∧ _shouldFail (_s3 test_stream_keys_done) = false
  ∧ _currentPage (_s3 test_stream_keys_done)
    = length (requests (events test_stream_keys_done)).
Proof.
  apply (MockS3_records_every_request three_pages false "some-bucket"
           (Some "/some/prefix") None
           (Some {[ "MaxKeys" := VNum 2;
                    "ContinuationToken" := VStr "stale" ]})
           [9; 9] 0 test_stream_keys_done test_stream_keys_done).
  - right. vm_compute. reflexivity.
  - right. vm_compute. reflexivity.
Defined.

(** A mock without pages answers the first call with [undefined]. *)
Lemma answer_without_data_fails_witness :
  (∃ st1, Index.loop_body drained_stream
          = (Throw (TypeError VUndefined (Named "CommonPrefixes")), st1))
  ∧ (∃ st1, Part000.loop_body drained_stream
            = (Throw (TypeError VUndefined (Named "Contents")), st1)).
Proof.
  edestruct (answer_without_data_fails drained_stream JNull JUndefined)
    as [(HI & _) (HP & _)].
  - vm_compute. reflexivity.
  - vm_compute. reflexivity.
  - reflexivity.
  - reflexivity.
  - reflexivity.
  - split; eexists; [exact HI|exact HP].
Defined.

(** The bucket of the tests: three pages of two items. *)
Lemma Index_lists_the_mocked_bucket_witness :
  ∃ st' : Stream MockS3 Reader,
    pulls Index._read (replicate 7 10)
      (Index.constructor (MockS3_new (consecutive_pages [2; 2; 2] 0) false)
         "some-bucket" (Some "/some/prefix") (Some {[ "MaxKeys" := VNum 2 ]}))
    = Some st'
    ∧ pushed (events st')
      = (ChunkObject <$> (createItem <$> seq 0 6)) ++ [EOF]
    ∧ length (requests (events st')) = 3
    ∧ errors (events st') = []
    ∧ _stopped st' = false.
Proof.
  apply (Index_lists_the_mocked_bucket [2; 2; 2] 0 "some-bucket"
           (Some "/some/prefix") (Some {[ "MaxKeys" := VNum 2 ]})
           (replicate 7 10)).
  - done.
  - vm_compute. discriminate.
  - vm_compute. lia.
  - vm_compute. repeat constructor.
Defined.

Lemma Part000_lists_the_mocked_bucket_witness :
  ∃ st' : Stream MockS3 Reader,
    pulls Part000._read (replicate 7 10)
      (Part000.constructor
         (MockS3_new (consecutive_pages [2; 2; 2] 0) false)
         "some-bucket" (Some "/some/prefix") None None)
    = Some st'
    ∧ pushed (events st')
      = ((λ n, ChunkValue (VStr (decimal n +:+ ".jpg"))) <$> seq 0 6)
        ++ [EOF]
    ∧ length (requests (events st')) = 3
    ∧ errors (events st') = []
    ∧ _stopped st' = false.
Proof.
  apply (Part000_lists_the_mocked_bucket [2; 2; 2] 0 "some-bucket"
           (Some "/some/prefix") None None (replicate 7 10)).
  - done.
  - vm_compute. discriminate.
  - repeat constructor.
  - vm_compute. lia.
  - vm_compute. repeat constructor.
Defined.

Lemma failing_mock_reports_its_error_witness :
  (∃ st' : Stream MockS3 Reader,
     pulls Index._read [1]
       (Index.constructor (MockS3_new three_pages true) "some-bucket"
          (Some "/some/prefix") None) = Some st'
     ∧ pushed (events st') = []
     ∧ errors (events st') = [ThrownError {| message := "some error" |}]
     ∧ length (requests (events st')) = 1
     ∧ _stopped st' = false)
  ∧ (∃ st' : Stream MockS3 Reader,
       pulls Part000._read [1]
         (Part000.constructor (MockS3_new three_pages true) "some-bucket"
            (Some "/some/prefix") None None) = Some st'
       ∧ pushed (events st') = []
       ∧ errors (events st') = [ThrownError {| message := "some error" |}]
       ∧ length (requests (events st')) = 1
       ∧ _stopped st' = false).
Proof.
  apply (failing_mock_reports_its_error three_pages "some-bucket"
           (Some "/some/prefix") None None [1]).
  - done.
  - repeat constructor.
Defined.

Lemma revisions_agree_on_populated_pages_witness :
  ∃ stI' stP',
    pulls Index._read (replicate 7 10) eager_stream = Some stI'
    ∧ pulls Part000._read (replicate 7 10) eager_stream_keys = Some stP'
    ∧ pushed (events stP') = key_of <$> pushed (events stI')
    ∧ length (requests (events stP')) = length (requests (events stI'))
    ∧ errors (events stI') = [] ∧ errors (events stP') = [].
Proof.
  apply (revisions_agree_on_populated_pages (MockS3_new three_pages false)
           "some-bucket" (Some "/some/prefix") None None three_pages
           (replicate 7 10)).
  - done.
  - simpl. repeat (eexists; eexists; split; [reflexivity|split; [done|]]).
    done.
  - by repeat split.
  - repeat constructor;
      (eexists [createItem _; createItem _]; by split).
  - repeat constructor; by eexists.
  - vm_compute. lia.
  - vm_compute. repeat constructor.
Defined.

(** The failure test: the error is the last event of the log. *)
Lemma error_is_reported_once_and_last_witness :
  errors (events failing_stream_done) = []
  ∨ ∃ before e,
      events failing_stream_done = before ++ [Emit_error e]
      ∧ errors before = []
      ∧ _stopped failing_stream_done = false
      ∧ (∀ err, e = ThrownError err →
                ∃ before' params,
                  before = before' ++ [Call_listObjectsV2 params])
      ∧ ∀ more,
          pulls Index._read more failing_stream_done
          = Some failing_stream_done
          ∧ pulls Part000._read more failing_stream_done
            = Some failing_stream_done.
Proof.
  apply (error_is_reported_once_and_last (MockS3_new [] true) "some-bucket"
           (Some "/some/prefix") None None [1] 0 failing_stream_done
           failing_stream_done).
  - left. vm_compute. reflexivity.
  - left. vm_compute. reflexivity.
Defined.

(** The pause test: one pause, and the stream has ended. *)
Lemma restarted_and_stopped_alternate_witness :
  ∃ pauses,
    signals (events test_stream_done)
    = concat (replicate pauses [Emit_restarted; Emit_stopped])
      ++ (if _stopped test_stream_done then [] else [Emit_restarted]).
Proof.
  apply (restarted_and_stopped_alternate (MockS3_new three_pages false)
           "some-bucket" (Some "/some/prefix") None
           (Some {[ "MaxKeys" := VNum 2 ]}) [9; 9] 0 test_stream_done
           test_stream_done).
  - left. vm_compute. reflexivity.
  - left. vm_compute. reflexivity.
Defined.

Lemma Index_signals_the_end_once_witness :
  ∃ before ending,
    events test_stream_done = before ++ ending
    ∧ Forall is_record (pushed before)
    ∧ errors before = []
    ∧ (ending = []
       ∨ (_stopped test_stream_done = false
          ∧ (ending = [Call_push EOF] ∨ ∃ e, ending = [Emit_error e])
          ∧ ∀ more, pulls Index._read more test_stream_done
                    = Some test_stream_done)).
Proof.
  apply (Index_signals_the_end_once (MockS3_new three_pages false)
           "some-bucket" (Some "/some/prefix")
           (Some {[ "MaxKeys" := VNum 2 ]}) [9; 9] 0 test_stream_done
           test_stream_done).
  - vm_compute. reflexivity.
  - vm_compute. reflexivity.
Defined.

(** The bucket of the tests in one pull. *)
Lemma one_pull_without_backpressure_witness :
  (∃ st', Index._read 10 eager_stream = Some st'
          ∧ pushed (events st')
            = (ChunkObject <$> (createItem <$> seq 0 6)) ++ [EOF]
          ∧ length (requests (events st')) = 3
          ∧ errors (events st') = []
          ∧ _stopped st' = false)
  ∧ (∃ st', Part000._read 10 eager_stream_keys = Some st'
            ∧ pushed (events st')
              = (ChunkValue <$> (Key <$> (createItem <$> seq 0 6)))
                ++ [EOF]
            ∧ length (requests (events st')) = 3
            ∧ errors (events st') = []
            ∧ _stopped st' = false).
Proof.
  destruct (@one_pull_without_backpressure MockS3 Greedy MockS3_client
              Greedy_base (λ c r, eq_refl)
              (MockS3_new three_pages false) "some-bucket"
              (Some "/some/prefix") None None three_pages 10)
    as [HI HP].
  - done.
  - simpl. repeat (eexists; eexists; split; [reflexivity|split; [done|]]).
    done.
  - by repeat split.
  - vm_compute. lia.
  - split.
    + apply HI. repeat constructor; by eexists.
    + apply HP. repeat constructor;
        (eexists [createItem _; createItem _]; by split).
Defined.

(** The first three pulls of a reader that always asks for a pause. *)
Lemma one_chunk_per_pull_witness :
  ∃ st', pulls Index._read [10; 10; 10] busy_stream = Some st'
         ∧ pushed (events st')
           = [ChunkObject (createItem 0); ChunkObject (createItem 1);
              ChunkObject (createItem 2)].
Proof.
  destruct (@one_chunk_per_pull MockS3 Busy MockS3_client Busy_base
              (λ c r, eq_refl)
              (MockS3_new three_pages false) "some-bucket"
              (Some "/some/prefix") None None three_pages [10; 10; 10])
    as [HI _].
  - done.
  - simpl. repeat (eexists; eexists; split; [reflexivity|split; [done|]]).
    done.
  - by repeat split.
  - vm_compute. repeat constructor.
  - apply HI. repeat constructor; by eexists.
Defined.

(** The page with two groupings, listed by [part_000]. *)
Lemma Part000_never_announces_prefixes_witness :
  prefixes (events (progress Part000.loop_body 0 delimited_stream_keys_done))
  = [].
Proof.
  apply (Part000_never_announces_prefixes
           (MockS3_new [page_with_prefixes] false) "some-bucket" None None
           (Some {[ "Delimiter" := VStr "/" ]}) [5] 0
           delimited_stream_keys_done).
  vm_compute. reflexivity.
Defined.

Lemma page_notifications_match_requests_witness :
  page_params (events test_stream_keys_done)
  = take (length (pages (events test_stream_keys_done)))
      (requests (events test_stream_keys_done))
  ∧ length (requests (events test_stream_keys_done))
    = length (pages (events test_stream_keys_done))
      + match errors (events test_stream_keys_done) with
        | [ThrownError _] => 1
        | _ => 0
        end.
Proof.
  apply (page_notifications_match_requests (MockS3_new three_pages false)
           "some-bucket" (Some "/some/prefix") None
           (Some {[ "MaxKeys" := VNum 2;
                    "ContinuationToken" := VStr "stale" ]})
           [9; 9] 0 test_stream_keys_done test_stream_keys_done).
  - right. vm_compute. reflexivity.
  - right. vm_compute. reflexivity.
Defined.

(** The pause test itself: three pages of two items, two pulls. *)
Lemma test_reader_pauses_once_witness :
  ∃ st1 st',
    Index._read 10 test_stream = Some st1
    ∧ pushed (events st1) = [ChunkObject (createItem 0)]
    ∧ _stopped st1 = true
    ∧ Index._read 10 st1 = Some st'
    ∧ pushed (events st')
      = (ChunkObject <$> (createItem <$> seq 0 6)) ++ [EOF]
    ∧ received (readable st') = pushed (events st')
    ∧ signals (events st') = [Emit_restarted; Emit_stopped; Emit_restarted]
    ∧ errors (events st') = []
    ∧ length (requests (events st')) = 3
    ∧ _stopped st' = false.
Proof.
  apply (test_reader_pauses_once (MockS3_new three_pages false) "some-bucket"
           (Some "/some/prefix") (Some {[ "MaxKeys" := VNum 2 ]})
           three_pages 10 10).
  - simpl. repeat (eexists; eexists; split; [reflexivity|split; [done|]]).
    done.
  - by repeat split.
  - repeat constructor; by eexists.
  - done.
  - vm_compute. lia.
  - vm_compute. lia.
Defined.

(** The base class of the stream of the tests, after its two pulls. *)
Lemma base_stream_receives_the_pushes_witness :
  readable (progress Index.loop_body 0 test_stream_done)
  = after_pushes (Readable_new {[ "objectMode" := VBool true ]})
      (pushed (events (progress Index.loop_body 0 test_stream_done))).
Proof.
  destruct (base_stream_receives_the_pushes (R:=Reader)
              (MockS3_new three_pages false)
              "some-bucket" (Some "/some/prefix") None
              (Some {[ "MaxKeys" := VNum 2 ]}) [9; 9] 0) as [HI _].
  apply HI. vm_compute. reflexivity.
Defined.
